(** * Verification of the ARC code-golf evaluation tools

    Shallow embedding of [arc_utils/score.py], [arc_utils/loader.py],
    [arc_utils/evaluator.py], [arc_utils/eval_all.py] and
    [arc_utils/compare_solutions.py], together with the properties the
    specification states about them. *)

From Stdlib Require Import ZArith QArith Lia Bool Ascii String.
From stdpp Require Import base option list gmap strings.

Local Open Scope Z_scope.
Local Open Scope list_scope.

(* ===================================================================== *)
(** ** score.py *)
(* ===================================================================== *)

Module Score.

(** A finite Python float (IEEE binary64) is represented by the rational
    number it denotes exactly. *)
Definition float : Type := Q.

(** The literal [0.001]: the binary64 value nearest to 1/1000, that is
    [0x1.0624dd2f1a9fcp-10] = 1152921504606847 / 2^60. *)
Definition lit_0_001 : float := (1152921504606847 # 1152921504606846976)%Q.

(** Quotient [n / d] rounded to the nearest integer, ties to the even one
    (the rounding of int-to-float conversion), for [0 <= n] and [0 < d]. *)
Definition round_half_even (n d : Z) : Z :=
  let q := n / d in
  let r := n mod d in
  if 2 * r <? d then q
  else if d <? 2 * r then q + 1
  else if Z.even q then q else q + 1.

(** [float(n)] for [0 <= n], as CPython converts: exact up to 53 bits,
    otherwise the 53 leading bits rounded half-even; [None] is Python's
    [OverflowError] ("int too large to convert to float"), raised when
    the rounded value reaches 2^1024. *)
Definition float_of_nonneg (n : Z) : option Z :=
  let bits := if n =? 0 then 0 else Z.log2 n + 1 in
  if bits <=? 53 then Some n
  else
    let sh := bits - 53 in
    let v := round_half_even n (2 ^ sh) * 2 ^ sh in
    if 2 ^ 1024 <=? v then None else Some v.

(** [float(n)] for an arbitrary Python int. *)
Definition float_of_int (n : Z) : option float :=
  if n <? 0
  then (fun v => inject_Z (- v)) <$> float_of_nonneg (- n)
  else inject_Z <$> float_of_nonneg n.

(** [score_for_length(file_len_bytes, passed)]. *)
Definition score_for_length (file_len_bytes : Z) (passed : bool) : option float :=
  if negb passed then Some lit_0_001
  else
    let base := 2500 - file_len_bytes in
    float_of_int (if 1 <? base then base else 1).

End Score.

(* ===================================================================== *)
(** ** Text: Python [str] values as lists of characters *)
(* ===================================================================== *)

Module Text.

Abbreviation text := (list ascii).

(** A string literal as a text. *)
Definition lit (s : string) : text := list_ascii_of_string s.

(** The character of a decimal digit [d < 10]. *)
Definition digit_char (d : N) : ascii := ascii_of_N (48 + d).

Definition is_digit (c : ascii) : bool :=
  let n := N_of_ascii c in ((48 <=? n) && (n <=? 57))%N.

Definition digit_val (c : ascii) : N := (N_of_ascii c - 48)%N.

(** Decimal digits of [n], most significant first, pushed in front of
    [acc]; [fuel] bounds the number of digits produced. *)
Fixpoint digits_acc (fuel : nat) (n : N) (acc : text) : text :=
  match fuel with
  | O => acc
  | S fuel' =>
      let acc' := digit_char (n mod 10) :: acc in
      if (n <? 10)%N then acc' else digits_acc fuel' (n / 10) acc'
  end.

(** [str(n)] for a natural number: its decimal numeral ("0" for zero). *)
Definition str_N (n : N) : text := digits_acc (S (N.to_nat (N.log2 n))) n [].

(** [str(n)] for a Python int. *)
Definition str_int (n : Z) : text :=
  if n <? 0 then "-"%char :: str_N (Z.abs_N n) else str_N (Z.abs_N n).

(** Value of a digit sequence read left to right, starting from [acc]. *)
Fixpoint digits_val (acc : N) (s : text) : N :=
  match s with
  | [] => acc
  | c :: s' => digits_val (10 * acc + digit_val c)%N s'
  end.

(** The suffix left once the leading characters satisfying [p] are
    dropped. *)
Fixpoint drop_while (p : ascii -> bool) (s : text) : text :=
  match s with
  | [] => []
  | c :: s' => if p c then drop_while p s' else s
  end.

(** The longest prefix whose characters all satisfy [p]. *)
Fixpoint take_while (p : ascii -> bool) (s : text) : text :=
  match s with
  | [] => []
  | c :: s' => if p c then c :: take_while p s' else []
  end.

(** [s.startswith(p)]. *)
Fixpoint starts_with (p s : text) : bool :=
  match p, s with
  | [], _ => true
  | _ :: _, [] => false
  | a :: p', b :: s' => if Ascii.eqb a b then starts_with p' s' else false
  end.

(** [s.replace(old, new)] for a non-empty [old]: every non-overlapping
    occurrence, scanning left to right.  [skip] counts the characters of
    an occurrence already replaced that are still to be passed over. *)
Fixpoint replace_from (old new : text) (skip : nat) (s : text) : text :=
  match s with
  | [] => []
  | c :: s' =>
      match skip with
      | S k => replace_from old new k s'
      | O =>
          if starts_with old s
          then new ++ replace_from old new (length old - 1) s'
          else c :: replace_from old new 0 s'
      end
  end.

Definition replace (old new s : text) : text := replace_from old new 0 s.

End Text.

(* ===================================================================== *)
(** ** loader.py *)
(* ===================================================================== *)

Module Loader.
Import Text.

(** [f"{tid:03d}"]: the decimal numeral, zero-padded after the sign to a
    total width of three characters. *)
Definition format_03d (tid : Z) : text :=
  let body := str_N (Z.abs_N tid) in
  if tid <? 0
  then "-"%char :: replicate (2 - length body) "0"%char ++ body
  else replicate (3 - length body) "0"%char ++ body.

(** [_task_id_str(task_id)], for a task id already an [int]. *)
Definition _task_id_str (task_id : Z) : text := format_03d task_id.

(** [os.path.basename(p)]: what follows the last slash. *)
Definition basename (p : text) : text :=
  rev (take_while (fun c => negb (Ascii.eqb c "/"%char)) (rev p)).

(** [os.path.join(a, b)] for a [b] that does not start with a slash. *)
Definition path_join (a b : text) : text :=
  match rev a with
  | [] => b
  | c :: _ => if Ascii.eqb c "/"%char then a ++ b else a ++ "/"%char :: b
  end.

(** The file name of the solver of a task: [f"task{tid}.py"]. *)
Definition solver_file_name (task_id : Z) : text :=
  lit "task" ++ _task_id_str task_id ++ lit ".py".

(** A task as [load_task] returns it: its three splits, a missing key
    read as the empty list. *)
Record task (P : Type) : Type := mk_task {
  t_train : list P;
  t_test : list P;
  t_arc_gen : list P
}.
Arguments mk_task {P} _ _ _.
Arguments t_train {P} _.
Arguments t_test {P} _.
Arguments t_arc_gen {P} _.

End Loader.

(* ===================================================================== *)
(** ** Python values and the [json] module *)
(* ===================================================================== *)

Module Json.
Import Text.

(** A Python float as it prints: a finite binary64 value is identified
    with the shortest decimal [(-1)^neg * m * 10^e] that reads back to it
    (the digits [float.__repr__] produces); this map is injective on
    floats. *)
Inductive pyfloat : Type :=
| FNan
| FInf (neg : bool)
| FDec (neg : bool) (m : N) (e : Z).

(** The values a solver can hand back.  [PDict] is a dict with [str]
    keys, in insertion order.  [PObject] stands for any object the [json]
    encoder has no case for (sets, generators, numpy arrays, functions,
    ...).  A [str] is a sequence of code points below 256. *)
#[warnings="-register-all"]
Inductive pyval : Type :=
| PNone
| PBool (b : bool)
| PInt (n : Z)
| PFloat (f : pyfloat)
| PStr (s : string)
| PList (items : list pyval)
| PTuple (items : list pyval)
| PDict (items : list (string * pyval))
| PObject.

(** *** [json.dumps] *)

(** The double quote character. *)
Definition quote_char : ascii := ascii_of_N 34.

Definition hex_char (d : N) : ascii :=
  if (d <? 10)%N then ascii_of_N (48 + d) else ascii_of_N (87 + d).

(** [ESCAPE_DCT] and the [\uXXXX] fallback of
    [py_encode_basestring_ascii]: everything outside [' '..'~'], the
    quote and the backslash are escaped. *)
Definition escape_char (c : ascii) : text :=
  let n := N_of_ascii c in
  if (n =? 34)%N then ["\"%char; quote_char]
  else if (n =? 92)%N then lit "\\"
  else if (n =? 8)%N then lit "\b"
  else if (n =? 12)%N then lit "\f"
  else if (n =? 10)%N then lit "\n"
  else if (n =? 13)%N then lit "\r"
  else if (n =? 9)%N then lit "\t"
  else if ((32 <=? n) && (n <=? 126))%N then [c]
  else lit "\u00" ++ [hex_char (n / 16); hex_char (n mod 16)].

Definition encode_str (s : string) : text :=
  quote_char :: concat (map escape_char (list_ascii_of_string s)) ++ [quote_char].

(** Trailing zeros of a numeral are dropped: [1200] has digits [12]. *)
Definition strip_trailing_zeros (ds : text) : text :=
  rev (drop_while (fun c => Ascii.eqb c "0"%char) (rev ds)).

(** [float.__repr__] of a finite non-zero float with significant digits
    [ds] and decimal point after position [decpt]
    ([format_float_short], mode ['r']): exponent notation when
    [decpt <= -4] or [decpt > 16], positional notation otherwise. *)
Definition repr_digits (ds : text) (decpt : Z) : text :=
  let n := Z.of_nat (length ds) in
  if (decpt <=? -4) || (16 <? decpt) then
    let x := decpt - 1 in
    let xs := str_N (Z.abs_N x) in
    take 1 ds
      ++ (if 1 <? n then "."%char :: drop 1 ds else [])
      ++ "e"%char :: (if x <? 0 then "-"%char else "+"%char)
      :: replicate (2 - length xs) "0"%char ++ xs
  else if decpt <=? 0 then
    lit "0." ++ replicate (Z.to_nat (- decpt)) "0"%char ++ ds
  else if decpt <? n then
    take (Z.to_nat decpt) ds ++ "."%char :: drop (Z.to_nat decpt) ds
  else
    ds ++ replicate (Z.to_nat (decpt - n)) "0"%char ++ lit ".0".

(** [float.__repr__] as the encoder uses it, with the encoder's own
    spellings of the non-finite values. *)
Definition floatstr (f : pyfloat) : text :=
  match f with
  | FNan => lit "NaN"
  | FInf false => lit "Infinity"
  | FInf true => lit "-Infinity"
  | FDec neg m e =>
      (if neg then ["-"%char] else []) ++
      (if (m =? 0)%N then lit "0.0"
       else
         let ds0 := str_N m in
         let ds := strip_trailing_zeros ds0 in
         repr_digits ds (Z.of_nat (length ds0) + e))
  end.

(** [", ".join(parts)]. *)
Fixpoint join_comma (parts : list text) : text :=
  match parts with
  | [] => []
  | [p] => p
  | p :: ps => p ++ lit ", " ++ join_comma ps
  end.

(** All parts, or [None] as soon as one of them raised. *)
Fixpoint all_some {A : Type} (l : list (option A)) : option (list A) :=
  match l with
  | [] => Some []
  | None :: _ => None
  | Some x :: l' => cons x <$> all_some l'
  end.

(** [json.dumps(v)] with the default settings; [None] is the
    [TypeError] raised for an object that is not JSON serializable.  (The
    limits of the interpreter, on the depth of recursion and on the
    number of digits of an integer, are not modelled.) *)
Fixpoint dumps (v : pyval) : option text :=
  match v with
  | PNone => Some (lit "null")
  | PBool true => Some (lit "true")
  | PBool false => Some (lit "false")
  | PInt n => Some (str_int n)
  | PFloat f => Some (floatstr f)
  | PStr s => Some (encode_str s)
  | PList items | PTuple items =>
      (fun parts => "["%char :: join_comma parts ++ ["]"%char])
        <$> all_some (map dumps items)
  | PDict items =>
      (fun parts => "{"%char :: join_comma parts ++ ["}"%char])
        <$> all_some
              (map (fun kv => (fun t => encode_str (fst kv) ++ lit ": " ++ t)
                                <$> dumps (snd kv)) items)
  | PObject => None
  end.

(** *** [json.loads] on sanitized text *)

(** What [json.loads] yields on a text made of digits, commas, square
    brackets, whitespace and periods only: non-negative integers,
    non-negative decimals [m * 10^e] read as floats, and lists of such.
    The same type holds the expected grids, whose cells are integers. *)
#[warnings="-register-all"]
Inductive jsonval : Type :=
| JInt (n : Z)
| JFloat (m : N) (e : Z)
| JList (items : list jsonval).

(** Induction on values, with the hypothesis for every item of a list. *)
Fixpoint jsonval_nested_ind (P : jsonval -> Prop)
    (Hint : forall n, P (JInt n))
    (Hfloat : forall m e, P (JFloat m e))
    (Hlist : forall items, Forall P items -> P (JList items))
    (v : jsonval) : P v :=
  match v with
  | JInt n => Hint n
  | JFloat m e => Hfloat m e
  | JList items =>
      Hlist items
        ((fix all (l : list jsonval) : Forall P l :=
            match l with
            | [] => List.Forall_nil P
            | x :: l' =>
                @List.Forall_cons _ P x l'
                  (jsonval_nested_ind P Hint Hfloat Hlist x) (all l')
            end) items)
  end.

(** The decoder's [WHITESPACE]: space, tab, line feed, carriage return. *)
Definition is_json_ws (c : ascii) : bool :=
  let n := N_of_ascii c in
  ((n =? 32) || (n =? 9) || (n =? 10) || (n =? 13))%N.

Definition skip_ws (s : text) : text := drop_while is_json_ws s.

(** The longest prefix of digits, and what follows it. *)
Fixpoint span_digits (s : text) : text * text :=
  match s with
  | c :: s' =>
      if is_digit c
      then let '(ds, r) := span_digits s' in (c :: ds, r)
      else ([], s)
  | [] => ([], [])
  end.

(** [NUMBER_RE] without sign and exponent: an integer part that is
    either a lone zero or starts with a non-zero digit, then optionally a
    period and at least one digit; a fraction part makes the number a
    float. *)
Definition parse_number (s : text) : option (jsonval * text) :=
  match s with
  | c :: s' =>
      if is_digit c then
        let '(ip, r1) :=
          if Ascii.eqb c "0"%char then ([c], s') else span_digits s in
        let as_int := Some (JInt (Z.of_N (digits_val 0 ip)), r1) in
        match r1 with
        | c1 :: r2 =>
            if Ascii.eqb c1 "."%char then
              let '(fp, r3) := span_digits r2 in
              match fp with
              | [] => as_int
              | _ :: _ =>
                  Some (JFloat (digits_val 0 (ip ++ fp))
                               (- Z.of_nat (length fp)), r3)
              end
            else as_int
        | [] => as_int
        end
      else None
  | [] => None
  end.

(** The scanner: one value at the head of [s] and the rest of the text;
    [None] is [JSONDecodeError].  [fuel] bounds the number of nested
    calls; the length of the text is always enough. *)
Fixpoint parse_value (fuel : nat) (s : text) : option (jsonval * text) :=
  match fuel with
  | O => None
  | S fuel' =>
      match s with
      | c :: r =>
          if Ascii.eqb c "["%char then
            match skip_ws r with
            | c' :: r' =>
                if Ascii.eqb c' "]"%char then Some (JList [], r')
                else (fun '(vs, r'') => (JList vs, r''))
                       <$> parse_items fuel' (c' :: r')
            | [] => None
            end
          else parse_number s
      | [] => None
      end
  end
with parse_items (fuel : nat) (s : text) : option (list jsonval * text) :=
  match fuel with
  | O => None
  | S fuel' =>
      match parse_value fuel' s with
      | None => None
      | Some (v, r) =>
          match skip_ws r with
          | c :: r' =>
              if Ascii.eqb c ","%char then
                (fun '(vs, r'') => (v :: vs, r''))
                  <$> parse_items fuel' (skip_ws r')
              else if Ascii.eqb c "]"%char then Some ([v], r')
              else None
          | [] => None
          end
      end
  end.

(** [json.loads(s)]: leading whitespace, one value, trailing whitespace,
    and nothing else ("Extra data" otherwise).  The evaluator calls it on
    text that passed the character check only, so the scanner above
    knows numbers and lists and fails on any other character. *)
Definition loads (s : text) : option jsonval :=
  match parse_value (S (length s)) (skip_ws s) with
  | Some (v, r) => match skip_ws r with [] => Some v | _ :: _ => None end
  | None => None
  end.

(** *** Python [==] on these values *)

(** [a * 10^ea = b * 10^eb], decided on integers. *)
Definition dec_eqb (a ea b eb : Z) : bool :=
  let k := Z.min ea eb in
  a * 10 ^ (ea - k) =? b * 10 ^ (eb - k).

(** [x == y]: numbers compare by value whatever their type, lists
    compare element by element, a list never equals a number. *)
Fixpoint py_eqb (x y : jsonval) : bool :=
  match x, y with
  | JInt a, JInt b => a =? b
  | JInt a, JFloat m e => dec_eqb a 0 (Z.of_N m) e
  | JFloat m e, JInt b => dec_eqb (Z.of_N m) e b 0
  | JFloat m e, JFloat m' e' => dec_eqb (Z.of_N m) e (Z.of_N m') e'
  | JList xs, JList ys =>
      (fix go (xs ys : list jsonval) : bool :=
         match xs, ys with
         | [], [] => true
         | x' :: xs', y' :: ys' => py_eqb x' y' && go xs' ys'
         | _, _ => false
         end) xs ys
  | _, _ => false
  end.

End Json.

(* ===================================================================== *)
(** ** [numpy] arrays of objects *)
(* ===================================================================== *)

Module Numpy.
Import Json.

(** An array with [dtype=object]: its shape and its elements in row-major
    order. *)
Record ndarray : Type := mk_ndarray {
  shape : list nat;
  elems : list jsonval
}.

(** The longest common prefix of two shapes. *)
Fixpoint common_prefix (a b : list nat) : list nat :=
  match a, b with
  | x :: a', y :: b' => if Nat.eqb x y then x :: common_prefix a' b' else []
  | _, _ => []
  end.

Definition common_prefix_all (shapes : list (list nat)) : list nat :=
  match shapes with
  | [] => []
  | s :: rest => foldl common_prefix s rest
  end.

(** Shape discovery of [np.array(v, dtype=object)] on nested lists: a
    list contributes its length as one dimension, followed by the
    dimensions all its elements agree on; where the nesting is ragged the
    sub-lists stay as list objects.  (numpy's cap on the number of
    dimensions is not modelled; it is far above the two dimensions of a
    grid.) *)
Fixpoint shape_of (v : jsonval) : list nat :=
  match v with
  | JList items => length items :: common_prefix_all (map shape_of items)
  | _ => []
  end.

(** The elements found [depth] levels down, in row-major order. *)
Fixpoint elems_at (depth : nat) (v : jsonval) : list jsonval :=
  match depth with
  | O => [v]
  | S d =>
      match v with
      | JList items => concat (map (elems_at d) items)
      | _ => [v]
      end
  end.

(** A value is regular for the dimensions [sh]: down to that depth it is
    made of lists of exactly these lengths. *)
Fixpoint regular (sh : list nat) (v : jsonval) : Prop :=
  match sh with
  | [] => True
  | n :: sh' =>
      match v with
      | JList items => length items = n /\ Forall (regular sh') items
      | _ => False
      end
  end.

(** [np.array(v, dtype=object)]. *)
Definition array (v : jsonval) : ndarray :=
  let sh := shape_of v in
  mk_ndarray sh (elems_at (length sh) v).

Definition shape_eqb (a b : list nat) : bool :=
  bool_decide (a = b).

(** [(a == b).all()] for two arrays of the same shape: Python [==] on
    every pair of corresponding elements. *)
Fixpoint all_eq (xs ys : list jsonval) : bool :=
  match xs, ys with
  | [], [] => true
  | x :: xs', y :: ys' => py_eqb x y && all_eq xs' ys'
  | _, _ => false
  end.

(** [a.shape == b.shape and (a == b).all()]. *)
Definition arrays_match (a b : ndarray) : bool :=
  shape_eqb (shape a) (shape b) && all_eq (elems a) (elems b).

(** [a.tolist()]: the nested lists of the array's shape. *)
Fixpoint tolist (sh : list nat) (items : list jsonval) : jsonval :=
  match sh with
  | [] => default (JList []) (head items)
  | n :: sh' =>
      let k := foldr Nat.mul 1%nat sh' in
      JList (map (fun i => tolist sh' (take k (drop (i * k) items))) (seq 0 n))
  end.

End Numpy.

(* ===================================================================== *)
(** ** The object store *)
(* ===================================================================== *)

Module Store.

(** Grids are Python lists of lists: the outer list and every row are
    separate mutable objects, each at its own location.  Integers are
    immutable and stored by value. *)
Abbreviation loc := positive.

Inductive obj : Type :=
| ORow (cells : list Z)
| OGrid (rows : list loc).

Abbreviation heap := (gmap loc obj).

Definition Grid : Type := list (list Z).

(** The cells of the row at [r] (a reference that is not to a row, which
    no well-formed store holds, reads as the empty row). *)
Definition read_row (h : heap) (r : loc) : list Z :=
  match h !! r with
  | Some (ORow cells) => cells
  | _ => []
  end.

(** The value of the grid at [a]. *)
Definition read_grid (h : heap) (a : loc) : Grid :=
  match h !! a with
  | Some (OGrid rows) => map (read_row h) rows
  | _ => []
  end.

(** The locations reachable from a grid reference: the outer list and
    its rows. *)
Definition reach (h : heap) (a : loc) : list loc :=
  match h !! a with
  | Some (OGrid rows) => a :: rows
  | _ => [a]
  end.

(** A new object at a location not in use. *)
Definition alloc (h : heap) (o : obj) : heap * loc :=
  let l := fresh (dom h) in (<[l := o]> h, l).

(** [copy.deepcopy] of the rows of a grid: each row object is copied
    once, [memo] maps the rows already copied to their copies, so rows
    shared in the original are shared in the copy. *)
Fixpoint copy_rows (h : heap) (memo : gmap loc loc) (rows : list loc)
  : heap * list loc :=
  match rows with
  | [] => (h, [])
  | r :: rows' =>
      match memo !! r with
      | Some r' =>
          let '(h', out) := copy_rows h memo rows' in (h', r' :: out)
      | None =>
          let '(h1, r') := alloc h (ORow (read_row h r)) in
          let '(h2, out) := copy_rows h1 (<[r := r']> memo) rows' in
          (h2, r' :: out)
      end
  end.

(** [copy.deepcopy(g)] for a grid reference [a]. *)
Definition deepcopy (h : heap) (a : loc) : heap * loc :=
  match h !! a with
  | Some (OGrid rows) =>
      let '(h1, rows') := copy_rows h ∅ rows in alloc h1 (OGrid rows')
  | Some (ORow cells) => alloc h (ORow cells)
  | None => (h, a)
  end.

(** A grid value stored as fresh objects (used to build example
    stores). *)
Fixpoint store_rows (h : heap) (g : Grid) : heap * list loc :=
  match g with
  | [] => (h, [])
  | row :: g' =>
      let '(h1, r) := alloc h (ORow row) in
      let '(h2, rs) := store_rows h1 g' in
      (h2, r :: rs)
  end.

Definition store_grid (h : heap) (g : Grid) : heap * loc :=
  let '(h1, rs) := store_rows h g in alloc h1 (OGrid rs).

(** The reference [a] is to a grid all of whose rows are rows of the
    store. *)
Definition valid_grid (h : heap) (a : loc) : Prop :=
  exists rows,
    h !! a = Some (OGrid rows)
    /\ Forall (fun r => exists cells, h !! r = Some (ORow cells)) rows.

End Store.

(* ===================================================================== *)
(** ** evaluator.py *)
(* ===================================================================== *)

Module Evaluator.
Import Text Json Numpy Store.

(** The exceptions that can be raised while a pair is processed.  A
    solver may raise anything; [is_exception] tells whether what it
    raised is an instance of [Exception] (it is not for [SystemExit],
    [KeyboardInterrupt], [GeneratorExit] and other direct subclasses of
    [BaseException]). *)
Inductive exn : Type :=
| NotSerializable
| InvalidOutput (shown : text)
| DecodeError
| FileNotFound (path : text)
| NoEntryPoint (path : text)
| NotCallable (path : text)
| Overflow
| SolverError (is_exception : bool) (msg : text).

(** [isinstance(e, Exception)]. *)
Definition is_Exception (e : exn) : bool :=
  match e with
  | SolverError b _ => b
  | _ => true
  end.

Definition newline : ascii := ascii_of_N 10.

Definition exn_message (e : exn) : text :=
  match e with
  | NotSerializable => lit "TypeError: Object is not JSON serializable"
  | InvalidOutput shown => lit "ValueError: Invalid output from user code: " ++ shown
  | DecodeError => lit "json.decoder.JSONDecodeError"
  | FileNotFound path => lit "FileNotFoundError: Missing solver file: " ++ path
  | NoEntryPoint path =>
      lit "AttributeError: " ++ path ++ lit " does not define function p(g)."
  | NotCallable path => lit "TypeError: p in " ++ path ++ lit " is not callable."
  | Overflow => lit "OverflowError: int too large to convert to float"
  | SolverError _ msg => msg
  end.

(** [traceback.format_exc()] while [e] is being handled. *)
Definition format_exc (e : exn) : text :=
  lit "Traceback (most recent call last):" ++ newline :: exn_message e.

(** What a call of the solver does: it returns a value or raises. *)
Inductive outcome : Type :=
| Returned (result : pyval)
| Raised (e : exn).

(** A solver [p]: called on a reference to a grid in a store, it ends
    with an outcome and leaves a store behind (it may mutate what it can
    reach, and allocate). *)
Definition solver : Type := heap -> loc -> outcome * heap.

(** [\s] on ASCII text. *)
Definition is_space (c : ascii) : bool :=
  let n := N_of_ascii c in
  (((9 <=? n) && (n <=? 13)) || ((28 <=? n) && (n <=? 32)))%N.

(** One character outside the class of [_UNSAFE_CHARS_RE]: not a digit,
    comma, square bracket, whitespace or period. *)
Definition unsafe_char (c : ascii) : bool :=
  negb (is_digit c
        || Ascii.eqb c ","%char || Ascii.eqb c "["%char || Ascii.eqb c "]"%char
        || is_space c || Ascii.eqb c "."%char).

(** [_UNSAFE_CHARS_RE.search(dumped)] finds something. *)
Definition _UNSAFE_CHARS_RE_search (dumped : text) : bool :=
  existsb unsafe_char dumped.

(** [json.dumps(result).replace("true","1").replace("false","0")]. *)
Definition normalize_bools (d : text) : text :=
  replace (lit "false") (lit "0") (replace (lit "true") (lit "1") d).

(** Lines 47-51 of [_run_and_sanitize]: what happens to the value the
    solver returned. *)
Definition sanitize (result : pyval) : exn + ndarray :=
  match dumps result with
  | None => inl NotSerializable
  | Some d =>
      let dumped := normalize_bools d in
      if _UNSAFE_CHARS_RE_search dumped
      then inl (InvalidOutput (take 200 dumped))
      else
        match loads dumped with
        | None => inl DecodeError
        | Some parsed => inr (array parsed)
        end
  end.

(** [_run_and_sanitize(program, grid_in)]. *)
Definition _run_and_sanitize (program : solver) (grid_in : loc) (h : heap)
  : (exn + ndarray) * heap :=
  let '(h1, g) := deepcopy h grid_in in
  match program h1 g with
  | (Raised e, h2) => (inl e, h2)
  | (Returned result, h2) => (sanitize result, h2)
  end.

(** An example pair [ex]: references to its input and output grids. *)
Record pair : Type := mk_pair {
  input : loc;
  output : loc
}.

(** The diagnostic kept for the first failing pair. *)
Record detail : Type := mk_detail {
  d_input : loc;
  d_expected : loc;
  d_actual : option jsonval
}.

(** The local variables of [_verify_split]. *)
Record split_state : Type := mk_state {
  right : nat;
  wrong : nat;
  first_wrong_detail : option detail;
  err_tb : text
}.

(** A grid as the value [np.array] receives. *)
Definition grid_value (g : Grid) : jsonval :=
  JList (map (fun row => JList (map JInt row)) g).

Definition note_detail (st : split_state) (d : detail) : option detail :=
  match first_wrong_detail st with
  | None => Some d
  | Some d0 => Some d0
  end.

(** One iteration of the loop of [_verify_split]: [inl e] when [e]
    is not caught by [except Exception] and leaves the function. *)
Definition loop_body (program : solver) (st : split_state) (ex : pair) (h : heap)
  : (exn + split_state) * heap :=
  match _run_and_sanitize program (input ex) h with
  | (inr user_arr, h') =>
      let want_arr := array (grid_value (read_grid h' (output ex))) in
      if arrays_match user_arr want_arr
      then (inr (mk_state (S (right st)) (wrong st)
                          (first_wrong_detail st) (err_tb st)), h')
      else (inr (mk_state (right st) (S (wrong st))
                   (note_detail st
                      (mk_detail (input ex) (output ex)
                         (Some (tolist (shape user_arr) (elems user_arr)))))
                   (err_tb st)), h')
  | (inl e, h') =>
      if is_Exception e
      then (inr (mk_state (right st) (S (wrong st))
                   (note_detail st (mk_detail (input ex) (output ex) None))
                   (match err_tb st with [] => format_exc e | _ :: _ => err_tb st end)),
            h')
      else (inl e, h')
  end.

(** The three ways an iteration can end with the loop going on. *)
Definition counted_correct (st st' : split_state) : Prop :=
  st' = mk_state (S (right st)) (wrong st) (first_wrong_detail st) (err_tb st).

Definition counted_incorrect (ex : pair) (actual : jsonval) (st st' : split_state)
  : Prop :=
  st' = mk_state (right st) (S (wrong st))
          (note_detail st (mk_detail (input ex) (output ex) (Some actual)))
          (err_tb st).

Definition counted_error (ex : pair) (e : exn) (st st' : split_state) : Prop :=
  st' = mk_state (right st) (S (wrong st))
          (note_detail st (mk_detail (input ex) (output ex) None))
          (match err_tb st with [] => format_exc e | _ :: _ => err_tb st end).

(** A solver all of whose faults are instances of [Exception]. *)
Definition raises_only_exceptions (program : solver) : Prop :=
  forall h a e h', program h a = (Raised e, h') -> is_Exception e = true.

(** A solver that raises on every call. *)
Definition always_raises (program : solver) : Prop :=
  forall h a, exists e h', program h a = (Raised e, h').

(** A solver confined to its argument as far as the locations [P] are
    concerned: whatever it does, it leaves those of them that its
    argument does not reach as they were. *)
Definition confined (P : loc -> Prop) (program : solver) : Prop :=
  forall h a o h',
    program h a = (o, h') ->
    forall l, P l -> l ∉ reach h a -> h' !! l = h !! l.

(** A solver that returns a copy of its input: the value of the grid it
    was given, every object of the store left as it was. *)
Definition returns_copy (program : solver) : Prop :=
  forall h a,
    exists h', program h a = (Returned (PList (map (fun row => PList (map PInt row))
                                                   (read_grid h a))), h')
               /\ h ⊆ h'.

(** The locations of the grids of a pair sequence. *)
Definition pair_locs (h : heap) (pairs : list pair) (l : loc) : Prop :=
  exists ex, ex ∈ pairs /\ (l ∈ reach h (input ex) \/ l ∈ reach h (output ex)).

(** The loop over the pairs, from the state [st]. *)
Fixpoint verify_loop (program : solver) (st : split_state) (pairs : list pair)
    (h : heap) : (exn + split_state) * heap :=
  match pairs with
  | [] => (inr st, h)
  | ex :: pairs' =>
      match loop_body program st ex h with
      | (inr st', h') => verify_loop program st' pairs' h'
      | (inl e, h') => (inl e, h')
      end
  end.

(** [_verify_split(program, pairs)]: the tuple
    [(right, wrong, first_wrong_detail, err_tb)], or the exception that
    left the function, and the store afterwards. *)
Definition _verify_split (program : solver) (pairs : list pair) (h : heap)
  : (exn + nat * nat * option detail * text) * heap :=
  match verify_loop program (mk_state 0 0 None []) pairs h with
  | (inr st, h') =>
      (inr (right st, wrong st, first_wrong_detail st, err_tb st), h')
  | (inl e, h') => (inl e, h')
  end.

(** *** Values that survive the textual round trip *)

(** What follows a value inside a dump: nothing, a comma or a closing
    bracket. *)
Definition ends_value (rest : text) : Prop :=
  match rest with
  | [] => True
  | c :: _ => c = ","%char \/ c = "]"%char
  end.

(** A dump starts with a digit or an opening bracket. *)
Definition starts_value (t : text) : Prop :=
  exists c r, t = c :: r /\ (is_digit c = true \/ c = "["%char).

(** A decimal numeral: digits only, no leading zero unless it is the
    single digit zero. *)
Definition numeral (ds : text) : Prop :=
  forallb is_digit ds = true
  /\ (ds = ["0"%char] \/ exists c r, ds = c :: r /\ c <> "0"%char).

(** The scanner reads the text [t] as the value [j], wherever [t] is
    followed by the end of a value and the fuel exceeds its length. *)
Definition item_reads_back (t : text) (j : jsonval) : Prop :=
  starts_value t
  /\ forall fuel rest,
       (length t < fuel)%nat -> ends_value rest ->
       parse_value fuel (t ++ rest) = Some (j, rest).

(** The value [v] is dumped as a text free of unsafe characters, which
    the scanner reads back as a value equal to [w]. *)
Definition reads_back (v : pyval) (w : jsonval) : Prop :=
  exists t j,
    dumps v = Some t
    /\ _UNSAFE_CHARS_RE_search t = false
    /\ item_reads_back t j
    /\ py_eqb j w = true.

(** A returned cell that stands for the expected integer [x], a small
    non-negative integer: the integer itself or a float of that value. *)
Definition cell_ok (v : pyval) (x : Z) : Prop :=
  0 <= x < 10 ^ 16
  /\ (v = PInt x
      \/ exists m e, v = PFloat (FDec false m e) /\ 0 <= e /\ Z.of_N m * 10 ^ e = x).

(** A returned value that is the expected grid cell for cell. *)
Definition grid_ok (result : pyval) (want : Grid) : Prop :=
  exists rows,
    result = PList (map PList rows) /\ Forall2 (Forall2 cell_ok) rows want.

(** *** The comparison as the specification words it *)

(** A cell of the parsed result is numerically equal to the expected
    integer [x]: it is that integer, or a decimal [m * 10^e] of that
    value. *)
Definition num_equal (c : jsonval) (x : Z) : Prop :=
  match c with
  | JInt n => n = x
  | JFloat m e =>
      (0 <= e /\ Z.of_N m * 10 ^ e = x) \/ (e < 0 /\ Z.of_N m = x * 10 ^ (- e))
  | JList _ => False
  end.

(** The parsed result and the expected grid have the same number of
    rows, every row has as many columns as the expected row at the same
    position, and every cell is numerically equal to the expected cell at
    the same position. *)
Definition same_grid (parsed : jsonval) (want : Grid) : Prop :=
  exists rows,
    parsed = JList rows
    /\ length rows = length want
    /\ forall i row wrow,
         rows !! i = Some row -> want !! i = Some wrow ->
         exists cells,
           row = JList cells
           /\ length cells = length wrow
           /\ forall j c x,
                cells !! j = Some c -> wrow !! j = Some x -> num_equal c x.

End Evaluator.

(* ===================================================================== *)
(** ** Loading solvers: [_import_solver] and [_import_solver_from] *)
(* ===================================================================== *)

Module Import_.
Import Text Loader Store Evaluator.

(** The attribute [p] of a loaded module, when it has one. *)
Inductive entry : Type :=
| Callable (p : solver)
| NotCallableValue.

(** A solver file: its size in bytes and what executing it as a module
    gives: an exception, or a namespace in which [p] is bound or not. *)
Record artifact : Type := mk_artifact {
  nbytes : Z;
  exec_module : exn + option entry
}.

(** The files of a run, by path. *)
Definition filesystem : Type := text -> option artifact.

(** [sys.modules], restricted to the modules the loaders register: the
    module name is mapped to the path of the file the module was made
    from. *)
Abbreviation registry := (gmap text text).

(** The module name under which [evaluator._import_solver] registers the
    solver of a task: [f"task{tid}"]. *)
Definition mod_name (task_id : Z) : text :=
  lit "task" ++ _task_id_str task_id.

(** The module name under which
    [compare_solutions._import_solver_from] registers the solver of a task
    found in [src_dir]: [f"cmp_{os.path.basename(src_dir)}_{tid}"]. *)
Definition mod_name_from (src_dir : text) (task_id : Z) : text :=
  lit "cmp_" ++ basename src_dir ++ "_"%char :: _task_id_str task_id.

(** The body shared by the two loaders once the module name and the file
    path are fixed: the module is registered before it is executed. *)
Definition import_at (name file_path : text) (fs : filesystem) (mods : registry)
  : (exn + solver * text) * registry :=
  match fs file_path with
  | None => (inl (FileNotFound file_path), mods)
  | Some art =>
      let mods' := <[name := file_path]> mods in
      match exec_module art with
      | inl e => (inl e, mods')
      | inr None => (inl (NoEntryPoint file_path), mods')
      | inr (Some NotCallableValue) => (inl (NotCallable file_path), mods')
      | inr (Some (Callable prog)) => (inr (prog, file_path), mods')
      end
  end.

(** [evaluator._import_solver(task_id)], the submission directory being
    [submission_dir]. *)
Definition _import_solver (submission_dir : text) (task_id : Z)
    (fs : filesystem) (mods : registry) : (exn + solver * text) * registry :=
  import_at (mod_name task_id)
            (path_join submission_dir (solver_file_name task_id)) fs mods.

(** [compare_solutions._import_solver_from(src_dir, task_id)]. *)
Definition _import_solver_from (src_dir : text) (task_id : Z)
    (fs : filesystem) (mods : registry) : (exn + solver * text) * registry :=
  import_at (mod_name_from src_dir task_id)
            (path_join src_dir (solver_file_name task_id)) fs mods.

End Import_.

(* ===================================================================== *)
(** ** The per-task records of eval_all.py and compare_solutions.py *)
(* ===================================================================== *)

Module Report.
Import Text Loader Store Evaluator Import_.

(** The metadata dict of one task (the labels ["task_id"] and ["file"]
    are left out); a split is recorded as [(pass, fail)]. *)
Record meta : Type := mk_meta {
  exists_ : bool;
  bytes : Z;
  score : Score.float;
  passed : bool;
  arc_agi : nat * nat;
  arc_gen : nat * nat;
  error : text
}.

(** [get_file_bytes(path)]. *)
Definition get_file_bytes (fs : filesystem) (path : text) : exn + Z :=
  match fs path with
  | Some art => inr (nbytes art)
  | None => inl (FileNotFound path)
  end.

(** The body of the [try] block shared by the two [_eval_one]: the
    solver was imported as [program] from [file_path]; [error_of] says
    what the record keeps of the two tracebacks. *)
Definition evaluate_with (program : solver) (file_path : text)
    (agi_pairs gen_pairs : list pair) (fs : filesystem) (h : heap)
  : (exn + (Z * Score.float * bool * (nat * nat) * (nat * nat) * text)) * heap :=
  match _verify_split program agi_pairs h with
  | (inl e, h1) => (inl e, h1)
  | (inr (agi_r, agi_w, _, agi_tb), h1) =>
      match _verify_split program gen_pairs h1 with
      | (inl e, h2) => (inl e, h2)
      | (inr (gen_r, gen_w, _, gen_tb), h2) =>
          let passed_all := Nat.eqb agi_w 0 && Nat.eqb gen_w 0 in
          match get_file_bytes fs file_path with
          | inl e => (inl e, h2)
          | inr n =>
              match Score.score_for_length n passed_all with
              | None => (inl Overflow, h2)
              | Some sc =>
                  (inr (n, sc, passed_all, (agi_r, agi_w), (gen_r, gen_w),
                        match agi_tb with [] => gen_tb | _ :: _ => agi_tb end),
                   h2)
              end
          end
      end
  end.

End Report.

Module EvalAll.
Import Text Loader Store Evaluator Import_ Report.

(** [eval_all._eval_one(task_id, file_exists)], the task loaded by
    [load_task] being [tjson].  [inl e] is an exception that
    [except Exception] does not catch. *)
Definition _eval_one (submission_dir : text) (task_id : Z) (file_exists : bool)
    (tjson : task pair) (fs : filesystem) (mods : registry) (h : heap)
  : (exn + meta) * registry * heap :=
  let agi_pairs := t_train tjson ++ t_test tjson in
  let gen_pairs := t_arc_gen tjson in
  let meta0 :=
    mk_meta file_exists 0 Score.lit_0_001 false
            (0%nat, length agi_pairs) (0%nat, length gen_pairs) [] in
  let failed (e : exn) : exn + meta :=
    if is_Exception e
    then inr (mk_meta file_exists 0 Score.lit_0_001 false
                (0%nat, length agi_pairs) (0%nat, length gen_pairs)
                (exn_message e))
    else inl e in
  if negb file_exists then (inr meta0, mods, h)
  else
    match _import_solver submission_dir task_id fs mods with
    | (inl e, mods') => (failed e, mods', h)
    | (inr (program, file_path), mods') =>
        match evaluate_with program file_path agi_pairs gen_pairs fs h with
        | (inl e, h') => (failed e, mods', h')
        | (inr (n, sc, ok, agi, gen, tb), h') =>
            (inr (mk_meta file_exists n sc ok agi gen tb), mods', h')
        end
    end.

End EvalAll.

Module CompareSolutions.
Import Text Loader Store Evaluator Import_ Report.

(** [compare_solutions._eval_one(src_dir, task_id)], the task loaded by
    [load_task] being [tjson]. *)
Definition _eval_one (src_dir : text) (task_id : Z)
    (tjson : task pair) (fs : filesystem) (mods : registry) (h : heap)
  : (exn + meta) * registry * heap :=
  let meta0 := mk_meta false 0 Score.lit_0_001 false (0%nat, 0%nat) (0%nat, 0%nat) [] in
  match fs (path_join src_dir (solver_file_name task_id)) with
  | None => (inr meta0, mods, h)
  | Some _ =>
      let agi_pairs := t_train tjson ++ t_test tjson in
      let gen_pairs := t_arc_gen tjson in
      let failed (e : exn) : exn + meta :=
        if is_Exception e
        then inr (mk_meta true 0 Score.lit_0_001 false
                    (0%nat, 0%nat) (0%nat, 0%nat) (exn_message e))
        else inl e in
      match _import_solver_from src_dir task_id fs mods with
      | (inl e, mods') => (failed e, mods', h)
      | (inr (program, file_path), mods') =>
          match evaluate_with program file_path agi_pairs gen_pairs fs h with
          | (inl e, h') => (failed e, mods', h')
          | (inr (n, sc, ok, agi, gen, _), h') =>
              (inr (mk_meta true n sc ok agi gen []), mods', h')
          end
      end
  end.

End CompareSolutions.

(* ===================================================================== *)
(** ** Concrete solvers, stores and files *)
(* ===================================================================== *)

Module Examples.
Import Text Json Loader Store Evaluator Import_.

(** A grid as the Python value a solver returns. *)
Definition grid_pyval (g : Grid) : pyval :=
  PList (map (fun row => PList (map PInt row)) g).

(** [p = lambda g: copy.deepcopy(g)]: returns a copy of its input. *)
Definition copy_solver : solver :=
  fun h a => (Returned (grid_pyval (read_grid h a)), h).

(** A solver that returns the same value whatever its input. *)
Definition const_solver (v : pyval) : solver :=
  fun h _ => (Returned v, h).

(** [def p(g): return 1 // 0]: raises on every call. *)
Definition raising_solver : solver :=
  fun h _ => (Raised (SolverError true (lit "ZeroDivisionError: integer division or modulo by zero")), h).

(** [def p(g): raise SystemExit]: what it raises is no [Exception]. *)
Definition exiting_solver : solver :=
  fun h _ => (Raised (SolverError false (lit "SystemExit")), h).

(** Every row of the grid at [a] overwritten in place with nines. *)
Definition paint_rows (h : heap) (rows : list loc) : heap :=
  foldr (fun r acc => <[r := ORow (map (fun _ => 9) (read_row h r))]> acc) h rows.

(** A solver that overwrites the grid it is given, cell by cell, and
    returns it:
    [def p(g): for r in g: r[:] = [9] * len(r)] followed by [return g]. *)
Definition painting_solver : solver :=
  fun h a =>
    match h !! a with
    | Some (OGrid rows) =>
        let h' := paint_rows h rows in
        (Returned (grid_pyval (read_grid h' a)), h')
    | _ => (Returned (PList []), h)
    end.

(** The built-in task 0 of loader.py, [_TASK_ZERO]: the store holding its
    two grids and the task. *)
Definition task_zero_store : heap * task pair :=
  let '(h1, i) := store_grid ∅ [[0]] in
  let '(h2, o) := store_grid h1 [[0]] in
  (h2, mk_task [mk_pair i o] [] []).

(** A store with one pair whose input is [[1, 2], [3, 4]] and whose
    expected output is the same grid. *)
Definition square_store : heap * list pair :=
  let '(h1, i) := store_grid ∅ [[1; 2]; [3; 4]] in
  let '(h2, o) := store_grid h1 [[1; 2]; [3; 4]] in
  (h2, [mk_pair i o]).

(** A store with one pair whose expected output is [[1], [2]]. *)
Definition column_store : heap * list pair :=
  let '(h1, i) := store_grid ∅ [[1]; [2]] in
  let '(h2, o) := store_grid h1 [[1]; [2]] in
  (h2, [mk_pair i o]).

Definition square_heap : heap := square_store.1.
Definition square_pair : pair := hd (mk_pair 1 1) square_store.2.

Definition column_heap : heap := column_store.1.
Definition column_pair : pair := hd (mk_pair 1 1) column_store.2.

(** The value [[1, 2]]: one row where two rows of one cell are
    expected. *)
Definition one_row : pyval := PList [PList [PInt 1; PInt 2]].

(** The value [["a"]]. *)
Definition letter_grid : pyval := PList [PList [PStr "a"]].


(** A solver file of 100 bytes defining the copying solver. *)
Definition copy_artifact : artifact :=
  mk_artifact 100 (inr (Some (Callable copy_solver))).

(** Two folders with the same last component, each holding a solver of
    task 1. *)
Definition dir_a : text := lit "runs/a/submission".
Definition dir_b : text := lit "runs/b/submission".

Definition two_folders : filesystem :=
  fun path =>
    if bool_decide (path = lit "runs/a/submission/task001.py") then Some copy_artifact
    else if bool_decide (path = lit "runs/b/submission/task001.py") then Some copy_artifact
    else None.

(** No file at all. *)
Definition no_files : filesystem := fun _ => None.

End Examples.

(* ===================================================================== *)
(** ** evaluator.py: the grid helpers *)
(* ===================================================================== *)

Module Grids.
Import Text Json Store Evaluator.

(** The loop of [_grids_equal] over [zip(a, b)]: the first pair of rows
    of different lengths, or holding a pair of different cells at the same
    position, ends it with [False]. *)
Fixpoint rows_equal (rows : list (list Z * list Z)) : bool :=
  match rows with
  | [] => true
  | (ra, rb) :: rows' =>
      if negb (length ra =? length rb)%nat then false
      else if existsb (fun '(xa, xb) => negb (xa =? xb)) (zip ra rb) then false
      else rows_equal rows'
  end.

(** [_grids_equal(a, b)]. *)
Definition _grids_equal (a b : Grid) : bool :=
  if negb (length a =? length b)%nat then false
  else rows_equal (zip a b).

(** [row[:]] for every [row] of the list [rows]: each element must be a
    list object, of which a new list with the same items is made.  [None]
    is the [TypeError] raised when an element is not subscriptable (no
    object is stored at its location). *)
Fixpoint clone_rows (h : heap) (rows : list loc) : option (heap * list loc) :=
  match rows with
  | [] => Some (h, [])
  | r :: rows' =>
      match h !! r with
      | Some o =>
          let '(h1, r') := alloc h o in
          (fun '(h2, out) => (h2, r' :: out)) <$> clone_rows h1 rows'
      | None => None
      end
  end.

(** [_clone_grid(g)], that is [[row[:] for row in g]], for a reference
    [g]: a new outer list holding a new list for every row.  A list of
    integers has no row to slice unless it is empty. *)
Definition _clone_grid (h : heap) (g : loc) : option (heap * loc) :=
  match h !! g with
  | Some (OGrid rows) =>
      (fun '(h1, out) => alloc h1 (OGrid out)) <$> clone_rows h rows
  | Some (ORow []) => Some (alloc h (OGrid []))
  | Some (ORow (_ :: _)) => None
  | None => None
  end.

(** Induction on Python values, with the hypothesis for every item of a
    list, of a tuple and of a dict. *)
Fixpoint pyval_nested_ind (P : pyval -> Prop)
    (Hnone : P PNone) (Hbool : forall b, P (PBool b)) (Hint : forall n, P (PInt n))
    (Hfloat : forall f, P (PFloat f)) (Hstr : forall s, P (PStr s))
    (Hlist : forall items, Forall P items -> P (PList items))
    (Htuple : forall items, Forall P items -> P (PTuple items))
    (Hdict : forall items, Forall (fun kv => P (snd kv)) items -> P (PDict items))
    (Hobject : P PObject)
    (v : pyval) : P v :=
  let rec := pyval_nested_ind P Hnone Hbool Hint Hfloat Hstr Hlist Htuple Hdict Hobject in
  let all :=
    fix all (l : list pyval) : Forall P l :=
      match l with
      | [] => List.Forall_nil P
      | x :: l' => @List.Forall_cons _ P x l' (rec x) (all l')
      end in
  match v with
  | PNone => Hnone
  | PBool b => Hbool b
  | PInt n => Hint n
  | PFloat f => Hfloat f
  | PStr s => Hstr s
  | PList items => Hlist items (all items)
  | PTuple items => Htuple items (all items)
  | PDict items =>
      Hdict items
        ((fix alld (l : list (string * pyval)) : Forall (fun kv => P (snd kv)) l :=
            match l with
            | [] => List.Forall_nil _
            | kv :: l' =>
                @List.Forall_cons _ (fun kv => P (snd kv)) kv l' (rec (snd kv)) (alld l')
            end) items)
  | PObject => Hobject
  end.

(** The value [v] with every tuple replaced by the list of its items. *)
Fixpoint tuples_as_lists (v : pyval) : pyval :=
  match v with
  | PList items => PList (map tuples_as_lists items)
  | PTuple items => PList (map tuples_as_lists items)
  | PDict items => PDict (map (fun kv => (fst kv, tuples_as_lists (snd kv))) items)
  | _ => v
  end.

(** A cell that is a boolean or an integer, and the integer it stands
    for: [True] is 1, [False] is 0. *)
Inductive cell : Type :=
| CBool (b : bool)
| CInt (n : Z).

Definition cell_pyval (c : cell) : pyval :=
  match c with
  | CBool b => PBool b
  | CInt n => PInt n
  end.

Definition cell_int (c : cell) : Z :=
  match c with
  | CBool true => 1
  | CBool false => 0
  | CInt n => n
  end.

(** A grid of such cells as the Python value a solver returns. *)
Definition cells_pyval (g : list (list cell)) : pyval :=
  PList (map (fun row => PList (map cell_pyval row)) g).

(** The text [json.dumps] writes for a list of lists whose cells are
    written by [tx]. *)
Definition grid_text {A : Type} (tx : A -> text) (g : list (list A)) : text :=
  "["%char
    :: join_comma (map (fun row => "["%char :: join_comma (map tx row) ++ ["]"%char]) g)
    ++ ["]"%char].

(** [json.dumps] of one cell. *)
Definition cell_text (c : cell) : text :=
  match c with
  | CBool true => lit "true"
  | CBool false => lit "false"
  | CInt n => str_int n
  end.

(** A cell after [.replace("true", "1")]. *)
Definition cell_text_1 (c : cell) : text :=
  match c with
  | CBool true => lit "1"
  | _ => cell_text c
  end.

End Grids.

(* ===================================================================== *)
(** ** evaluator.py: the diagnostics of [_verify_split] *)
(* ===================================================================== *)

Module Diagnostics.
Import Text Evaluator.

(** What holds of the local variables of [_verify_split] throughout the
    loop: a detail is kept exactly when a pair has failed, and a trace
    only then. *)
Definition recorded (st : split_state) : Prop :=
  (first_wrong_detail st = None <-> wrong st = 0%nat)
  /\ (wrong st = 0%nat -> err_tb st = []).

End Diagnostics.

(* ===================================================================== *)
(** ** compare_solutions.py: the table helpers *)
(* ===================================================================== *)

Module Tables.
Import Text.

(** [s[:w]]: the first [w] characters, or all but the last [-w] ones
    when [w] is negative. *)
Definition slice_to (s : text) (w : Z) : text :=
  if w <? 0 then take (Z.to_nat (Z.of_nat (length s) + w)) s
  else take (Z.to_nat w) s.

(** [_pad(s, w)]:
    [s[:w] if len(s) > w else s + " " * (w - len(s))]. *)
Definition _pad (s : text) (w : Z) : text :=
  if w <? Z.of_nat (length s) then slice_to s w
  else s ++ replicate (Z.to_nat (w - Z.of_nat (length s))) " "%char.

End Tables.

(* ===================================================================== *)
(** ** Float arithmetic *)
(* ===================================================================== *)

Module Float64.
Import Score.

(** A Python float: a finite binary64 value, given by the rational
    number it denotes (the two zeros are not told apart), an infinity or a
    NaN. *)
Inductive xfloat : Type :=
| Finite (q : float)
| Infinite (neg : bool)
| NotANumber.

(** The binary64 value nearest to the rational [q], ties to even
    (the rounding of every arithmetic operation): [ex] is the exponent of
    the leading bit of [q], [u] the exponent of the last place, which
    stops at -1074 for subnormal numbers; a result that reaches 2^1024 is
    an infinity. *)
Definition round64 (q : Q) : xfloat :=
  let n := Qnum q in
  let d := Z.pos (Qden q) in
  if n =? 0 then Finite 0%Q
  else
    let a := Z.abs n in
    let e := Z.log2 a - Z.log2 d in
    let ge := if 0 <=? e then d * 2 ^ e <=? a else d <=? a * 2 ^ (- e) in
    let ex := if ge then e else e - 1 in
    let u := Z.max (ex - 52) (-1074) in
    let m := round_half_even (a * 2 ^ Z.max 0 (- u)) (d * 2 ^ Z.max 0 u) in
    let s := if n <? 0 then -1 else 1 in
    if 0 <=? u then
      if 2 ^ 1024 <=? m * 2 ^ u then Infinite (n <? 0)
      else Finite (inject_Z (s * m * 2 ^ u))
    else Finite (Qred (Qmake (s * m) (Z.to_pos (2 ^ (- u))))).

(** [a + b]. *)
Definition fadd (a b : xfloat) : xfloat :=
  match a, b with
  | NotANumber, _ | _, NotANumber => NotANumber
  | Infinite s, Infinite s' => if Bool.eqb s s' then Infinite s else NotANumber
  | Infinite s, Finite _ | Finite _, Infinite s => Infinite s
  | Finite x, Finite y => round64 (x + y)%Q
  end.

(** [a - b] for finite floats. *)
Definition fsub (x y : float) : xfloat := round64 (x - y)%Q.

(** [a < b]. *)
Definition flt (a b : xfloat) : bool :=
  match a, b with
  | NotANumber, _ | _, NotANumber => false
  | Infinite s, Infinite s' => s && negb s'
  | Infinite s, Finite _ => s
  | Finite _, Infinite s => negb s
  | Finite x, Finite y => negb (Qle_bool y x)
  end.

(** A float that is not negative: a finite one with such a value, or
    the positive infinity. *)
Definition nonneg (x : xfloat) : Prop :=
  match x with
  | Finite q => (0 <= q)%Q
  | Infinite neg => neg = false
  | NotANumber => False
  end.

(** The three exceptions of a division. *)
Inductive div_error : Type :=
| ZeroDivision
| IntTooLarge
| ResultTooLarge.

(** [a / n] for a float [a] and an int [n]: the int is converted first
    ([OverflowError] when it is too large), a zero divisor is a
    [ZeroDivisionError]. *)
Definition fdiv_int (a : xfloat) (n : Z) : div_error + xfloat :=
  match float_of_int n with
  | None => inl IntTooLarge
  | Some y =>
      if n =? 0 then inl ZeroDivision
      else inr match a with
               | NotANumber => NotANumber
               | Infinite s => Infinite (xorb s (n <? 0))
               | Finite x => round64 (x / y)%Q
               end
  end.

(** [a / b] for two ints: the quotient correctly rounded;
    [OverflowError] when it is too large for a float. *)
Definition int_truediv (a b : Z) : div_error + xfloat :=
  if b =? 0 then inl ZeroDivision
  else match round64 (inject_Z a / inject_Z b)%Q with
       | Finite q => inr (Finite q)
       | _ => inl ResultTooLarge
       end.

End Float64.

(* ===================================================================== *)
(** ** loader.py: task files *)
(* ===================================================================== *)

Module Tasks.
Import Text Loader Store Evaluator Import_ Float64.

(** What opening and decoding a task file gives: the exception raised,
    or the task it holds, every pair with the values of its two grids.
    (Files holding JSON that is not a task are not modelled.) *)
Definition task_file : Type := exn + task (Grid * Grid).

(** The task files of a run, by path; [None] where [os.path.exists] is
    false. *)
Definition task_files : Type := text -> option task_file.

(** How a run of the tools can end other than by returning. *)
Inductive failure : Type :=
| TaskNotFound (name : text)
| Uncaught (e : exn)
| Arithmetic (e : div_error)
| MissingKey (key : text).

(** [f"task{tid}.json"]. *)
Definition task_json_name (task_id : Z) : text :=
  lit "task" ++ _task_id_str task_id ++ lit ".json".

Definition kaggle_dir : text := lit "/kaggle/input/google-code-golf-2025".

(** [_candidate_paths(task_id)], the repository root being [here]. *)
Definition _candidate_paths (here : text) (task_id : Z) : list text :=
  let local_path :=
    path_join (path_join (path_join here (lit "data")) (lit "tasks"))
              (task_json_name task_id) in
  let kaggle_path := path_join kaggle_dir (task_json_name task_id) in
  [local_path; kaggle_path].

(** The loop of [load_task]: the file at the first path that exists. *)
Fixpoint first_existing (tfs : task_files) (paths : list text) : option task_file :=
  match paths with
  | [] => None
  | path :: paths' =>
      match tfs path with
      | Some f => Some f
      | None => first_existing tfs paths'
      end
  end.

(** The grids [json.load] builds for a sequence of pairs: new objects
    for every grid. *)
Fixpoint store_pairs (h : heap) (ps : list (Grid * Grid)) : heap * list pair :=
  match ps with
  | [] => (h, [])
  | (i, o) :: ps' =>
      let '(h1, li) := store_grid h i in
      let '(h2, lo) := store_grid h1 o in
      let '(h3, rest) := store_pairs h2 ps' in
      (h3, mk_pair li lo :: rest)
  end.

Definition store_task (h : heap) (t : task (Grid * Grid)) : heap * task pair :=
  let '(h1, tr) := store_pairs h (t_train t) in
  let '(h2, te) := store_pairs h1 (t_test t) in
  let '(h3, ge) := store_pairs h2 (t_arc_gen t) in
  (h3, mk_task tr te ge).

(** [load_task(task_id)]: [task_zero] is the module-level object
    [_TASK_ZERO], whose grids are in the store from the start. *)
Definition load_task (here : text) (tfs : task_files) (task_zero : task pair)
    (task_id : Z) (h : heap) : (failure + task pair) * heap :=
  if task_id =? 0 then (inr task_zero, h)
  else
    match first_existing tfs (_candidate_paths here task_id) with
    | Some (inr t) => let '(h', tjson) := store_task h t in (inr tjson, h')
    | Some (inl e) => (inl (Uncaught e), h)
    | None => (inl (TaskNotFound (task_json_name task_id)), h)
    end.

(** What a run finds around it. *)
Record world : Type := mk_world {
  repo_root : text;
  task_store : task_files;
  task_zero : task pair;
  solver_files : filesystem;
  listing : text -> option (list text)
}.

(** [SUBMISSION_DIR = os.path.join(REPO_ROOT, "submission")]. *)
Definition SUBMISSION_DIR (w : world) : text :=
  path_join (repo_root w) (lit "submission").

End Tasks.

(* ===================================================================== *)
(** ** evaluator.py: [evaluate_task] *)
(* ===================================================================== *)

Module Single.
Import Text Loader Store Evaluator Import_ Report Tasks.

(** [evaluate_task(task_id)] with [visual_debug] left at [False]: the
    tuple [(passed_all, task_score, file_len)]. *)
Definition evaluate_task (w : world) (task_id : Z) (mods : registry) (h : heap)
  : (failure + bool * Score.float * Z) * registry * heap :=
  match load_task (repo_root w) (task_store w) (task_zero w) task_id h with
  | (inl e, h1) => (inl e, mods, h1)
  | (inr task_json, h1) =>
      match _import_solver (SUBMISSION_DIR w) task_id (solver_files w) mods with
      | (inl e, mods') => (inl (Uncaught e), mods', h1)
      | (inr (program, file_path), mods') =>
          let arc_agi_pairs := t_train task_json ++ t_test task_json in
          let arc_gen_pairs := t_arc_gen task_json in
          match evaluate_with program file_path arc_agi_pairs arc_gen_pairs
                              (solver_files w) h1 with
          | (inl e, h2) => (inl (Uncaught e), mods', h2)
          | (inr (file_len, task_score, passed_all, _, _, _), h2) =>
              (inr (passed_all, task_score, file_len), mods', h2)
          end
      end
  end.

End Single.

(* ===================================================================== *)
(** ** eval_all.py: the whole range *)
(* ===================================================================== *)

Module Batch.
Import Text Loader Store Evaluator Import_ Report Float64 Tasks.

(** [pat.match(fn)] for the pattern of [_task_paths_present], which is
    the word task, three decimal digits and the suffix .py between the
    anchors: the three digits when the name matches.  The end anchor
    also matches before a line feed that ends the name. *)
Definition match_task_file (fn : text) : option text :=
  let digits := take 3 (drop 4 fn) in
  let rest := drop 7 fn in
  if starts_with (lit "task") fn
     && (length digits =? 3)%nat && forallb is_digit digits
     && (bool_decide (rest = lit ".py") || bool_decide (rest = lit ".py" ++ [newline]))
  then Some digits
  else None.


(** [_task_paths_present()]: the dict from task ids to paths, filled in
    the order of the listing; empty when the directory does not
    exist. *)
Definition _task_paths_present (w : world) : gmap Z text :=
  match listing w (SUBMISSION_DIR w) with
  | None => ∅
  | Some names =>
      foldl (fun out fn =>
               match match_task_file fn with
               | Some digits =>
                   <[Z.of_N (digits_val 0 digits) := path_join (SUBMISSION_DIR w) fn]> out
               | None => out
               end)
            ∅ names
  end.

(** [_eval_one(task_id, file_exists)], the task being loaded first. *)
Definition _eval_one (w : world) (task_id : Z) (file_exists : bool)
    (mods : registry) (h : heap) : (failure + meta) * registry * heap :=
  match load_task (repo_root w) (task_store w) (task_zero w) task_id h with
  | (inl e, h1) => (inl e, mods, h1)
  | (inr tjson, h1) =>
      match EvalAll._eval_one (SUBMISSION_DIR w) task_id file_exists tjson
                              (solver_files w) mods h1 with
      | (inl e, mods', h2) => (inl (Uncaught e), mods', h2)
      | (inr m, mods', h2) => (inr m, mods', h2)
      end
  end.

(** [range(start, stop)]. *)
Definition range (start stop : Z) : list Z :=
  map (fun i => start + Z.of_nat i) (seq 0 (Z.to_nat (stop - start))).

(** The variables the first loop of [evaluate_all] updates. *)
Record totals : Type := mk_totals {
  results : list (Z * meta);
  total_score : xfloat;
  total_bytes : Z;
  n_present : nat;
  n_solved : nat;
  n_failed : nat;
  n_missing : nat
}.

(** The body of the first loop once [_eval_one] has returned [m]. *)
Definition tally (t : totals) (tid : Z) (file_exists : bool) (m : meta) : totals :=
  mk_totals
    (results t ++ [(tid, m)])
    (fadd (total_score t) (Finite (score m)))
    (if file_exists then total_bytes t + bytes m else total_bytes t)
    (if file_exists then S (n_present t) else n_present t)
    (if passed m then S (n_solved t) else n_solved t)
    (if passed m then n_failed t
     else if file_exists then S (n_failed t) else n_failed t)
    (if passed m then n_missing t
     else if file_exists then n_missing t else S (n_missing t)).

(** The first loop, over the task ids [tids]. *)
Fixpoint eval_loop (w : world) (present : gmap Z text) (tids : list Z) (t : totals)
    (mods : registry) (h : heap) : (failure + totals) * registry * heap :=
  match tids with
  | [] => (inr t, mods, h)
  | tid :: tids' =>
      let file_exists := bool_decide (is_Some (present !! tid)) in
      match _eval_one w tid file_exists mods h with
      | (inl e, mods', h') => (inl e, mods', h')
      | (inr m, mods', h') =>
          eval_loop w present tids' (tally t tid file_exists m) mods' h'
      end
  end.

(** What holds of the variables of the first loop after any number of
    iterations: every record carries the flag of its task id, and the
    four counters count the records of each kind. *)
Record counted (present : gmap Z text) (t : totals) : Prop := mk_counted {
  counted_flags :
    Forall (fun r => exists_ (snd r) = bool_decide (is_Some (present !! fst r))
                     /\ (passed (snd r) = true -> exists_ (snd r) = true))
           (results t);
  counted_present :
    n_present t = length (filter (fun r => exists_ (snd r)) (results t));
  counted_solved :
    n_solved t = length (filter (fun r => passed (snd r)) (results t));
  counted_failed :
    n_failed t = length (filter (fun r => exists_ (snd r) && negb (passed (snd r)))
                                (results t));
  counted_missing :
    n_missing t = length (filter (fun r => negb (exists_ (snd r))) (results t))
}.

(** An entry of ["failed_tasks"] (the label ["file"] is left out). *)
Record failed_task : Type := mk_failed {
  f_task_id : Z;
  f_bytes : Z;
  f_score : Score.float;
  f_arc_agi : nat * nat;
  f_arc_gen : nat * nat;
  f_error : text
}.

(** The second loop: the records of the missing and of the failed
    tasks, in the order of the results. *)
Definition collect_missing (rs : list (Z * meta)) : list Z :=
  map fst (filter (fun r => negb (exists_ (snd r))) rs).

Definition collect_failed (rs : list (Z * meta)) : list failed_task :=
  map (fun r => mk_failed (fst r) (bytes (snd r)) (score (snd r))
                          (arc_agi (snd r)) (arc_gen (snd r))
                          (take 400 (error (snd r))))
      (filter (fun r => exists_ (snd r) && negb (passed (snd r))) rs).

(** The dict ["summary"] (the label ["src_dir"] is left out). *)
Record summary : Type := mk_summary {
  total_tasks : Z;
  present : nat;
  solved : nat;
  failed : nat;
  missing : nat;
  sum_score : xfloat;
  avg_score : xfloat;
  total_bytes_present : Z;
  avg_bytes_present : xfloat
}.

(** What [evaluate_all] returns. *)
Record report : Type := mk_report {
  r_summary : summary;
  failed_tasks : list failed_task;
  missing_tasks : list Z;
  tasks : list (Z * meta)
}.

(** [evaluate_all(start, end)], without a progress callback. *)
Definition evaluate_all (w : world) (start end_ : Z) (mods : registry) (h : heap)
  : (failure + report) * registry * heap :=
  let present := _task_paths_present w in
  let total := end_ - start + 1 in
  match eval_loop w present (range start (end_ + 1))
                  (mk_totals [] (Finite 0%Q) 0 0 0 0 0) mods h with
  | (inl e, mods', h') => (inl e, mods', h')
  | (inr t, mods', h') =>
      match fdiv_int (total_score t) total with
      | inl e => (inl (Arithmetic e), mods', h')
      | inr avg =>
          match (if (n_present t =? 0)%nat then inr (Finite 0%Q)
                 else int_truediv (total_bytes t) (Z.of_nat (n_present t))) with
          | inl e => (inl (Arithmetic e), mods', h')
          | inr avg_bytes =>
              (inr (mk_report
                      (mk_summary total (n_present t) (n_solved t) (n_failed t)
                                  (n_missing t) (total_score t) avg
                                  (total_bytes t) avg_bytes)
                      (collect_failed (results t))
                      (collect_missing (results t))
                      (results t)),
               mods', h')
          end
      end
  end.

(** A repository whose solver files are of ordinary sizes, and whose
    modules and solvers raise nothing but instances of [Exception]. *)
Definition tame (w : world) : Prop :=
  forall path art,
    solver_files w path = Some art ->
    0 <= nbytes art < 2 ^ 62
    /\ (forall e, exec_module art = inl e -> is_Exception e = true)
    /\ (forall p, exec_module art = inr (Some (Callable p)) -> raises_only_exceptions p).

End Batch.

(* ===================================================================== *)
(** ** compare_solutions.py: several folders *)
(* ===================================================================== *)

Module Compare.
Import Text Loader Store Evaluator Import_ Report Float64 Tasks.

(** A Python dict with [str] keys: the items in insertion order, no key
    twice. *)
Definition dict (V : Type) : Type := list (text * V).

(** [d[k]], [None] standing for [KeyError]. *)
Fixpoint dict_get {V : Type} (k : text) (d : dict V) : option V :=
  match d with
  | [] => None
  | (k', v) :: d' => if bool_decide (k' = k) then Some v else dict_get k d'
  end.

(** [d[k] = v]: an existing key keeps its place, a new one goes last. *)
Fixpoint dict_set {V : Type} (k : text) (v : V) (d : dict V) : dict V :=
  match d with
  | [] => [(k, v)]
  | (k', v') :: d' =>
      if bool_decide (k' = k) then (k, v) :: d' else (k', v') :: dict_set k v d'
  end.

(** [{f: v for f in keys}]. *)
Definition dict_from_keys {V : Type} (keys : list text) (v : V) : dict V :=
  foldl (fun d f => dict_set f v d) [] keys.

(** [os.path.join(a, b)]: a second component that starts with a slash
    replaces the first. *)
Definition os_path_join (a b : text) : text :=
  if starts_with (lit "/") b then b else path_join a b.

(** [_eval_one(src_dir, task_id)], the task being loaded once the solver
    file is known to exist. *)
Definition _eval_one (w : world) (src_dir : text) (task_id : Z)
    (mods : registry) (h : heap) : (failure + meta) * registry * heap :=
  match solver_files w (path_join src_dir (solver_file_name task_id)) with
  | None =>
      (inr (mk_meta false 0 Score.lit_0_001 false (0%nat, 0%nat) (0%nat, 0%nat) []),
       mods, h)
  | Some _ =>
      match load_task (repo_root w) (task_store w) (task_zero w) task_id h with
      | (inl e, h1) => (inl e, mods, h1)
      | (inr tjson, h1) =>
          match CompareSolutions._eval_one src_dir task_id tjson
                                           (solver_files w) mods h1 with
          | (inl e, mods', h2) => (inl (Uncaught e), mods', h2)
          | (inr m, mods', h2) => (inr m, mods', h2)
          end
      end
  end.

(** The counters and sums kept for a folder while the tasks are
    evaluated. *)
Record running : Type := mk_running {
  present : nat;
  solved : nat;
  failed : nat;
  missing : nat;
  total_score : xfloat;
  total_bytes : Z
}.

(** The update of the summary of a folder for the record [m]. *)
Definition count (s : running) (m : meta) : running :=
  mk_running
    (if exists_ m then S (present s) else present s)
    (if passed m then S (solved s) else solved s)
    (if passed m then failed s else if exists_ m then S (failed s) else failed s)
    (if exists_ m then missing s else S (missing s))
    (fadd (total_score s) (Finite (score m)))
    (if exists_ m then total_bytes s + bytes m else total_bytes s).

(** [d[k] = f(d[k])] for a key of the dict. *)
Fixpoint dict_adjust {V : Type} (k : text) (f : V -> V) (d : dict V) : dict V :=
  match d with
  | [] => []
  | (k', v) :: d' =>
      if bool_decide (k' = k) then (k', f v) :: d' else (k', v) :: dict_adjust k f d'
  end.

(** The cross-folder entry of a task. *)
Record comparison : Type := mk_comparison {
  best_score : Score.float;
  best_folders : list text;
  score_debt_by_folder : dict xfloat
}.

(** What a row of ["tasks"] holds under a key: the record of a folder,
    or the comparison under ["_comparison"]. *)
Inductive rowval : Type :=
| RMeta (m : meta)
| RComparison (c : comparison).

(** The inner loop: the folders of one task, one after the other. *)
Fixpoint folder_loop (w : world) (tid : Z) (fs : list (text * text))
    (row : dict rowval) (summ : dict running) (mods : registry) (h : heap)
  : (failure + dict rowval * dict running) * registry * heap :=
  match fs with
  | [] => (inr (row, summ), mods, h)
  | (folder, absf) :: fs' =>
      match _eval_one w absf tid mods h with
      | (inl e, mods', h') => (inl e, mods', h')
      | (inr m, mods', h') =>
          folder_loop w tid fs' (dict_set folder (RMeta m) row)
                      (dict_adjust folder (fun s => count s m) summ) mods' h'
      end
  end.

(** [row[f]["score"]]. *)
Definition row_score (row : dict rowval) (f : text) : failure + Score.float :=
  match dict_get f row with
  | Some (RMeta m) => inr (score m)
  | Some (RComparison _) => inl (MissingKey (lit "score"))
  | None => inl (MissingKey f)
  end.

(** [{f: row[f]["score"] for f in folders}]. *)
Fixpoint scores_of (row : dict rowval) (folders : list text) (acc : dict Score.float)
  : failure + dict Score.float :=
  match folders with
  | [] => inr acc
  | f :: folders' =>
      match row_score row f with
      | inl e => inl e
      | inr sc => scores_of row folders' (dict_set f sc acc)
      end
  end.

(** [max(values)] and [min(values)] of a sequence that starts with
    [x]. *)
Definition max_of (x : Score.float) (l : list Score.float) : Score.float :=
  foldl (fun best y => if Qle_bool y best then best else y) x l.

Definition min_of (x : Score.float) (l : list Score.float) : Score.float :=
  foldl (fun least y => if Qle_bool least y then least else y) x l.

(** Lines 222-229: the comparison made from the scores of a task. *)
Definition compare_scores (scores : dict Score.float) : comparison :=
  let best :=
    match map snd scores with
    | [] => 0%Q
    | x :: l => max_of x l
    end in
  mk_comparison
    best
    (map fst (filter (fun kv => Qeq_bool (snd kv) best) scores))
    (map (fun kv => (fst kv, fsub best (snd kv))) scores).

(** [f"task{_task_id_str(tid)}.py"]. *)
Definition tkey (tid : Z) : text := solver_file_name tid.

(** The outer loop, over the task ids. *)
Fixpoint task_loop (w : world) (folders : list text) (tids : list Z)
    (tasks : dict (dict rowval)) (summ : dict running) (mods : registry) (h : heap)
  : (failure + dict (dict rowval) * dict running) * registry * heap :=
  match tids with
  | [] => (inr (tasks, summ), mods, h)
  | tid :: tids' =>
      let abs := map (fun f => (f, os_path_join (repo_root w) f)) folders in
      match folder_loop w tid abs [] summ mods h with
      | (inl e, mods', h') => (inl e, mods', h')
      | (inr (row, summ'), mods', h') =>
          match scores_of row folders [] with
          | inl e => (inl e, mods', h')
          | inr scores =>
              let row' :=
                dict_set (lit "_comparison") (RComparison (compare_scores scores)) row in
              task_loop w folders tids' (dict_set (tkey tid) row' tasks) summ' mods' h'
          end
      end
  end.

(** The summary of a folder once the averages are filled in. *)
Record folder_summary : Type := mk_folder_summary {
  counts : running;
  avg_score : xfloat;
  avg_bytes_present : xfloat;
  pass_rate : xfloat
}.

Definition div_or_fail (r : div_error + xfloat) : failure + xfloat :=
  match r with
  | inl e => inl (Arithmetic e)
  | inr x => inr x
  end.

(** The three averages of one folder; a zero divisor gives [0.0]. *)
Definition finalize_one (total : Z) (s : running) : failure + folder_summary :=
  match (if total =? 0 then inr (Finite 0%Q)
         else div_or_fail (fdiv_int (total_score s) total)) with
  | inl e => inl e
  | inr avg =>
      match (if (present s =? 0)%nat then inr (Finite 0%Q)
             else div_or_fail (int_truediv (total_bytes s) (Z.of_nat (present s)))) with
      | inl e => inl e
      | inr avg_bytes =>
          match (if total =? 0 then inr (Finite 0%Q)
                 else div_or_fail (int_truediv (Z.of_nat (solved s)) total)) with
          | inl e => inl e
          | inr rate => inr (mk_folder_summary s avg avg_bytes rate)
          end
      end
  end.

(** The loop that finalizes the summaries, in the order of the dict. *)
Fixpoint finalize (total : Z) (summ : dict running) : failure + dict folder_summary :=
  match summ with
  | [] => inr []
  | (f, s) :: summ' =>
      match finalize_one total s with
      | inl e => inl e
      | inr fs =>
          match finalize total summ' with
          | inl e => inl e
          | inr rest => inr ((f, fs) :: rest)
          end
      end
  end.

(** [sorted(l, key=key, reverse=True)]: a stable sort, items of equal
    keys staying in their order.  (The keys sorted here are sums and
    differences of scores, never NaN.) *)
Fixpoint insert_desc {A : Type} (key : A -> xfloat) (x : A) (l : list A) : list A :=
  match l with
  | [] => [x]
  | y :: l' => if flt (key y) (key x) then x :: l else y :: insert_desc key x l'
  end.

Definition sorted_desc {A : Type} (key : A -> xfloat) (l : list A) : list A :=
  foldl (fun acc x => insert_desc key x acc) [] l.

(** [row["_comparison"]], which every row of ["tasks"] has. *)
Definition row_comparison (row : dict rowval) : failure + comparison :=
  match dict_get (lit "_comparison") row with
  | Some (RComparison c) => inr c
  | Some (RMeta _) => inl (MissingKey (lit "best_folders"))
  | None => inl (MissingKey (lit "_comparison"))
  end.

(** The tally of wins and ties over the rows. *)
Fixpoint tally_wins (rows : list (text * dict rowval)) (wins : dict nat) (ties : nat)
  : failure + dict nat * nat :=
  match rows with
  | [] => inr (wins, ties)
  | (_, row) :: rows' =>
      match row_comparison row with
      | inl e => inl e
      | inr c =>
          match best_folders c with
          | [f] =>
              match dict_get f wins with
              | Some _ => tally_wins rows' (dict_adjust f S wins) ties
              | None => inl (MissingKey f)
              end
          | _ => tally_wins rows' wins (S ties)
          end
      end
  end.

(** [sum(wins.values())]. *)
Definition total_wins (wins : dict nat) : nat :=
  foldr (fun kv acc => (snd kv + acc)%nat) 0%nat wins.

(** The score debt of every folder, summed over the rows. *)
Fixpoint add_debts (debts : list (text * xfloat)) (acc : dict xfloat)
  : failure + dict xfloat :=
  match debts with
  | [] => inr acc
  | (f, debt) :: debts' =>
      match dict_get f acc with
      | Some _ => add_debts debts' (dict_adjust f (fun x => fadd x debt) acc)
      | None => inl (MissingKey f)
      end
  end.

Fixpoint sum_debts (rows : list (text * dict rowval)) (acc : dict xfloat)
  : failure + dict xfloat :=
  match rows with
  | [] => inr acc
  | (_, row) :: rows' =>
      match row_comparison row with
      | inl e => inl e
      | inr c =>
          match add_debts (score_debt_by_folder c) acc with
          | inl e => inl e
          | inr acc' => sum_debts rows' acc'
          end
      end
  end.

(** [{f: row[f]["score"] for f in folders if f in row}]. *)
Fixpoint scores_in (row : dict rowval) (folders : list text) (acc : dict Score.float)
  : failure + dict Score.float :=
  match folders with
  | [] => inr acc
  | f :: folders' =>
      match dict_get f row with
      | None => scores_in row folders' acc
      | Some _ =>
          match row_score row f with
          | inl e => inl e
          | inr sc => scores_in row folders' (dict_set f sc acc)
          end
      end
  end.

(** The gap between the best and the worst score of every row. *)
Fixpoint score_gaps (folders : list text) (rows : list (text * dict rowval))
  : failure + list (text * xfloat) :=
  match rows with
  | [] => inr []
  | (key, row) :: rows' =>
      match scores_in row folders [] with
      | inl e => inl e
      | inr scores =>
          match score_gaps folders rows' with
          | inl e => inl e
          | inr rest =>
              match map snd scores with
              | [] => inr rest
              | x :: l => inr ((key, fsub (max_of x l) (min_of x l)) :: rest)
              end
          end
      end
  end.

Record insights : Type := mk_insights {
  best_overall_by_total_score : list (text * xfloat);
  wins_by_folder : dict nat;
  ties_count : nat;
  score_debt : dict xfloat;
  largest_score_gaps_top20 : list (text * xfloat)
}.

(** What [evaluate_folders] returns. *)
Record report : Type := mk_report {
  r_folders : list text;
  r_summary : dict folder_summary;
  r_insights : insights;
  r_tasks : dict (dict rowval)
}.

(** [evaluate_folders(folders, start, end)], the progress bar left
    out. *)
Definition evaluate_folders (w : world) (folders : list text) (start end_ : Z)
    (mods : registry) (h : heap) : (failure + report) * registry * heap :=
  let per_folder_summary :=
    dict_from_keys folders (mk_running 0 0 0 0 (Finite 0%Q) 0) in
  match task_loop w folders (Batch.range start (end_ + 1)) [] per_folder_summary mods h with
  | (inl e, mods', h') => (inl e, mods', h')
  | (inr (tasks, summ), mods', h') =>
      (match finalize (end_ - start + 1) summ with
       | inl e => inl e
       | inr summary =>
           let best_overall :=
             sorted_desc snd (map (fun kv => (fst kv, total_score (counts (snd kv))))
                                  summary) in
           match tally_wins tasks (dict_from_keys folders 0%nat) 0 with
           | inl e => inl e
           | inr (wins, ties) =>
               match sum_debts tasks (dict_from_keys folders (Finite 0%Q)) with
               | inl e => inl e
               | inr debt =>
                   match score_gaps folders tasks with
                   | inl e => inl e
                   | inr gaps =>
                       inr (mk_report folders summary
                              (mk_insights best_overall wins ties debt
                                           (take 20 (sorted_desc snd gaps)))
                              tasks)
                   end
               end
           end
       end,
       mods', h')
  end.

End Compare.

(* ===================================================================== *)
(** ** viz.py: the canvas of [show_examples] *)
(* ===================================================================== *)

Module Viz.
Import Text Json Store Evaluator.

Definition rgb : Type := (Z * Z * Z)%type.

Definition PALETTE_RGB : list rgb :=
  [(0, 0, 0); (30, 147, 255); (250, 61, 49); (78, 204, 48); (255, 221, 0);
   (153, 153, 153); (229, 59, 163); (255, 133, 28); (136, 216, 241); (147, 17, 49)].

(** The canvas: a list of rows of pixels, every row a list of its
    own. *)
Abbreviation image := (list (list rgb)).

(** The two exceptions the canvas code can raise. *)
Inductive viz_error : Type :=
| IndexError
| TypeError.

(** [len(v)]. *)
Definition py_len (v : jsonval) : viz_error + nat :=
  match v with
  | JList items => inr (length items)
  | _ => inl TypeError
  end.

(** [v[0]]. *)
Definition py_first (v : jsonval) : viz_error + jsonval :=
  match v with
  | JList (x :: _) => inr x
  | JList [] => inl IndexError
  | _ => inl TypeError
  end.

(** [len(v[0])]. *)
Definition first_len (v : jsonval) : viz_error + nat :=
  match py_first v with
  | inl e => inl e
  | inr x => py_len x
  end.

(** [PALETTE_RGB[cell]]: an index from -10 to 9, a negative one counting
    from the end. *)
Definition palette (cell : jsonval) : viz_error + rgb :=
  match cell with
  | JInt n =>
      let i := if n <? 0 then n + 10 else n in
      if (0 <=? i) && (i <? 10)
      then match PALETTE_RGB !! Z.to_nat i with
           | Some c => inr c
           | None => inl IndexError
           end
      else inl IndexError
  | _ => inl TypeError
  end.

(** The first loop: the size of the canvas, [(width, height)]. *)
Fixpoint canvas_size (examples : list (jsonval * jsonval)) (width height : nat)
  : viz_error + nat * nat :=
  match examples with
  | [] => inr (width, height)
  | (grid, outp) :: examples' =>
      match first_len grid with
      | inl e => inl e
      | inr gw =>
          match first_len outp with
          | inl e => inl e
          | inr ow =>
              match py_len grid with
              | inl e => inl e
              | inr gh =>
                  match py_len outp with
                  | inl e => inl e
                  | inr oh =>
                      canvas_size examples' (width + (gw + 1 + ow + 4))
                                  (Nat.max height (Nat.max gh oh + 4))
                  end
              end
          end
      end
  end.

(** [image[y][x] = c]. *)
Definition set_pixel (img : image) (y x : nat) (c : rgb) : viz_error + image :=
  match img !! y with
  | None => inl IndexError
  | Some row =>
      if (x <? length row)%nat then inr (<[y := <[x := c]> row]> img)
      else inl IndexError
  end.

(** The loop over the cells of a row, from column index [c]. *)
Fixpoint paint_cells (img : image) (y offset : nat) (cells : list jsonval) (c : nat)
  : viz_error + image :=
  match cells with
  | [] => inr img
  | cell :: cells' =>
      match palette cell with
      | inl e => inl e
      | inr color =>
          match set_pixel img y (offset + c + 1) color with
          | inl e => inl e
          | inr img' => paint_cells img' y offset cells' (S c)
          end
      end
  end.

(** The loop over the rows of a grid, from row index [r]. *)
Fixpoint paint_rows (img : image) (offset : nat) (rows : list jsonval) (r : nat)
  : viz_error + image :=
  match rows with
  | [] => inr img
  | row :: rows' =>
      match row with
      | JList cells =>
          match paint_cells img (r + 2) offset cells 0 with
          | inl e => inl e
          | inr img' => paint_rows img' offset rows' (S r)
          end
      | _ => inl TypeError
      end
  end.

(** [for r, row in enumerate(grid): ...]. *)
Definition paint_grid (img : image) (offset : nat) (grid : jsonval)
  : viz_error + image :=
  match grid with
  | JList rows => paint_rows img offset rows 0
  | _ => inl TypeError
  end.

(** The second loop: both grids of every example painted, the input at
    [offset], the output right of it. *)
Fixpoint paint_examples (img : image) (offset : nat) (examples : list (jsonval * jsonval))
  : viz_error + image :=
  match examples with
  | [] => inr img
  | (grid, outp) :: examples' =>
      match first_len grid with
      | inl e => inl e
      | inr gw =>
          match first_len outp with
          | inl e => inl e
          | inr ow =>
              match paint_grid img offset grid with
              | inl e => inl e
              | inr img1 =>
                  match paint_grid img1 (offset + (gw + 1)) outp with
                  | inl e => inl e
                  | inr img2 =>
                      paint_examples img2 (offset + (gw + 1) + (ow + 4)) examples'
                  end
              end
          end
      end
  end.

(** Lines 24-46 of [show_examples(examples, bgcolor)]: the image handed
    to [imshow].  (What matplotlib does with it is not modelled.) *)
Definition show_examples_image (examples : list (jsonval * jsonval)) (bgcolor : rgb)
  : viz_error + image :=
  match canvas_size examples 0 0 with
  | inl e => inl e
  | inr (width, height) =>
      paint_examples (replicate height (replicate width bgcolor)) 1 examples
  end.

(** [image[y][x]], when the pixel is on the canvas. *)
Definition pixel (img : image) (y x : nat) : option rgb :=
  match img !! y with
  | Some row => row !! x
  | None => None
  end.

(** A grid that can be drawn: at least one row, every row as long as
    the first, every cell an index of the palette. *)
Definition drawable (g : Grid) : Prop :=
  g <> []
  /\ Forall (fun row => length row = length (hd [] g)) g
  /\ Forall (Forall (fun x => -10 <= x <= 9)) g.

(** The width and the height the first loop gives to the canvas, for
    examples with a first row. *)
Definition canvas_width (examples : list (Grid * Grid)) : nat :=
  foldr (fun ex acc => (length (hd [] (fst ex)) + 1 + length (hd [] (snd ex)) + 4 + acc)%nat)
        0%nat examples.

Definition canvas_height (examples : list (Grid * Grid)) : nat :=
  foldr (fun ex acc => Nat.max (Nat.max (length (fst ex)) (length (snd ex)) + 4) acc)
        0%nat examples.

(** The value of [offset] when the second loop reaches example [k]. *)
Definition offset_of (examples : list (Grid * Grid)) (k : nat) : nat :=
  (1 + canvas_width (take k examples))%nat.

(** The cells of [g] are on the image in their palette colours, with
    the top left cell at row 2 and column [offset + 1]. *)
Definition shows (img : image) (offset : nat) (g : Grid) : Prop :=
  forall r c row x, g !! r = Some row -> row !! c = Some x ->
    exists col, palette (JInt x) = inr col
                /\ pixel img (r + 2) (offset + c + 1) = Some col.

(** The examples as [show_examples] receives them. *)
Definition example_values (examples : list (Grid * Grid)) : list (jsonval * jsonval) :=
  map (fun ex => (grid_value (fst ex), grid_value (snd ex))) examples.

End Viz.

(* ===================================================================== *)
(** ** The debug view of [evaluate_task] *)
(* ===================================================================== *)

Module Debug.
Import Text Json Loader Store Evaluator Import_ Report Tasks Viz.

(** What leaves [evaluate_task]: an exception of the evaluation itself,
    one raised while [show_examples] builds its image, or one raised by
    matplotlib. *)
Inductive debug_failure : Type :=
| Evaluation (e : failure)
| Drawing (e : viz_error)
| Plotting (e : text).

(** [agi_detail or gen_detail]: a detail is a dict of three keys, which
    counts as true. *)
Definition first_detail (agi_detail gen_detail : option detail) : option detail :=
  match agi_detail with
  | Some d => Some d
  | None => gen_detail
  end.

Section Plot.

(** Lines 48-75 of [show_examples], the calls of matplotlib: not
    modelled further than by the exception they may end with. *)
Variable plot : list (jsonval * jsonval) -> image -> option text.

(** [show_examples(examples, bgcolor)]: the exception it raises, if
    any. *)
Definition show_examples (examples : list (jsonval * jsonval)) (bgcolor : rgb)
  : option debug_failure :=
  match show_examples_image examples bgcolor with
  | inl e => Some (Drawing e)
  | inr img =>
      match plot examples img with
      | Some e => Some (Plotting e)
      | None => None
      end
  end.

(** The block under [if visual_debug:] (what it prints apart): the
    first failing case drawn twice, with the expected and with the
    actual output; the exception it raises, if any. *)
Definition debug_block (h : heap) (agi_detail gen_detail : option detail)
  : option debug_failure :=
  match first_detail agi_detail gen_detail with
  | None => None
  | Some bad =>
      let inp := grid_value (read_grid h (d_input bad)) in
      let expected_case := (inp, grid_value (read_grid h (d_expected bad))) in
      let actual_case :=
        (inp, match d_actual bad with Some v => v | None => JList [] end) in
      match show_examples [expected_case] (200, 255, 200) with
      | Some e => Some e
      | None => show_examples [actual_case] (255, 200, 200)
      end
  end.

(** [evaluate_task(task_id, visual_debug)]. *)
Definition evaluate_task (w : world) (task_id : Z) (visual_debug : bool)
    (mods : registry) (h : heap)
  : (debug_failure + bool * Score.float * Z) * registry * heap :=
  match load_task (repo_root w) (task_store w) (task_zero w) task_id h with
  | (inl e, h1) => (inl (Evaluation e), mods, h1)
  | (inr task_json, h1) =>
      match _import_solver (SUBMISSION_DIR w) task_id (solver_files w) mods with
      | (inl e, mods') => (inl (Evaluation (Uncaught e)), mods', h1)
      | (inr (program, file_path), mods') =>
          let arc_agi_pairs := t_train task_json ++ t_test task_json in
          let arc_gen_pairs := t_arc_gen task_json in
          match _verify_split program arc_agi_pairs h1 with
          | (inl e, h2) => (inl (Evaluation (Uncaught e)), mods', h2)
          | (inr (agi_r, agi_w, agi_detail, agi_tb), h2) =>
              match _verify_split program arc_gen_pairs h2 with
              | (inl e, h3) => (inl (Evaluation (Uncaught e)), mods', h3)
              | (inr (gen_r, gen_w, gen_detail, gen_tb), h3) =>
                  let passed_all := Nat.eqb agi_w 0 && Nat.eqb gen_w 0 in
                  match get_file_bytes (solver_files w) file_path with
                  | inl e => (inl (Evaluation (Uncaught e)), mods', h3)
                  | inr file_len =>
                      match Score.score_for_length file_len passed_all with
                      | None => (inl (Evaluation (Uncaught Overflow)), mods', h3)
                      | Some task_score =>
                          match (if visual_debug
                                 then debug_block h3 agi_detail gen_detail
                                 else None) with
                          | Some e => (inl e, mods', h3)
                          | None =>
                              (inr (passed_all, task_score, file_len), mods', h3)
                          end
                      end
                  end
              end
          end
      end
  end.

End Plot.

End Debug.

(* ===================================================================== *)
(** ** More stores and values *)
(* ===================================================================== *)

Module Samples.
Import Text Json Loader Store Evaluator Import_ Grids Tasks.

(** The grid [[[1, 2]] * 2]: an outer list at location 2 that holds the
    one row object at location 1 twice. *)
Definition shared_row_heap : heap :=
  <[2%positive := OGrid [1%positive; 1%positive]]>
    (<[1%positive := ORow [1; 2]]> ∅).

(** A repository at [/repo]: the task file of task 1, whose only pair
    maps [[1, 2], [3, 4]] to itself, the built-in task 0, a solver of
    100 bytes for task 1 that copies its input, and no solver for
    task 0. *)
Definition sample_task : task (Grid * Grid) :=
  mk_task [([[1; 2]; [3; 4]], [[1; 2]; [3; 4]])] [] [].

Definition sample_world : world :=
  mk_world
    (lit "/repo")
    (fun path =>
       if bool_decide (path = lit "/repo/data/tasks/task001.json")
       then Some (inr sample_task) else None)
    Examples.task_zero_store.2
    (fun path =>
       if bool_decide (path = lit "/repo/submission/task001.py")
       then Some Examples.copy_artifact else None)
    (fun dir =>
       if bool_decide (dir = lit "/repo/submission")
       then Some [lit "task001.py"; lit "notes.txt"] else None).

(** The store at the start of a run: the grids of the built-in task. *)
Definition sample_heap : heap := Examples.task_zero_store.1.

(** The task of [sample_task] once loaded, and the store that holds its
    grids. *)
Definition sample_pairs_heap : heap := (store_task sample_heap sample_task).1.
Definition sample_pairs : task pair := (store_task sample_heap sample_task).2.


(** Two examples to draw, with grids of different sizes. *)
Definition sample_examples : list (Grid * Grid) :=
  [([[1; 2]; [3; 4]], [[5]]); ([[0; -1; 9]], [[7; 7]; [8; 8]])].

End Samples.

(* ===================================================================== *)
(** * Properties *)
(* ===================================================================== *)

(** ** The scorer *)

Module ScoreFacts.
Import Score.

Lemma round_half_even_bounds (n d : Z) :
  0 <= n -> 0 < d ->
  n / d <= round_half_even n d <= n / d + 1.
Proof.
  intros Hn Hd. unfold round_half_even.
  destruct (2 * (n mod d) <? d); [lia|].
  destruct (d <? 2 * (n mod d)); [lia|].
  destruct (Z.even (n / d)); lia.
Qed.

Lemma round_half_even_below_half (n d : Z) :
  2 * (n mod d) < d -> round_half_even n d = n / d.
Proof.
  intros H. unfold round_half_even.
  destruct (Z.ltb_spec (2 * (n mod d)) d); [reflexivity | lia].
Qed.

(** Up to 53 bits the conversion is exact. *)
Lemma float_of_nonneg_exact (n : Z) :
  0 <= n <= 2 ^ 53 -> float_of_nonneg n = Some n.
Proof.
  intros [H0 H53]. unfold float_of_nonneg.
  destruct (Z.eqb_spec n 0) as [->|Hne]; [reflexivity|].
  destruct (Z.leb_spec (Z.log2 n + 1) 53) as [|Hbits]; [reflexivity|].
  assert (Hlog : 53 <= Z.log2 n) by lia.
  assert (Hpow : 2 ^ Z.log2 n <= n) by (apply Z.log2_spec; lia).
  assert (Hmono : 2 ^ 53 <= 2 ^ Z.log2 n) by (apply Z.pow_le_mono_r; lia).
  assert (Heq : n = 2 ^ 53) by lia.
  assert (Hl : Z.log2 n = 53) by (rewrite Heq; apply Z.log2_pow2; lia).
  rewrite Hl. cbn -[Z.pow Z.mul Z.div Z.modulo].
  replace (53 + 1 - 53) with 1 by lia.
  unfold round_half_even. rewrite Heq.
  reflexivity.
Qed.

(** Below the overflow threshold the conversion gives a value; that
    value is at least one when the integer is. *)
Lemma float_of_nonneg_defined (n : Z) :
  1 <= n < 2 ^ 1024 - 2 ^ 970 ->
  exists v, float_of_nonneg n = Some v /\ 1 <= v.
Proof.
  intros [H1 Hlt]. unfold float_of_nonneg.
  destruct (Z.eqb_spec n 0) as [->|_]; [lia|].
  destruct (Z.leb_spec (Z.log2 n + 1) 53) as [|Hbits].
  { exists n. split; [reflexivity | lia]. }
  set (l := Z.log2 n) in *.
  assert (Hspec : 2 ^ l <= n < 2 ^ Z.succ l) by (apply Z.log2_spec; lia).
  replace (l + 1 - 53) with (l - 52) by lia.
  set (sh := l - 52).
  assert (Hsh : 1 <= sh) by (unfold sh; lia).
  assert (Hd : 0 < 2 ^ sh) by (apply Z.pow_pos_nonneg; lia).
  assert (Hl : 2 ^ l = 2 ^ 52 * 2 ^ sh).
  { rewrite <- Z.pow_add_r by lia. f_equal. unfold sh. lia. }
  assert (Hsl : 2 ^ Z.succ l = 2 ^ 53 * 2 ^ sh).
  { rewrite <- Z.pow_add_r by lia. f_equal. unfold sh. lia. }
  pose proof (round_half_even_bounds n (2 ^ sh) ltac:(lia) Hd) as [Hlo Hhi].
  assert (Hq1 : 2 ^ 52 <= n / 2 ^ sh).
  { apply Z.div_le_lower_bound; lia. }
  assert (Hq2 : n / 2 ^ sh < 2 ^ 53).
  { apply Z.div_lt_upper_bound; lia. }
  set (m := round_half_even n (2 ^ sh)) in *.
  assert (Hmv : 1 <= m * 2 ^ sh) by nia.
  assert (Hov : m * 2 ^ sh < 2 ^ 1024).
  { assert (Hl1024 : l < 1024).
    { apply Z.log2_lt_pow2; [lia|]. lia. }
    destruct (Z.eq_dec l 1023) as [El|Nl].
    - (* the top binade: the threshold keeps the rounding below 2^53 *)
      assert (Esh : sh = 971) by (unfold sh; lia).
      assert (Hm : m <= 2 ^ 53 - 1).
      { destruct (Z.eq_dec (n / 2 ^ sh) (2 ^ 53 - 1)) as [Eq|Nq]; [|lia].
        unfold m. rewrite round_half_even_below_half; [lia|].
        pose proof (Z.div_mod n (2 ^ sh) ltac:(lia)) as Hdm.
        rewrite Eq in Hdm.
        assert (H970 : 2 ^ sh = 2 * 2 ^ 970).
        { rewrite Esh. change 971 with (Z.succ 970). rewrite Z.pow_succ_r; lia. }
        assert (H1024 : 2 ^ 1024 = 2 ^ 53 * 2 ^ sh).
        { rewrite Esh, <- Z.pow_add_r by lia. reflexivity. }
        nia. }
      assert (H1024 : 2 ^ 1024 = 2 ^ 53 * 2 ^ sh).
      { rewrite Esh, <- Z.pow_add_r by lia. reflexivity. }
      nia.
    - assert (Hle : 2 ^ Z.succ l <= 2 ^ 1023) by (apply Z.pow_le_mono_r; lia).
      assert (H23 : 2 ^ 1023 < 2 ^ 1024) by (apply Z.pow_lt_mono_r; lia).
      nia. }
  exists (m * 2 ^ sh). split; [|exact Hmv].
  destruct (Z.leb_spec (2 ^ 1024) (m * 2 ^ sh)); [lia | reflexivity].
Qed.

Lemma float_of_int_defined (n : Z) :
  1 <= n < 2 ^ 1024 - 2 ^ 970 ->
  exists s, float_of_int n = Some s /\ (1 <= s)%Q
            /\ (n <= 2 ^ 53 -> s = inject_Z n).
Proof.
  intros Hn. unfold float_of_int.
  destruct (Z.ltb_spec n 0) as [|_]; [lia|].
  destruct (float_of_nonneg_defined n Hn) as (v & Hv & H1).
  rewrite Hv. exists (inject_Z v). split; [reflexivity|]. split.
  - unfold Qle. simpl. lia.
  - intros H53. rewrite float_of_nonneg_exact in Hv by lia. congruence.
Qed.

Lemma lit_0_001_below_one : (lit_0_001 < 1)%Q.
Proof. reflexivity. Qed.

(** The literal is the binary64 value nearest to one thousandth: it is
    within half a unit in the last place (2^-63) of it. *)
Lemma lit_0_001_nearest :
  ((1 # 1000) - (1 # 9223372036854775808) <= lit_0_001)%Q
  /\ (lit_0_001 <= (1 # 1000) + (1 # 9223372036854775808))%Q.
Proof. split; apply Qle_bool_iff; vm_compute; reflexivity. Qed.

(** C3 (as amended).  For every integer byte length below the overflow
    threshold of int-to-float conversion, that is with
    [2500 - byte_length < 2^1024 - 2^970] (every non-negative byte count
    is): the score of a failed solver is the float 0.001 whatever the byte
    length; the score of a passing one is [max(1, 2500 - byte_length)]
    converted to a float, exactly that integer whenever it is at most
    2^53; it is at least 1 and strictly above any failed score; a length
    of 100 gives 2400.0 and a length of 3000 gives 1.0. *)
Theorem score_for_length_spec (byte_length : Z) :
  2500 - byte_length < 2 ^ 1024 - 2 ^ 970 ->
  score_for_length byte_length false = Some lit_0_001
  /\ (exists s,
        score_for_length byte_length true = Some s
        /\ float_of_int (Z.max 1 (2500 - byte_length)) = Some s
        /\ (2500 - byte_length <= 2 ^ 53 ->
            s = inject_Z (Z.max 1 (2500 - byte_length)))
        /\ (1 <= s)%Q
        /\ (forall other t, score_for_length other false = Some t -> (t < s)%Q))
  /\ score_for_length 100 true = Some (inject_Z 2400)
  /\ score_for_length 3000 true = Some (inject_Z 1).
Proof.
  intros Hlt. split; [reflexivity|]. split; [|split; reflexivity].
  assert (Hbase : (if 1 <? 2500 - byte_length then 2500 - byte_length else 1)
                  = Z.max 1 (2500 - byte_length)).
  { destruct (Z.ltb_spec 1 (2500 - byte_length)); lia. }
  destruct (float_of_int_defined (Z.max 1 (2500 - byte_length))) as (s & Hs & H1 & Hex).
  { assert (1 < 2 ^ 1024 - 2 ^ 970) by (vm_compute; reflexivity). lia. }
  exists s. unfold score_for_length. cbn [negb]. rewrite Hbase.
  repeat split; try assumption.
  - intros H53. apply Hex. assert (1 <= 2 ^ 53) by (vm_compute; discriminate). lia.
  - intros other t Ht. cbn in Ht. injection Ht as <-.
    eapply Qlt_le_trans; [apply lit_0_001_below_one | exact H1].
Qed.

(** C3, witness: a solver of 100 bytes. *)
Lemma score_for_length_spec_witness :
  score_for_length 100 false = Some lit_0_001
  /\ (exists s,
        score_for_length 100 true = Some s
        /\ float_of_int (Z.max 1 (2500 - 100)) = Some s
        /\ (2500 - 100 <= 2 ^ 53 -> s = inject_Z (Z.max 1 (2500 - 100)))
        /\ (1 <= s)%Q
        /\ (forall other t, score_for_length other false = Some t -> (t < s)%Q))
  /\ score_for_length 100 true = Some (inject_Z 2400)
  /\ score_for_length 3000 true = Some (inject_Z 1).
Proof. apply (score_for_length_spec 100). vm_compute. reflexivity. Defined.

(** C3, counterexample to the statement for every integer: for the
    byte length [2500 - 2^1024] the conversion to float overflows and no
    score is produced. *)
Lemma score_for_length_overflow :
  ~ (exists s, score_for_length (2500 - 2 ^ 1024) true = Some s /\ (1 <= s)%Q).
Proof. intros (s & Hs & _). vm_compute in Hs. discriminate. Qed.

End ScoreFacts.

(** ** The model on concrete inputs *)

Module ModelChecks.
Import Text Json Numpy Loader Store Evaluator.

Example dumps_mixed :
  dumps (PList [PList [PInt 1; PBool true; PFloat (FDec false 1 0)];
                PTuple [PInt (-12); PNone]])
  = Some (lit "[[1, true, 1.0], [-12, null]]").
Proof. reflexivity. Qed.

Example dumps_object : dumps (PList [PInt 1; PObject]) = None.
Proof. reflexivity. Qed.

Example floatstr_samples :
  map floatstr [FDec false 15 (-1); FDec false 1 15; FDec false 1 16;
                FDec false 1 (-4); FDec false 1 (-5); FDec true 0 0;
                FDec false 12345 20]
  = map lit ["1.5"; "1000000000000000.0"; "1e+16"; "0.0001"; "1e-05"; "-0.0";
             "1.2345e+24"]%string.
Proof. reflexivity. Qed.

Example replace_sample :
  replace (lit "true") (lit "1") (lit "[true, truetrue, tru, ttrue]")
  = lit "[1, 11, tru, t1]".
Proof. reflexivity. Qed.

Example loads_samples :
  map (fun s => loads (lit s))
      ["[[1, 2], [3, 4]]"; " [ 1.50 ,[] , [0] ]  "; "[01]"; "[1.]"; "[1,]"; "12";
       "[[1,2]"; "[.5]"; "[1 2]"; "0.0"; "1]"; ""]%string
  = [Some (JList [JList [JInt 1; JInt 2]; JList [JInt 3; JInt 4]]);
     Some (JList [JFloat 150 (-2); JList []; JList [JInt 0]]);
     None; None; None; Some (JInt 12); None; None; None;
     Some (JFloat 0 (-1)); None; None].
Proof. reflexivity. Qed.

(** Shapes as numpy finds them: rectangular, ragged, empty, scalar. *)
Example array_samples :
  map (fun v => shape (array v))
      [JList [JList [JInt 1; JInt 2]; JList [JInt 3; JInt 4]];
       JList [JList [JInt 1; JInt 2]; JList [JInt 3]];
       JList []; JList [JList []; JList []];
       JList [JInt 1; JList [JInt 2]]; JInt 5]
  = [[2; 2]; [2]; [0]; [2; 0]; [2]; []]%nat.
Proof. reflexivity. Qed.

Example tolist_sample :
  let v := JList [JList [JList [JInt 1; JInt 2]; JList [JInt 3; JInt 4]];
                  JList [JList [JInt 5]; JList [JInt 6]]] in
  tolist (shape (array v)) (elems (array v)) = v.
Proof. reflexivity. Qed.

(** Booleans become 1 and 0; a negative number, a string, [None] are
    rejected by the character check; a set is rejected by the encoder. *)
Example sanitize_samples :
  sanitize (PList [PList [PBool true; PBool false]])
  = inr (mk_ndarray [1; 2]%nat [JInt 1; JInt 0])
  /\ sanitize (PList [PInt (-1)]) = inl (InvalidOutput (lit "[-1]"))
  /\ sanitize (PList [PNone]) = inl (InvalidOutput (lit "[null]"))
  /\ sanitize (PList [PObject]) = inl NotSerializable
  /\ sanitize (PInt 5) = inr (mk_ndarray [] [JInt 5]).
Proof. repeat split. Qed.

Example task_id_samples :
  map _task_id_str [0; 1; 12; 123; 1234; -1]
  = map lit ["000"; "001"; "012"; "123"; "1234"; "-01"]%string.
Proof. reflexivity. Qed.

Example path_samples :
  basename (lit "runs/a/submission") = lit "submission"
  /\ basename (lit "a/") = []
  /\ path_join (lit "a") (lit "t.py") = lit "a/t.py"
  /\ path_join (lit "a/") (lit "t.py") = lit "a/t.py"
  /\ path_join [] (lit "t.py") = lit "t.py".
Proof. repeat split. Qed.

Example float_of_int_samples :
  Score.float_of_int (2 ^ 53 + 1) = Some (inject_Z (2 ^ 53))
  /\ Score.float_of_int (2 ^ 53 + 3) = Some (inject_Z (2 ^ 53 + 4))
  /\ Score.float_of_int (2 ^ 1024 - 2 ^ 970 - 1) = Some (inject_Z (2 ^ 1024 - 2 ^ 971))
  /\ Score.float_of_int (2 ^ 1024 - 2 ^ 970) = None.
Proof. repeat split; vm_compute; reflexivity. Qed.

End ModelChecks.

(** ** Decimal numerals *)

Module TextFacts.
Import Text.
Local Open Scope N_scope.

Lemma digit_val_digit_char (d : N) : d < 10 -> digit_val (digit_char d) = d.
Proof.
  intros H. unfold digit_val, digit_char.
  rewrite N_ascii_embedding by lia. lia.
Qed.

Lemma is_digit_digit_char (d : N) : d < 10 -> is_digit (digit_char d) = true.
Proof.
  intros H. unfold is_digit, digit_char.
  rewrite N_ascii_embedding by lia.
  apply andb_true_intro. split; apply N.leb_le; lia.
Qed.

Lemma digit_char_zero (d : N) : d < 10 -> digit_char d = "0"%char -> d = 0.
Proof.
  intros H E. apply (f_equal N_of_ascii) in E. unfold digit_char in E.
  rewrite N_ascii_embedding in E by lia. cbn in E. lia.
Qed.

(** Reading digits is a left fold: a prefix read first shifts left. *)
Lemma digits_val_shift (s : text) (a : N) :
  digits_val a s = a * 10 ^ N.of_nat (length s) + digits_val 0 s.
Proof.
  revert a. induction s as [|c s IH]; intros a.
  - cbn. lia.
  - cbn [digits_val length]. rewrite IH, (IH (10 * 0 + digit_val c)).
    rewrite Nat2N.inj_succ, N.pow_succ_r'. lia.
Qed.

Lemma digits_val_app (s t : text) (a : N) :
  digits_val a (s ++ t) = digits_val (digits_val a s) t.
Proof. revert a. induction s as [|c s IH]; intros a; cbn; [reflexivity | apply IH]. Qed.

(** The digits are pushed in front of the accumulator. *)
Lemma digits_acc_app (fuel : nat) (n : N) (acc : text) :
  digits_acc fuel n acc = digits_acc fuel n [] ++ acc.
Proof.
  revert n acc. induction fuel as [|f IH]; intros n acc; [reflexivity|].
  cbn [digits_acc]. destruct (n <? 10); [reflexivity|].
  rewrite IH, (IH _ [_]), <- app_assoc. reflexivity.
Qed.

Lemma digits_acc_val (fuel : nat) (n : N) :
  n < 10 ^ N.of_nat fuel -> digits_val 0 (digits_acc fuel n []) = n.
Proof.
  revert n. induction fuel as [|f IH]; intros n Hn.
  - cbn in *. lia.
  - cbn [digits_acc]. destruct (N.ltb_spec n 10) as [Hlt|Hge].
    + cbn. rewrite digit_val_digit_char by (apply N.mod_lt; lia).
      rewrite N.mod_small by lia. lia.
    + rewrite digits_acc_app, digits_val_app, IH.
      * cbn. rewrite digit_val_digit_char by (apply N.mod_lt; lia).
        pose proof (N.div_mod n 10 ltac:(lia)). lia.
      * rewrite Nat2N.inj_succ, N.pow_succ_r' in Hn.
        apply N.Div0.div_lt_upper_bound; lia.
Qed.

Lemma digits_acc_all_digits (fuel : nat) (n : N) :
  forallb is_digit (digits_acc fuel n []) = true.
Proof.
  revert n. induction fuel as [|f IH]; intros n; [reflexivity|].
  cbn [digits_acc]. destruct (n <? 10).
  - cbn. rewrite is_digit_digit_char by (apply N.mod_lt; lia). reflexivity.
  - rewrite digits_acc_app, forallb_app, IH. cbn.
    rewrite is_digit_digit_char by (apply N.mod_lt; lia). reflexivity.
Qed.

(** A positive number starts with a non-zero digit. *)
Lemma digits_acc_head (fuel : nat) (n : N) :
  0 < n -> n < 10 ^ N.of_nat fuel ->
  exists c rest, digits_acc fuel n [] = c :: rest /\ c <> "0"%char
                 /\ is_digit c = true.
Proof.
  revert n. induction fuel as [|f IH]; intros n Hpos Hn.
  - cbn in Hn. lia.
  - cbn [digits_acc]. destruct (N.ltb_spec n 10) as [Hlt|Hge].
    + exists (digit_char (n mod 10)), []. split; [reflexivity|].
      rewrite N.mod_small by lia. split.
      * intros E. apply digit_char_zero in E; lia.
      * apply is_digit_digit_char; lia.
    + rewrite digits_acc_app.
      destruct (IH (n / 10)) as (c & rest & E & Hc & Hd).
      * apply N.div_str_pos. lia.
      * rewrite Nat2N.inj_succ, N.pow_succ_r' in Hn.
        apply N.Div0.div_lt_upper_bound; lia.
      * rewrite E. exists c, (rest ++ [digit_char (n mod 10)]).
        split; [reflexivity | split; assumption].
Qed.

(** The fuel [str_N] gives itself is enough. *)
Lemma str_N_fuel (n : N) : n < 10 ^ N.of_nat (S (N.to_nat (N.log2 n))).
Proof.
  rewrite Nat2N.inj_succ, N2Nat.id.
  destruct (N.eq_dec n 0) as [->|Hne]; [cbn; lia|].
  pose proof (N.log2_spec n ltac:(lia)) as [_ Hlt].
  eapply N.lt_le_trans; [exact Hlt|].
  apply N.pow_le_mono_l. lia.
Qed.

Lemma str_N_val (n : N) : digits_val 0 (str_N n) = n.
Proof. apply digits_acc_val, str_N_fuel. Qed.

Lemma str_N_all_digits (n : N) : forallb is_digit (str_N n) = true.
Proof. apply digits_acc_all_digits. Qed.

Lemma str_N_zero : str_N 0 = ["0"%char].
Proof. reflexivity. Qed.

Lemma str_N_head (n : N) :
  0 < n ->
  exists c rest, str_N n = c :: rest /\ c <> "0"%char /\ is_digit c = true.
Proof. intros H. apply digits_acc_head; [exact H | apply str_N_fuel]. Qed.

Lemma str_N_nonempty (n : N) : str_N n <> [].
Proof.
  destruct (N.eq_dec n 0) as [->|Hne]; [discriminate|].
  destruct (str_N_head n ltac:(lia)) as (c & rest & E & _). rewrite E. discriminate.
Qed.

Lemma str_N_inj (a b : N) : str_N a = str_N b -> a = b.
Proof. intros E. rewrite <- (str_N_val a), <- (str_N_val b), E. reflexivity. Qed.

Lemma digits_val_zeros_after (ds : text) (k : nat) :
  digits_val 0 (ds ++ replicate k "0"%char) = digits_val 0 ds * 10 ^ N.of_nat k.
Proof.
  rewrite digits_val_app, digits_val_shift, length_replicate.
  assert (Hz : digits_val 0 (replicate k "0"%char) = 0).
  { induction k as [|k IH]; [reflexivity | exact IH]. }
  rewrite Hz. lia.
Qed.

(** A numeral without leading zero is at least the power of ten of its
    length. *)
Lemma str_N_lower_bound (n : N) :
  0 < n -> 10 ^ N.of_nat (length (str_N n) - 1) <= n.
Proof.
  intros Hpos. destruct (str_N_head n Hpos) as (c & rest & E & Hc & Hd).
  rewrite <- (str_N_val n) at 2. rewrite E. cbn [length digits_val].
  rewrite digits_val_shift. replace (S (length rest) - 1)%nat with (length rest) by lia.
  assert (1 <= digit_val c).
  { unfold digit_val. unfold is_digit in Hd. apply andb_prop in Hd as [H1 H2].
    apply N.leb_le in H1, H2.
    assert (N_of_ascii c <> 48).
    { intros E48. apply Hc. rewrite <- (ascii_N_embedding c), E48. reflexivity. }
    lia. }
  nia.
Qed.

Lemma drop_while_zeros (l : text) :
  exists k, l = replicate k "0"%char
                ++ drop_while (fun c => Ascii.eqb c "0"%char) l.
Proof.
  induction l as [|c l (k & IH)]; [exists 0%nat; reflexivity|].
  cbn [drop_while]. destruct (Ascii.eqb_spec c "0"%char) as [->|].
  - exists (S k). cbn [replicate app]. f_equal. exact IH.
  - exists 0%nat. reflexivity.
Qed.

Lemma rev_replicate (k : nat) (c : ascii) : rev (replicate k c) = replicate k c.
Proof.
  induction k as [|k IH]; [reflexivity|]. cbn [replicate rev]. rewrite IH.
  clear IH. induction k as [|k IH]; [reflexivity|]. cbn. f_equal. exact IH.
Qed.

(** Dropping the trailing zeros of a numeral removes zeros only. *)
Lemma strip_trailing_zeros_spec (ds : text) :
  exists k, ds = Json.strip_trailing_zeros ds ++ replicate k "0"%char.
Proof.
  unfold Json.strip_trailing_zeros.
  destruct (drop_while_zeros (rev ds)) as (k & E). exists k.
  rewrite <- (rev_involutive ds) at 1. rewrite E at 1.
  rewrite rev_app_distr, rev_replicate. reflexivity.
Qed.

End TextFacts.

(** ** The scanner never lacks fuel *)

Module ScannerFacts.
Import Text Json.

Lemma skip_ws_length (s : text) : (length (skip_ws s) <= length s)%nat.
Proof.
  unfold skip_ws. induction s as [|c s IH]; cbn; [lia|].
  destruct (is_json_ws c); cbn; lia.
Qed.

Lemma span_digits_length (s ds r : text) :
  span_digits s = (ds, r) -> length s = (length ds + length r)%nat.
Proof.
  revert ds r. induction s as [|c s IH]; intros ds r E; cbn in E.
  - injection E as <- <-. reflexivity.
  - destruct (is_digit c).
    + destruct (span_digits s) as [ds' r'] eqn:Es. injection E as <- <-.
      cbn. rewrite (IH ds' r' eq_refl). reflexivity.
    + injection E as <- <-. reflexivity.
Qed.

(** A number takes at least one character. *)
Lemma parse_number_consumes (s : text) (v : jsonval) (rest : text) :
  parse_number s = Some (v, rest) -> (length rest < length s)%nat.
Proof.
  unfold parse_number. destruct s as [|c s']; [discriminate|].
  destruct (is_digit c) eqn:Hc; [|discriminate].
  assert (Hip : forall ip r1,
             (if Ascii.eqb c "0"%char then ([c], s') else span_digits (c :: s'))
             = (ip, r1) -> (length r1 < length (c :: s'))%nat).
  { intros ip r1 E. destruct (Ascii.eqb c "0"%char).
    - injection E as <- <-. cbn. lia.
    - pose proof (span_digits_length _ _ _ E) as Hl.
      cbn [span_digits] in E. rewrite Hc in E.
      destruct (span_digits s') as [ds' r']. injection E as <- <-.
      cbn in Hl |- *. lia. }
  destruct (if Ascii.eqb c "0"%char then ([c], s') else span_digits (c :: s'))
    as [ip r1] eqn:Eip.
  specialize (Hip ip r1 eq_refl).
  destruct r1 as [|c1 r2]; [intros [= <- <-]; exact Hip|].
  destruct (Ascii.eqb c1 "."%char); [|intros [= <- <-]; exact Hip].
  destruct (span_digits r2) as [fp r3] eqn:Ef.
  pose proof (span_digits_length _ _ _ Ef) as Hl.
  destruct fp; intros [= <- <-]; cbn in *; lia.
Qed.

(** Whatever fuel lets the scanner read a value, the number of
    characters it reads is fuel enough. *)
Lemma parse_fuel (fuel : nat) :
  (forall s v rest,
      parse_value fuel s = Some (v, rest) ->
      (length rest < length s)%nat
      /\ forall f, (length s - length rest <= f)%nat ->
                   parse_value f s = Some (v, rest))
  /\ (forall s vs rest,
         parse_items fuel s = Some (vs, rest) ->
         (length rest < length s)%nat
         /\ forall f, (length s - length rest <= f)%nat ->
                      parse_items f s = Some (vs, rest)).
Proof.
  induction fuel as [|fuel [IHv IHi]]; [split; discriminate|]. split.
  - intros s v rest. cbn [parse_value].
    destruct s as [|c r]; [discriminate|].
    destruct (Ascii.eqb c "["%char) eqn:Hc.
    + pose proof (skip_ws_length r) as Hws.
      destruct (skip_ws r) as [|c' r'] eqn:Esk; [discriminate|].
      destruct (Ascii.eqb c' "]"%char) eqn:Hc'.
      * intros [= <- <-]. cbn [length] in *. split; [lia|].
        intros [|f] Hf; [lia|]. cbn [parse_value]. rewrite Hc, Esk, Hc'. reflexivity.
      * destruct (parse_items fuel (c' :: r')) as [[vs rest']|] eqn:Ei; [|discriminate].
        intros [= <- <-]. destruct (IHi _ _ _ Ei) as [Hlt Hf']. cbn [length] in *.
        split; [lia|].
        intros [|f] Hf; [lia|]. cbn [parse_value]. rewrite Hc, Esk, Hc'.
        rewrite Hf' by (cbn [length]; lia). reflexivity.
    + intros E. pose proof (parse_number_consumes _ _ _ E) as Hlt.
      split; [exact Hlt|].
      intros [|f] Hf; [lia|]. cbn [parse_value]. rewrite Hc. exact E.
  - intros s vs rest. cbn [parse_items].
    destruct (parse_value fuel s) as [[v r]|] eqn:Ev; [|discriminate].
    destruct (IHv _ _ _ Ev) as [Hr Hfv].
    pose proof (skip_ws_length r) as Hws.
    destruct (skip_ws r) as [|c r'] eqn:Esk; [discriminate|]. cbn [length] in Hws.
    destruct (Ascii.eqb c ","%char) eqn:Hc.
    + pose proof (skip_ws_length r') as Hws'.
      destruct (parse_items fuel (skip_ws r')) as [[vs' rest']|] eqn:Ei; [|discriminate].
      intros [= <- <-]. destruct (IHi _ _ _ Ei) as [Hlt Hfi].
      split; [lia|].
      intros [|f] Hf; [lia|]. cbn [parse_items].
      rewrite Hfv by lia. rewrite Esk, Hc. rewrite Hfi by lia. reflexivity.
    + destruct (Ascii.eqb c "]"%char) eqn:Hc'; [|discriminate].
      intros [= <- <-]. split; [lia|].
      intros [|f] Hf; [lia|]. cbn [parse_items].
      rewrite Hfv by lia. rewrite Esk, Hc, Hc'. reflexivity.
Qed.

(** The fuel [loads] gives the scanner is enough for every text: a
    value read with any fuel is read with that fuel. *)
Theorem loads_fuel_adequate (s : text) (fuel : nat) (v : jsonval) (rest : text) :
  parse_value fuel (skip_ws s) = Some (v, rest) ->
  parse_value (S (length s)) (skip_ws s) = Some (v, rest).
Proof.
  intros E. destruct (proj1 (parse_fuel fuel) _ _ _ E) as [_ Hf].
  apply Hf. pose proof (skip_ws_length s). lia.
Qed.

End ScannerFacts.

(** ** Module names given to loaded solvers *)

Module ImportFacts.
Import Text TextFacts Loader Store Evaluator Import_.

Lemma digits_val_zeros (k : nat) (a : N) :
  (a = 0)%N -> digits_val a (replicate k "0"%char) = 0%N.
Proof.
  intros ->. induction k as [|k IH]; [reflexivity|]. cbn. exact IH.
Qed.

Lemma padded_val (k : nat) (n : N) :
  digits_val 0 (replicate k "0"%char ++ str_N n) = n.
Proof.
  rewrite digits_val_app, digits_val_zeros by reflexivity. apply str_N_val.
Qed.

Lemma padded_head_not_minus (k : nat) (n : N) (s : text) :
  replicate k "0"%char ++ str_N n <> "-"%char :: s.
Proof.
  destruct k as [|k]; cbn [replicate app].
  - intros E. pose proof (str_N_all_digits n) as Hd. rewrite E in Hd.
    cbn in Hd. discriminate.
  - discriminate.
Qed.

(** Distinct task ids have distinct zero-padded numerals. *)
Lemma _task_id_str_inj (a b : Z) : _task_id_str a = _task_id_str b -> a = b.
Proof.
  unfold _task_id_str, format_03d.
  destruct (Z.ltb_spec a 0) as [Ha|Ha], (Z.ltb_spec b 0) as [Hb|Hb]; intros E.
  - injection E as E. apply (f_equal (digits_val 0)) in E.
    rewrite !padded_val in E. lia.
  - symmetry in E. apply padded_head_not_minus in E. contradiction.
  - apply padded_head_not_minus in E. contradiction.
  - apply (f_equal (digits_val 0)) in E. rewrite !padded_val in E. lia.
Qed.

Lemma is_digit_not_underscore (c : ascii) : is_digit c = true -> c <> "_"%char.
Proof. intros H ->. discriminate. Qed.

(** A task id numeral has no underscore in it. *)
Lemma _task_id_str_no_underscore (a : Z) : "_"%char ∉ _task_id_str a.
Proof.
  assert (Hbody : forall k n, "_"%char ∉ replicate k "0"%char ++ str_N n).
  { intros k n Hin. apply elem_of_app in Hin as [Hin|Hin].
    - apply elem_of_replicate in Hin as [E _]. discriminate.
    - pose proof (str_N_all_digits n) as Hd.
      rewrite forallb_forall in Hd. apply list_elem_of_In in Hin.
      apply Hd in Hin. discriminate. }
  unfold _task_id_str, format_03d. destruct (a <? 0).
  - intros Hin. apply elem_of_cons in Hin as [E|Hin]; [discriminate|].
    exact (Hbody _ _ Hin).
  - apply Hbody.
Qed.

(** Two texts cut at a separator that occurs in neither first part
    agree part by part. *)
Lemma app_sep_inj (c : ascii) (s t x y : text) :
  c ∉ s -> c ∉ t -> s ++ c :: x = t ++ c :: y -> s = t /\ x = y.
Proof.
  revert t. induction s as [|a s IH]; intros [|b t] Hs Ht E; cbn in E.
  - injection E as ->. split; reflexivity.
  - injection E as <- _. exfalso. apply Ht. left.
  - injection E as -> _. exfalso. apply Hs. left.
  - injection E as -> E. apply not_elem_of_cons in Hs as [_ Hs].
    apply not_elem_of_cons in Ht as [_ Ht].
    destruct (IH t Hs Ht E) as [-> ->]. split; reflexivity.
Qed.

(** The module name of [_import_solver_from] determines the last
    component of the folder and the task id, and nothing more. *)
Lemma mod_name_from_eq (d1 d2 : text) (t1 t2 : Z) :
  mod_name_from d1 t1 = mod_name_from d2 t2
  <-> basename d1 = basename d2 /\ t1 = t2.
Proof.
  split.
  - unfold mod_name_from. intros E. apply app_inv_head in E.
    apply (f_equal (@rev ascii)) in E.
    rewrite !rev_app_distr in E. cbn [rev] in E.
    rewrite <- !app_assoc in E. cbn [app] in E.
    apply app_sep_inj in E.
    + destruct E as [E1 E2]. apply (f_equal (@rev ascii)) in E1, E2.
      rewrite !rev_involutive in E1, E2.
      split; [exact E2 | apply _task_id_str_inj, E1].
    + rewrite list_elem_of_In, <- in_rev, <- list_elem_of_In.
      apply _task_id_str_no_underscore.
    + rewrite list_elem_of_In, <- in_rev, <- list_elem_of_In.
      apply _task_id_str_no_underscore.
  - intros [E ->]. unfold mod_name_from. rewrite E. reflexivity.
Qed.

Lemma mod_name_eq (t1 t2 : Z) : mod_name t1 = mod_name t2 <-> t1 = t2.
Proof.
  split; [|intros ->; reflexivity].
  unfold mod_name. intros E. apply app_inv_head in E.
  apply _task_id_str_inj, E.
Qed.

Lemma import_at_registry (name file_path : text) (fs : filesystem) (mods : registry) :
  is_Some (fs file_path) ->
  (import_at name file_path fs mods).2 = <[name := file_path]> mods.
Proof.
  intros [art E]. unfold import_at. rewrite E.
  destruct (exec_module art) as [e|[[p|]|]]; reflexivity.
Qed.

Lemma import_at_registry_other (name name' file_path : text) (fs : filesystem)
    (mods : registry) :
  name <> name' ->
  (import_at name file_path fs mods).2 !! name' = mods !! name'.
Proof.
  intros Hne. unfold import_at. destruct (fs file_path) as [art|]; [|reflexivity].
  destruct (exec_module art) as [e|[[p|]|]]; cbn; apply lookup_insert_ne, Hne.
Qed.

(** What a load returns does not depend on the registry. *)
Lemma import_at_result (name file_path : text) (fs : filesystem) (mods mods' : registry) :
  (import_at name file_path fs mods).1 = (import_at name file_path fs mods').1.
Proof.
  unfold import_at. destruct (fs file_path) as [art|]; [|reflexivity].
  destruct (exec_module art) as [e|[[p|]|]]; reflexivity.
Qed.

(** C7 (as amended).  The module name a load is registered under is made
    from the last path component of the source folder and the zero-padded
    task id ([_import_solver_from]), or from the task id alone
    ([_import_solver], whose folder is fixed): two loads get the same name
    exactly when those agree.  So two loads that differ in the last
    component of their folder or in their task id never overwrite each
    other's entry: after both, the name of the first still designates the
    first file.  In any case what a load returns is made from its own
    file and does not depend on what was registered before. *)
Theorem module_name_identity (d1 d2 : text) (t1 t2 : Z) :
  (mod_name_from d1 t1 = mod_name_from d2 t2
     <-> basename d1 = basename d2 /\ t1 = t2)
  /\ (mod_name t1 = mod_name t2 <-> t1 = t2)
  /\ (forall (fs : filesystem) (mods : registry),
        (basename d1, t1) <> (basename d2, t2) ->
        is_Some (fs (path_join d1 (solver_file_name t1))) ->
        (_import_solver_from d2 t2 fs
           (_import_solver_from d1 t1 fs mods).2).2 !! mod_name_from d1 t1
        = Some (path_join d1 (solver_file_name t1)))
  /\ (forall (fs : filesystem) (mods mods' : registry),
        (_import_solver_from d1 t1 fs mods).1 = (_import_solver_from d1 t1 fs mods').1
        /\ (_import_solver d1 t1 fs mods).1 = (_import_solver d1 t1 fs mods').1).
Proof.
  split; [apply mod_name_from_eq|]. split; [apply mod_name_eq|]. split.
  - intros fs mods Hne Hfile. unfold _import_solver_from.
    rewrite import_at_registry_other.
    + rewrite import_at_registry by exact Hfile. apply lookup_insert_eq.
    + intros E. apply mod_name_from_eq in E as [E1 E2]. apply Hne. congruence.
  - intros fs mods mods'. split; apply import_at_result.
Qed.

(** C7, counterexample to the statement for every pair of folders:
    two different folders with the same last component, each with a
    solver of task 1, are given the same module name, and the second
    load replaces the entry of the first. *)
Lemma module_name_collision :
  (Examples.dir_a, 1) <> (Examples.dir_b, 1)
  /\ mod_name_from Examples.dir_a 1 = mod_name_from Examples.dir_b 1
  /\ (_import_solver_from Examples.dir_b 1 Examples.two_folders
        (_import_solver_from Examples.dir_a 1 Examples.two_folders ∅).2).2
       !! mod_name_from Examples.dir_a 1
     = Some (lit "runs/b/submission/task001.py").
Proof.
  split; [discriminate|]. split; [reflexivity|].
  unfold _import_solver_from.
  rewrite !import_at_registry by (vm_compute; eauto).
  replace (mod_name_from Examples.dir_b 1) with (mod_name_from Examples.dir_a 1)
    by reflexivity.
  rewrite lookup_insert_eq. reflexivity.
Qed.

End ImportFacts.

(** ** Records of missing solvers *)

Module ReportFacts.
Import Text Loader Store Evaluator Import_ Report.

(** [eval_all._eval_one] on a task whose solver file is absent: the
    default record, whose fail counts are the numbers of example pairs
    of the task, and nothing else is touched. *)
Lemma eval_all_missing_default (submission_dir : text) (task_id : Z)
    (tjson : task pair) (fs : filesystem) (mods : registry) (h : heap) :
  EvalAll._eval_one submission_dir task_id false tjson fs mods h
  = (inr (mk_meta false 0 Score.lit_0_001 false
            (0%nat, length (t_train tjson ++ t_test tjson))
            (0%nat, length (t_arc_gen tjson)) []),
     mods, h).
Proof. reflexivity. Qed.

(** [compare_solutions._eval_one] on a folder where the solver file is
    absent returns before the task is looked at: both fail counts
    are zero whatever the task holds. *)
Lemma compare_missing_default (src_dir : text) (task_id : Z)
    (tjson : task pair) (fs : filesystem) (mods : registry) (h : heap) :
  fs (path_join src_dir (solver_file_name task_id)) = None ->
  CompareSolutions._eval_one src_dir task_id tjson fs mods h
  = (inr (mk_meta false 0 Score.lit_0_001 false (0%nat, 0%nat) (0%nat, 0%nat) []),
     mods, h).
Proof. intros E. unfold CompareSolutions._eval_one. rewrite E. reflexivity. Qed.

(** C8, the code at the failing input: the built-in task 0 has one
    example pair, no solver file exists; [eval_all] records one failed
    pair for the split, [compare_solutions] records none. *)
Theorem missing_solver_fail_counts :
  let '(h, tjson) := Examples.task_zero_store in
  length (t_train tjson ++ t_test tjson) = 1%nat
  /\ (exists m, (EvalAll._eval_one (lit "submission") 0 false tjson
                   Examples.no_files ∅ h).1.1 = inr m
                /\ exists_ m = false /\ arc_agi m = (0%nat, 1%nat))
  /\ (exists m, (CompareSolutions._eval_one (lit "submission") 0 tjson
                   Examples.no_files ∅ h).1.1 = inr m
                /\ exists_ m = false /\ arc_agi m = (0%nat, 0%nat)).
Proof.
  destruct Examples.task_zero_store as [h tjson] eqn:E.
  vm_compute in E. injection E as <- <-.
  split; [reflexivity|]. split; eexists; (split; [reflexivity|]); split; reflexivity.
Qed.

End ReportFacts.

(** ** The verifier: counting and the failure boundary *)

Module VerifierFacts.
Import Text Json Numpy Store Evaluator.

Lemma format_exc_nonempty (e : exn) : format_exc e <> [].
Proof. discriminate. Qed.

Lemma sanitize_raises_exceptions (result : pyval) (e : exn) :
  sanitize result = inl e -> is_Exception e = true.
Proof.
  unfold sanitize. destruct (dumps result) as [d|]; [|intros [= <-]; reflexivity].
  destruct (_UNSAFE_CHARS_RE_search _); [intros [= <-]; reflexivity|].
  destruct (loads _); [discriminate | intros [= <-]; reflexivity].
Qed.

(** The cases of one iteration: what [_run_and_sanitize] gave, then
    the test of the branch taken. *)
Ltac loop_body_cases :=
  unfold loop_body;
  repeat match goal with
    | |- context [match _run_and_sanitize ?p ?a ?h with _ => _ end] =>
        let Er := fresh "Er" in
        destruct (_run_and_sanitize p a h) as [[?e|?arr] ?h1] eqn:Er
    | |- context [if is_Exception ?e then _ else _] =>
        let Ee := fresh "Ee" in destruct (is_Exception e) eqn:Ee
    | |- context [if arrays_match ?a ?b then _ else _] =>
        let Em := fresh "Em" in destruct (arrays_match a b) eqn:Em
    end.

Section Loop.

Variable program : solver.

(** What [_run_and_sanitize] raises comes from the solver or is an
    [Exception] of the sanitizing steps. *)
Lemma run_and_sanitize_error (a : loc) (h h' : heap) (e : exn) :
  _run_and_sanitize program a h = (inl e, h') ->
  is_Exception e = true
  \/ exists h1 g, deepcopy h a = (h1, g) /\ program h1 g = (Raised e, h').
Proof.
  unfold _run_and_sanitize. destruct (deepcopy h a) as [h1 g].
  destruct (program h1 g) as [[result|e'] h2] eqn:Ep; intros [= E <-].
  - left. eapply sanitize_raises_exceptions, E.
  - right. subst e'. eauto.
Qed.

(** An iteration that goes on gives exactly one verdict. *)
Lemma loop_body_one_verdict (st st' : split_state) (ex : pair) (h h' : heap) :
  loop_body program st ex h = (inr st', h') ->
  (right st' = S (right st) /\ wrong st' = wrong st)
  \/ (right st' = right st /\ wrong st' = S (wrong st)).
Proof.
  loop_body_cases; intros [= <- <-];
    solve [left; split; reflexivity | right; split; reflexivity].
Qed.

(** An iteration stops the loop only on a fault of the solver that is no
    [Exception]. *)
Lemma loop_body_escape (st : split_state) (ex : pair) (h h' : heap) (e : exn) :
  loop_body program st ex h = (inl e, h') ->
  is_Exception e = false
  /\ exists h1 g, deepcopy h (input ex) = (h1, g) /\ program h1 g = (Raised e, h').
Proof.
  loop_body_cases; intros [= <- <-].
  split; [assumption|].
  match goal with
  | Er : _run_and_sanitize _ _ _ = _ |- _ =>
      apply run_and_sanitize_error in Er as [Er|Er]; [congruence | exact Er]
  end.
Qed.

(** The counters after the loop: one more verdict per pair. *)
Lemma verify_loop_counts (pairs : list pair) :
  forall (st st' : split_state) (h h' : heap),
  verify_loop program st pairs h = (inr st', h') ->
  (right st' + wrong st' = right st + wrong st + length pairs)%nat
  /\ (right st <= right st')%nat /\ (wrong st <= wrong st')%nat.
Proof.
  induction pairs as [|ex pairs IH]; intros st st' h h' E; cbn in E.
  - injection E as <- <-. cbn [length]. lia.
  - destruct (loop_body program st ex h) as [[e|st1] h1] eqn:Eb; [discriminate|].
    apply loop_body_one_verdict in Eb. apply IH in E. cbn [length]. lia.
Qed.

(** The loop over a concatenation is the loop over the first part
    followed, unless it was left, by the loop over the second. *)
Lemma verify_loop_app (ps qs : list pair) :
  forall (st : split_state) (h : heap),
  verify_loop program st (ps ++ qs) h
  = match verify_loop program st ps h with
    | (inr st1, h1) => verify_loop program st1 qs h1
    | (inl e, h1) => (inl e, h1)
    end.
Proof.
  induction ps as [|ex ps IH]; intros st h; cbn; [reflexivity|].
  destruct (loop_body program st ex h) as [[e|st1] h1]; [reflexivity | apply IH].
Qed.

(** A pair on which the solver raises an [Exception] is one more fail,
    and the loop goes on with the next pair. *)
Lemma loop_body_solver_raises (st : split_state) (ex : pair)
    (h h1 h2 : heap) (g : loc) (e : exn) :
  deepcopy h (input ex) = (h1, g) ->
  program h1 g = (Raised e, h2) ->
  is_Exception e = true ->
  exists st', loop_body program st ex h = (inr st', h2) /\ counted_error ex e st st'.
Proof.
  intros Ed Ep Ee. unfold loop_body, _run_and_sanitize. rewrite Ed, Ep, Ee.
  eexists. split; reflexivity.
Qed.

Section OnlyExceptions.

Hypothesis Hexc : raises_only_exceptions program.

Lemma loop_body_total (st : split_state) (ex : pair) (h : heap) :
  exists st' h', loop_body program st ex h = (inr st', h').
Proof.
  destruct (loop_body program st ex h) as [[e|st'] h'] eqn:E; [|eauto].
  apply loop_body_escape in E as (He & h1 & g & _ & Hr).
  apply Hexc in Hr. congruence.
Qed.

Lemma verify_loop_total (pairs : list pair) :
  forall (st : split_state) (h : heap),
  exists st' h', verify_loop program st pairs h = (inr st', h').
Proof.
  induction pairs as [|ex pairs IH]; intros st h; cbn.
  - eauto.
  - destruct (loop_body_total st ex h) as (st1 & h1 & ->). apply IH.
Qed.

Lemma verify_loop_always_raises (pairs : list pair) :
  always_raises program ->
  forall (st : split_state) (h : heap),
  exists st' h', verify_loop program st pairs h = (inr st', h')
    /\ right st' = right st
    /\ wrong st' = (wrong st + length pairs)%nat
    /\ (pairs <> [] \/ err_tb st <> [] -> err_tb st' <> []).
Proof.
  intros Hall. induction pairs as [|ex pairs IH]; intros st h.
  - exists st, h. cbn. repeat split; [lia | intros [H|H]; congruence].
  - destruct (deepcopy h (input ex)) as [h1 g] eqn:Ed.
    destruct (Hall h1 g) as (e & h2 & Ep).
    destruct (loop_body_solver_raises st ex h h1 h2 g e Ed Ep (Hexc _ _ _ _ Ep))
      as (st1 & Eb & ->).
    destruct (IH (mk_state (right st) (S (wrong st))
                    (note_detail st (mk_detail (input ex) (output ex) None))
                    (match err_tb st with [] => format_exc e | _ :: _ => err_tb st end)) h2)
      as (st' & h' & El & Hr & Hw & Ht).
    exists st', h'. cbn [verify_loop]. rewrite Eb. cbn [right wrong err_tb] in *.
    repeat split; [exact El | exact Hr | cbn [length]; lia |].
    intros _. apply Ht. right. destruct (err_tb st); discriminate.
Qed.

End OnlyExceptions.

End Loop.

(** C4 (as amended).  For every solver whose faults are all instances of
    [Exception] and every pair sequence: a fault raised while the solver
    runs on a pair is caught, counted as one fail for that pair (with no
    actual value and the trace kept if it is the first), and the
    verification goes on with the next pair; the verification returns its
    counts.  If moreover the solver raises on every call, all pairs fail,
    none passes, and for a non-empty sequence the error trace is
    non-empty. *)
Theorem solver_faults_are_counted (program : solver) (pairs : list pair) (h : heap) :
  raises_only_exceptions program ->
  (forall st ex rest h0 h1 g e h2,
      deepcopy h0 (input ex) = (h1, g) ->
      program h1 g = (Raised e, h2) ->
      exists st', counted_error ex e st st'
        /\ verify_loop program st (ex :: rest) h0 = verify_loop program st' rest h2)
  /\ (exists r w d tb h',
        _verify_split program pairs h = (inr (r, w, d, tb), h'))
  /\ (always_raises program ->
      exists d tb h',
        _verify_split program pairs h = (inr (0%nat, length pairs, d, tb), h')
        /\ (pairs <> [] -> tb <> [])).
Proof.
  intros Hex. split; [|split].
  - intros st ex rest h0 h1 g e h2 Ed Ep.
    destruct (loop_body_solver_raises program st ex h0 h1 h2 g e Ed Ep (Hex _ _ _ _ Ep))
      as (st' & Eb & Hc).
    exists st'. split; [exact Hc|]. cbn [verify_loop]. rewrite Eb. reflexivity.
  - unfold _verify_split.
    destruct (verify_loop_total program Hex pairs (mk_state 0 0 None []) h)
      as (st' & h' & ->). eauto 6.
  - intros Hall. unfold _verify_split.
    destruct (verify_loop_always_raises program Hex pairs Hall (mk_state 0 0 None []) h)
      as (st' & h' & -> & Hr & Hw & Ht).
    cbn [right wrong err_tb] in *. rewrite Hr, Hw. cbn [Nat.add].
    exists (first_wrong_detail st'), (err_tb st'), h'.
    split; [reflexivity|]. intros Hne. apply Ht. left. exact Hne.
Qed.

Lemma raising_solver_only_exceptions : raises_only_exceptions Examples.raising_solver.
Proof. intros h a e h' [= <- _]. reflexivity. Qed.

Lemma raising_solver_always : always_raises Examples.raising_solver.
Proof. intros h a. eexists _, _. reflexivity. Qed.

(** C4, witness: the solver that divides by zero, on one pair. *)
Lemma solver_faults_are_counted_witness :
  exists d tb h',
    _verify_split Examples.raising_solver Examples.square_store.2 Examples.square_store.1
    = (inr (0%nat, length Examples.square_store.2, d, tb), h')
    /\ (Examples.square_store.2 <> [] -> tb <> []).
Proof.
  apply (solver_faults_are_counted Examples.raising_solver
           Examples.square_store.2 Examples.square_store.1
           raising_solver_only_exceptions).
  exact raising_solver_always.
Defined.

(** C4, counterexample to the statement for every solver: what
    the solver that raises [SystemExit] raises is not caught; it
    leaves the verifier, which returns no counts. *)
Lemma solver_fault_escapes :
  exists h',
    _verify_split Examples.exiting_solver Examples.square_store.2 Examples.square_store.1
    = (inl (SolverError false (lit "SystemExit")), h').
Proof. eexists. vm_compute. reflexivity. Qed.

(** C9 (as amended).  For every solver, verifying the empty sequence
    returns [(0, 0, None, "")].  For every solver whose faults are all
    instances of [Exception] and every pair sequence, the verification
    returns, the pairs are taken one after the other, each in exactly one
    iteration that adds one to exactly one of the two counters, and the
    two counts add up to the number of pairs. *)
Theorem verify_split_counts (program : solver) (pairs : list pair) (h : heap) :
  raises_only_exceptions program ->
  _verify_split program [] h = (inr (0%nat, 0%nat, None, []), h)
  /\ (exists r w d tb h',
        _verify_split program pairs h = (inr (r, w, d, tb), h')
        /\ (r + w = length pairs)%nat)
  /\ (forall ps ex qs, pairs = ps ++ ex :: qs ->
      exists st1 h1 st2 h2,
        verify_loop program (mk_state 0 0 None []) ps h = (inr st1, h1)
        /\ loop_body program st1 ex h1 = (inr st2, h2)
        /\ ((right st2 = S (right st1) /\ wrong st2 = wrong st1)
            \/ (right st2 = right st1 /\ wrong st2 = S (wrong st1)))
        /\ verify_loop program (mk_state 0 0 None []) pairs h
           = verify_loop program st2 qs h2).
Proof.
  intros Hex. split; [reflexivity|]. split.
  - unfold _verify_split.
    destruct (verify_loop_total program Hex pairs (mk_state 0 0 None []) h)
      as (st' & h' & E). rewrite E.
    apply verify_loop_counts in E as [E _]. cbn in E.
    exists (right st'), (wrong st'), (first_wrong_detail st'), (err_tb st'), h'.
    split; [reflexivity | exact E].
  - intros ps ex qs ->.
    destruct (verify_loop_total program Hex ps (mk_state 0 0 None []) h)
      as (st1 & h1 & E1).
    destruct (loop_body_total program Hex st1 ex h1) as (st2 & h2 & E2).
    exists st1, h1, st2, h2. split; [exact E1|]. split; [exact E2|]. split.
    + eapply loop_body_one_verdict, E2.
    + rewrite verify_loop_app, E1. cbn [verify_loop]. rewrite E2. reflexivity.
Qed.

Lemma copy_solver_only_exceptions : raises_only_exceptions Examples.copy_solver.
Proof. intros h a e h' [=]. Qed.

(** C9, witness: the copying solver on one pair. *)
Lemma verify_split_counts_witness :
  exists r w d tb h',
    _verify_split Examples.copy_solver Examples.square_store.2 Examples.square_store.1
    = (inr (r, w, d, tb), h')
    /\ (r + w = length Examples.square_store.2)%nat.
Proof.
  apply (verify_split_counts Examples.copy_solver
           Examples.square_store.2 Examples.square_store.1
           copy_solver_only_exceptions).
Defined.

(** C9, counterexample to the statement for every solver: with
    the solver that raises [SystemExit] the verification of one pair
    returns no counts at all. *)
Lemma verify_split_no_counts :
  ~ (exists r w d tb h',
       _verify_split Examples.exiting_solver Examples.square_store.2
         Examples.square_store.1 = (inr (r, w, d, tb), h')
       /\ (r + w = length Examples.square_store.2)%nat).
Proof. intros (r & w & d & tb & h' & E & _). vm_compute in E. discriminate. Qed.

End VerifierFacts.

(** ** Comparing object arrays is Python equality of the values *)

Module NumpyFacts.
Import Json Numpy.

Lemma py_eqb_list (xs ys : list jsonval) :
  py_eqb (JList xs) (JList ys) = all_eq xs ys.
Proof. reflexivity. Qed.

Lemma all_eq_app (xs xs' ys ys' : list jsonval) :
  length xs = length ys ->
  all_eq (xs ++ xs') (ys ++ ys') = all_eq xs ys && all_eq xs' ys'.
Proof.
  revert ys. induction xs as [|x xs IH]; intros [|y ys] Hlen; cbn in *; try discriminate.
  - reflexivity.
  - rewrite IH by lia. apply andb_assoc.
Qed.

Lemma all_eq_length (xs ys : list jsonval) :
  all_eq xs ys = true -> length xs = length ys.
Proof.
  revert ys. induction xs as [|x xs IH]; intros [|y ys] H; cbn in *; try discriminate.
  - reflexivity.
  - apply andb_prop in H as [_ H]. f_equal. apply IH, H.
Qed.

(** *** Shapes *)

Lemma common_prefix_l (a b : list nat) : common_prefix a b `prefix_of` a.
Proof.
  revert b. induction a as [|x a IH]; intros [|y b]; cbn; try apply prefix_nil.
  destruct (Nat.eqb x y); [|apply prefix_nil]. apply prefix_cons, IH.
Qed.

Lemma common_prefix_r (a b : list nat) : common_prefix a b `prefix_of` b.
Proof.
  revert b. induction a as [|x a IH]; intros [|y b]; cbn; try apply prefix_nil.
  destruct (Nat.eqb_spec x y) as [->|]; [|apply prefix_nil]. apply prefix_cons, IH.
Qed.

Lemma foldl_common_prefix (rest : list (list nat)) (s : list nat) :
  foldl common_prefix s rest `prefix_of` s
  /\ forall x, x ∈ rest -> foldl common_prefix s rest `prefix_of` x.
Proof.
  revert s. induction rest as [|r rest IH]; intros s; cbn.
  - split; [reflexivity|]. intros x Hx. inversion Hx.
  - destruct (IH (common_prefix s r)) as [H1 H2]. split.
    + etransitivity; [exact H1 | apply common_prefix_l].
    + intros x Hx. apply elem_of_cons in Hx as [->|Hx].
      * etransitivity; [exact H1 | apply common_prefix_r].
      * apply H2, Hx.
Qed.

(** What all the shapes agree on is a prefix of each of them. *)
Lemma common_prefix_all_prefix (shapes : list (list nat)) (x : list nat) :
  x ∈ shapes -> common_prefix_all shapes `prefix_of` x.
Proof.
  destruct shapes as [|s rest]; intros Hx; [inversion Hx|].
  cbn. destruct (foldl_common_prefix rest s) as [H1 H2].
  apply elem_of_cons in Hx as [->|Hx]; [exact H1 | apply H2, Hx].
Qed.

Lemma shape_regular (v : jsonval) :
  forall p, p `prefix_of` shape_of v -> regular p v.
Proof.
  induction v as [n|m e|items IH] using jsonval_nested_ind; intros p Hp.
  - apply prefix_nil_inv in Hp as ->. exact I.
  - apply prefix_nil_inv in Hp as ->. exact I.
  - destruct p as [|n p]; [exact I|]. cbn [shape_of] in Hp.
    apply prefix_cons_inv_1 in Hp as Hn. apply prefix_cons_inv_2 in Hp as Hp'.
    cbn [regular]. split; [congruence|].
    rewrite Forall_forall in IH |- *. intros x Hx. apply IH; [exact Hx|].
    etransitivity; [exact Hp'|].
    apply common_prefix_all_prefix, list_elem_of_In, in_map, list_elem_of_In, Hx.
Qed.

Lemma regular_elems_length (sh : list nat) :
  forall v, regular sh v ->
  length (elems_at (length sh) v) = foldr Nat.mul 1%nat sh.
Proof.
  induction sh as [|n sh IH]; intros v Hv; [reflexivity|].
  destruct v as [| |items]; cbn [regular] in Hv; try contradiction.
  destruct Hv as [<- Hall]. cbn [length elems_at foldr].
  induction Hall as [|x items Hx Hall IHl]; [reflexivity|].
  cbn [map concat length]. rewrite length_app, IHl, (IH x Hx). lia.
Qed.

(** On two values regular for the same dimensions, comparing the
    elements found at that depth is comparing the values. *)
Lemma regular_all_eq (sh : list nat) :
  forall a b, regular sh a -> regular sh b ->
  all_eq (elems_at (length sh) a) (elems_at (length sh) b) = py_eqb a b.
Proof.
  induction sh as [|n sh IH]; intros a b Ha Hb.
  - cbn. apply andb_true_r.
  - destruct a as [| |xs]; cbn [regular] in Ha; try contradiction.
    destruct b as [| |ys]; cbn [regular] in Hb; try contradiction.
    destruct Ha as [Hlx Hx], Hb as [Hly Hy]. rewrite py_eqb_list.
    cbn [length elems_at]. subst n. revert ys Hly Hy.
    induction Hx as [|x xs Hx Hxs IHl]; intros [|y ys] Hly Hy; cbn in Hly;
      try discriminate; [reflexivity|].
    inversion Hy as [|? ? Hy1 Hy2]; subst.
    cbn [map concat all_eq]. rewrite all_eq_app.
    + rewrite (IH x y Hx Hy1), (IHl ys) by (lia || assumption). reflexivity.
    + rewrite !regular_elems_length by assumption. reflexivity.
Qed.

(** Values that are equal have the same shape. *)
Lemma py_eqb_shape (a : jsonval) :
  forall b, py_eqb a b = true -> shape_of a = shape_of b.
Proof.
  induction a as [n|m e|xs IH] using jsonval_nested_ind; intros b Hab.
  - destruct b; cbn in Hab; try discriminate; reflexivity.
  - destruct b; cbn in Hab; try discriminate; reflexivity.
  - destruct b as [| |ys]; try discriminate. rewrite py_eqb_list in Hab.
    cbn [shape_of]. rewrite (all_eq_length _ _ Hab). f_equal. f_equal.
    revert ys Hab. induction IH as [|x xs Hx _ IHl]; intros [|y ys] Hab;
      cbn in Hab; try discriminate; [reflexivity|].
    apply andb_prop in Hab as [H1 H2]. cbn [map].
    rewrite (Hx y H1), (IHl ys H2). reflexivity.
Qed.

(** [a.shape == b.shape and (a == b).all()] on the arrays of two values
    is [==] on the values. *)
Theorem arrays_match_py_eqb (a b : jsonval) :
  arrays_match (array a) (array b) = py_eqb a b.
Proof.
  unfold arrays_match, array, shape_eqb. cbn [shape elems].
  destruct (decide (shape_of a = shape_of b)) as [E|N].
  - rewrite bool_decide_eq_true_2 by exact E. cbn [andb].
    rewrite <- E.
    apply regular_all_eq; apply shape_regular; [|rewrite E]; reflexivity.
  - rewrite bool_decide_eq_false_2 by exact N. cbn [andb].
    destruct (py_eqb a b) eqn:Eq; [|reflexivity].
    exfalso. apply N, py_eqb_shape, Eq.
Qed.

(** *** [tolist] gives back the nested lists *)

Lemma tolist_items (sh : list nat) (k : nat) (xs : list jsonval) :
  (forall x, regular sh x ->
     tolist sh (elems_at (length sh) x) = x /\ length (elems_at (length sh) x) = k) ->
  Forall (regular sh) xs ->
  forall (n0 : nat) (before : list jsonval),
  length before = (n0 * k)%nat ->
  map (fun i => tolist sh (take k (drop (i * k)
                                    (before ++ concat (map (elems_at (length sh)) xs)))))
      (seq n0 (length xs))
  = xs.
Proof.
  intros Hx Hall. induction Hall as [|x xs Hr _ IH]; intros n0 before Hlen;
    [reflexivity|].
  destruct (Hx x Hr) as [Hto Hk]. cbn [length seq map concat]. f_equal.
  - rewrite drop_app_length' by (symmetry; exact Hlen).
    rewrite take_app_length' by (symmetry; exact Hk). exact Hto.
  - specialize (IH (S n0) (before ++ elems_at (length sh) x)).
    rewrite <- app_assoc in IH. apply IH.
    rewrite length_app, Hlen, Hk. lia.
Qed.

Lemma tolist_regular (sh : list nat) :
  forall v, regular sh v -> tolist sh (elems_at (length sh) v) = v.
Proof.
  induction sh as [|n sh IH]; intros v Hv; [reflexivity|].
  destruct v as [| |xs]; cbn [regular] in Hv; try contradiction.
  destruct Hv as [<- Hall]. cbn [length elems_at tolist]. f_equal.
  apply (tolist_items sh (foldr Nat.mul 1%nat sh) xs) with (n0 := 0%nat) (before := []);
    [|exact Hall | reflexivity].
  intros x Hr. split; [apply IH, Hr | apply regular_elems_length, Hr].
Qed.

(** [np.array(v, dtype=object).tolist()] is [v]. *)
Lemma tolist_array (v : jsonval) :
  tolist (shape (array v)) (elems (array v)) = v.
Proof. unfold array. cbn [shape elems]. apply tolist_regular, shape_regular. reflexivity. Qed.

End NumpyFacts.

(** ** The comparison step *)

Module ComparisonFacts.
Import Text Json Numpy Store Evaluator NumpyFacts.

Lemma all_eq_Forall2 (xs ys : list jsonval) :
  all_eq xs ys = true <-> Forall2 (fun x y => py_eqb x y = true) xs ys.
Proof.
  revert ys. induction xs as [|x xs IH]; intros [|y ys]; cbn.
  - split; [constructor | reflexivity].
  - split; [discriminate | inversion 1].
  - split; [discriminate | inversion 1].
  - rewrite andb_true_iff, IH. split.
    + intros [H1 H2]. constructor; assumption.
    + inversion 1; subst. split; assumption.
Qed.

Lemma dec_eqb_int_r (m e x : Z) :
  dec_eqb m e x 0 = true
  <-> (0 <= e /\ m * 10 ^ e = x) \/ (e < 0 /\ m = x * 10 ^ (- e)).
Proof.
  unfold dec_eqb. rewrite Z.eqb_eq.
  destruct (Z.le_gt_cases 0 e) as [He|He].
  - rewrite Z.min_r by lia. rewrite !Z.sub_0_r.
    change (10 ^ 0) with 1. rewrite Z.mul_1_r. split; [left; lia | intros [?|?]; lia].
  - rewrite Z.min_l by lia. rewrite Z.sub_diag, Z.sub_0_l.
    change (10 ^ 0) with 1. rewrite Z.mul_1_r. split; [right; lia | intros [?|?]; lia].
Qed.

(** Python [==] between a parsed cell and an expected integer is
    numerical equality. *)
Lemma py_eqb_cell (c : jsonval) (x : Z) :
  py_eqb c (JInt x) = true <-> num_equal c x.
Proof.
  destruct c as [n|m e|items]; cbn [py_eqb num_equal].
  - apply Z.eqb_eq.
  - apply dec_eqb_int_r.
  - split; [discriminate | contradiction].
Qed.

Lemma py_eqb_row (row : jsonval) (wrow : list Z) :
  py_eqb row (JList (map JInt wrow)) = true
  <-> exists cells, row = JList cells /\ Forall2 num_equal cells wrow.
Proof.
  split.
  - destruct row as [| |cells]; try discriminate.
    rewrite py_eqb_list, all_eq_Forall2. intros H. exists cells. split; [reflexivity|].
    revert wrow H. induction cells as [|c cells IH]; intros [|x wrow] H;
      cbn in H; inversion H; subst; constructor.
    + apply py_eqb_cell. assumption.
    + apply IH. assumption.
  - intros (cells & -> & H). rewrite py_eqb_list, all_eq_Forall2.
    induction H as [|c x cells wrow Hc _ IH]; cbn; constructor.
    + apply py_eqb_cell, Hc.
    + exact IH.
Qed.

Lemma py_eqb_grid (parsed : jsonval) (want : Grid) :
  py_eqb parsed (grid_value want) = true
  <-> exists rows, parsed = JList rows
        /\ Forall2 (fun row wrow =>
                      exists cells, row = JList cells /\ Forall2 num_equal cells wrow)
                   rows want.
Proof.
  unfold grid_value. split.
  - destruct parsed as [| |rows]; try discriminate.
    rewrite py_eqb_list, all_eq_Forall2. intros H. exists rows. split; [reflexivity|].
    revert want H. induction rows as [|r rows IH]; intros [|w want] H;
      cbn in H; inversion H; subst; constructor.
    + apply py_eqb_row. assumption.
    + apply IH. assumption.
  - intros (rows & -> & H). rewrite py_eqb_list, all_eq_Forall2.
    induction H as [|r w rows want Hr _ IH]; cbn; constructor.
    + apply py_eqb_row, Hr.
    + exact IH.
Qed.

(** The comparison of the source is the comparison of the
    specification. *)
Lemma arrays_match_same_grid (parsed : jsonval) (want : Grid) :
  arrays_match (array parsed) (array (grid_value want)) = true
  <-> same_grid parsed want.
Proof.
  rewrite arrays_match_py_eqb, py_eqb_grid. unfold same_grid.
  split; intros (rows & -> & H); exists rows; (split; [reflexivity|]).
  - apply Forall2_same_length_lookup in H as [Hlen H]. split; [exact Hlen|].
    intros i row wrow Hi Hw. destruct (H i row wrow Hi Hw) as (cells & -> & Hc).
    exists cells. split; [reflexivity|].
    apply Forall2_same_length_lookup in Hc as [Hl Hc]. split; [exact Hl | exact Hc].
  - destruct H as [Hlen H]. apply Forall2_same_length_lookup. split; [exact Hlen|].
    intros i row wrow Hi Hw. destruct (H i row wrow Hi Hw) as (cells & -> & Hl & Hc).
    exists cells. split; [reflexivity|].
    apply Forall2_same_length_lookup. split; [exact Hl | exact Hc].
Qed.

(** What a successful [_run_and_sanitize] went through. *)
Lemma run_and_sanitize_ok (program : solver) (a : loc) (h h' : heap) (arr : ndarray) :
  _run_and_sanitize program a h = (inr arr, h') ->
  exists h1 g result d parsed,
    deepcopy h a = (h1, g)
    /\ program h1 g = (Returned result, h')
    /\ dumps result = Some d
    /\ _UNSAFE_CHARS_RE_search (normalize_bools d) = false
    /\ loads (normalize_bools d) = Some parsed
    /\ arr = array parsed.
Proof.
  unfold _run_and_sanitize. destruct (deepcopy h a) as [h1 g].
  destruct (program h1 g) as [[result|e] h2] eqn:Ep; [|discriminate].
  unfold sanitize. destruct (dumps result) as [d|] eqn:Ed; [|discriminate].
  destruct (_UNSAFE_CHARS_RE_search _) eqn:Eu; [discriminate|].
  destruct (loads _) as [parsed|] eqn:El; [|discriminate].
  intros [= <- <-]. exists h1, g, result, d, parsed. repeat split; assumption.
Qed.

(** C1.  For every pair whose processing reaches the comparison step
    (the solver returned, its value was serialized, passed the character
    check and was parsed again), the iteration ends with a verdict and
    never with an error: the pair is counted Correct if and only if the
    parsed result and the expected grid have the same number of rows, the
    same number of columns in every corresponding row and numerically
    equal corresponding cells, and it is counted Incorrect (with the
    parsed value kept as the actual one, no trace) otherwise. *)
Theorem comparison_verdict (program : solver) (st : split_state) (ex : pair)
    (h h' : heap) (user_arr : ndarray) :
  _run_and_sanitize program (input ex) h = (inr user_arr, h') ->
  exists h1 g result d parsed st',
    deepcopy h (input ex) = (h1, g)
    /\ program h1 g = (Returned result, h')
    /\ dumps result = Some d
    /\ loads (normalize_bools d) = Some parsed
    /\ user_arr = array parsed
    /\ loop_body program st ex h = (inr st', h')
    /\ (counted_correct st st' <-> same_grid parsed (read_grid h' (output ex)))
    /\ (counted_incorrect ex parsed st st'
        <-> ~ same_grid parsed (read_grid h' (output ex))).
Proof.
  intros Hrun.
  destruct (run_and_sanitize_ok _ _ _ _ _ Hrun)
    as (h1 & g & result & d & parsed & Hd & Hp & Hdump & _ & Hloads & ->).
  exists h1, g, result, d, parsed. unfold loop_body. rewrite Hrun, tolist_array.
  destruct (arrays_match _ _) eqn:Em.
  - apply arrays_match_same_grid in Em as Hs.
    eexists. do 5 (split; [eassumption || reflexivity|]). split; [reflexivity|]. split.
    + split; [intros _; exact Hs | intros _; reflexivity].
    + unfold counted_incorrect. split.
      * intros [= Hr _]. lia.
      * intros Hn. contradiction.
  - assert (Hs : ~ same_grid parsed (read_grid h' (output ex))).
    { intros Hs. apply arrays_match_same_grid in Hs. congruence. }
    eexists. do 5 (split; [eassumption || reflexivity|]). split; [reflexivity|]. split.
    + unfold counted_correct. split.
      * intros [= Hr _]. lia.
      * intros Hy. contradiction.
    + split; [intros _; exact Hs | intros _; reflexivity].
Qed.

(** C1, witness: [[1, 2]] returned where [[1], [2]] is expected
    reaches the comparison and is counted Incorrect. *)
Lemma comparison_verdict_witness :
  exists user_arr h' st',
    _run_and_sanitize (Examples.const_solver Examples.one_row)
      (input Examples.column_pair) Examples.column_heap = (inr user_arr, h')
    /\ loop_body (Examples.const_solver Examples.one_row) (mk_state 0 0 None [])
         Examples.column_pair Examples.column_heap = (inr st', h')
    /\ counted_incorrect Examples.column_pair
         (JList [JList [JInt 1; JInt 2]]) (mk_state 0 0 None []) st'.
Proof.
  destruct (_run_and_sanitize (Examples.const_solver Examples.one_row)
              (input Examples.column_pair) Examples.column_heap)
    as [[e|user_arr] h'] eqn:E.
  - vm_compute in E. discriminate.
  - destruct (comparison_verdict _ (mk_state 0 0 None []) _ _ _ _ E)
      as (h1 & g & result & d & parsed & st' & _ & _ & _ & _ & _ & Hb & _ & _).
    exists user_arr, h', st'. split; [reflexivity|]. split; [exact Hb|].
    vm_compute in E. injection E as <- <-.
    vm_compute in Hb. injection Hb as <-. vm_compute. reflexivity.
Defined.

(** The example of the specification, evaluated: one fail, no pass, no
    error trace, the actual value kept. *)
Lemma one_row_against_column :
  exists d h',
    _verify_split (Examples.const_solver Examples.one_row)
      Examples.column_store.2 Examples.column_store.1
    = (inr (0%nat, 1%nat,
            Some (mk_detail d.1 d.2 (Some (JList [JList [JInt 1; JInt 2]]))), []), h').
Proof. eexists (_, _), _. vm_compute. reflexivity. Qed.

(** C2.  For every value the solver returns whose serialization, after
    the boolean literals are replaced, contains a character that is not
    a digit, a comma, a square bracket, whitespace or a period: the pair
    is counted as an error, raised as [InvalidOutput] before any
    comparison: one more fail, no actual value, the trace kept if it is
    the first, and the loop goes on. *)
Theorem unsafe_output_is_error (program : solver) (st : split_state) (ex : pair)
    (h h1 h2 : heap) (g : loc) (result : pyval) (d : text) :
  deepcopy h (input ex) = (h1, g) ->
  program h1 g = (Returned result, h2) ->
  dumps result = Some d ->
  _UNSAFE_CHARS_RE_search (normalize_bools d) = true ->
  _run_and_sanitize program (input ex) h
  = (inl (InvalidOutput (take 200 (normalize_bools d))), h2)
  /\ exists st',
       loop_body program st ex h = (inr st', h2)
       /\ counted_error ex (InvalidOutput (take 200 (normalize_bools d))) st st'
       /\ right st' = right st /\ wrong st' = S (wrong st).
Proof.
  intros Ed Ep Edump Eu.
  assert (Hrun : _run_and_sanitize program (input ex) h
                 = (inl (InvalidOutput (take 200 (normalize_bools d))), h2)).
  { unfold _run_and_sanitize, sanitize. rewrite Ed, Ep, Edump, Eu. reflexivity. }
  split; [exact Hrun|]. unfold loop_body. rewrite Hrun. cbn [is_Exception].
  eexists. split; [reflexivity|]. repeat split.
Qed.

(** C2, witness: the solver that returns [["a"]]. *)
Lemma unsafe_output_is_error_witness :
  exists h2 shown st',
    _run_and_sanitize (Examples.const_solver Examples.letter_grid)
      (input Examples.column_pair) Examples.column_heap
    = (inl (InvalidOutput shown), h2)
    /\ loop_body (Examples.const_solver Examples.letter_grid) (mk_state 0 0 None [])
         Examples.column_pair Examples.column_heap = (inr st', h2)
    /\ counted_error Examples.column_pair (InvalidOutput shown) (mk_state 0 0 None []) st'
    /\ right st' = 0%nat /\ wrong st' = 1%nat.
Proof.
  destruct (deepcopy Examples.column_heap (input Examples.column_pair)) as [h1 g] eqn:Ed.
  destruct (dumps Examples.letter_grid) as [d|] eqn:Edump; [|vm_compute in Edump; discriminate].
  assert (Eu : _UNSAFE_CHARS_RE_search (normalize_bools d) = true).
  { vm_compute in Edump. injection Edump as <-. vm_compute. reflexivity. }
  destruct (unsafe_output_is_error (Examples.const_solver Examples.letter_grid)
              (mk_state 0 0 None []) Examples.column_pair
              Examples.column_heap h1 h1 g Examples.letter_grid d
              Ed eq_refl Edump Eu) as (Hrun & st' & Hb & Hc & Hr & Hw).
  exists h1, (take 200 (normalize_bools d)), st'.
  repeat split; assumption.
Defined.

(** The example of the specification, evaluated: [["a"]] is an
    [InvalidOutput] error, not a comparison verdict. *)
Lemma letter_grid_invalid :
  sanitize Examples.letter_grid
  = inl (InvalidOutput (lit "[[" ++ quote_char :: "a"%char :: quote_char :: lit "]]")).
Proof. vm_compute. reflexivity. Qed.

End ComparisonFacts.

(** ** Reading back what was dumped *)

Module RoundtripFacts.
Import Text TextFacts Json Numpy Store Evaluator NumpyFacts.

Lemma digit_classes (c : ascii) :
  is_digit c = true ->
  is_json_ws c = false /\ unsafe_char c = false
  /\ Ascii.eqb c "["%char = false /\ Ascii.eqb c "]"%char = false
  /\ Ascii.eqb c ","%char = false /\ Ascii.eqb c "."%char = false.
Proof.
  destruct c as [[] [] [] [] [] [] [] []]; vm_compute; intros H;
    try discriminate H; repeat split.
Qed.

Lemma span_digits_app (ds rest : text) :
  forallb is_digit ds = true ->
  match rest with [] => True | c :: _ => is_digit c = false end ->
  span_digits (ds ++ rest) = (ds, rest).
Proof.
  intros Hds Hrest. induction ds as [|c ds IH]; cbn in *.
  - destruct rest as [|c r]; [reflexivity|]. cbn. rewrite Hrest. reflexivity.
  - apply andb_prop in Hds as [Hc Hds]. rewrite Hc, (IH Hds). reflexivity.
Qed.

Lemma ends_value_no_digit (rest : text) :
  ends_value rest -> match rest with [] => True | c :: _ => is_digit c = false end.
Proof. destruct rest as [|c r]; [trivial|]. intros [->| ->]; reflexivity. Qed.

(** The integer part the scanner takes off a numeral. *)
Lemma numeral_integer_part (ds rest : text) (c : ascii) (r : text) :
  numeral ds -> ds ++ rest = c :: r ->
  match rest with [] => True | c' :: _ => is_digit c' = false end ->
  is_digit c = true
  /\ (if Ascii.eqb c "0"%char then ([c], r) else span_digits (c :: r)) = (ds, rest).
Proof.
  intros [Hd Hz] E Hrest. destruct Hz as [->|(c0 & r0 & -> & Hc0)].
  - injection E as <- <-. split; reflexivity.
  - injection E as <- <-. cbn in Hd. apply andb_prop in Hd as [Hc Hr].
    split; [exact Hc|].
    destruct (Ascii.eqb_spec c0 "0"%char) as [|_]; [contradiction|].
    change (c0 :: r0 ++ rest) with ((c0 :: r0) ++ rest).
    apply span_digits_app; [cbn; rewrite Hc, Hr; reflexivity | exact Hrest].
Qed.

Lemma numeral_nonempty (ds : text) : numeral ds -> exists c r, ds = c :: r.
Proof. intros [_ [->|(c & r & -> & _)]]; eauto. Qed.

(** A numeral followed by the end of a value is read as that integer. *)
Lemma parse_number_int (ds rest : text) :
  numeral ds -> ends_value rest ->
  parse_number (ds ++ rest) = Some (JInt (Z.of_N (digits_val 0 ds)), rest).
Proof.
  intros Hn Hrest. destruct (numeral_nonempty ds Hn) as (c & r & E).
  destruct (numeral_integer_part ds rest c (r ++ rest) Hn) as [Hc Hip].
  { rewrite E. reflexivity. }
  { apply ends_value_no_digit, Hrest. }
  rewrite E at 1. cbn [app]. unfold parse_number. rewrite Hc, Hip.
  destruct rest as [|c' rest']; [reflexivity|].
  destruct Hrest as [->| ->]; reflexivity.
Qed.

(** A numeral followed by [.0] is read as a float of ten times the
    numeral, one place after the point. *)
Lemma parse_number_float (ds rest : text) :
  numeral ds -> ends_value rest ->
  parse_number (ds ++ "."%char :: "0"%char :: rest)
  = Some (JFloat (digits_val 0 (ds ++ ["0"%char])) (-1), rest).
Proof.
  intros Hn Hrest. destruct (numeral_nonempty ds Hn) as (c & r & E).
  destruct (numeral_integer_part ds ("."%char :: "0"%char :: rest) c
              (r ++ "."%char :: "0"%char :: rest) Hn) as [Hc Hip].
  { rewrite E. reflexivity. }
  { reflexivity. }
  rewrite E at 1. cbn [app]. unfold parse_number. rewrite Hc, Hip.
  cbv beta iota. change (Ascii.eqb "."%char "."%char) with true. cbv iota.
  change ("0"%char :: rest) with (["0"%char] ++ rest).
  rewrite span_digits_app; [reflexivity | reflexivity | apply ends_value_no_digit, Hrest].
Qed.

Lemma skip_ws_starts_value (t rest : text) :
  starts_value t -> skip_ws (t ++ rest) = t ++ rest.
Proof.
  intros (c & r & -> & Hc). unfold skip_ws. cbn [app drop_while].
  destruct Hc as [Hc| ->]; [|reflexivity].
  destruct (digit_classes c Hc) as (-> & _). reflexivity.
Qed.

Lemma starts_value_not_close (t rest : text) :
  starts_value t ->
  exists c r, t ++ rest = c :: r /\ Ascii.eqb c "]"%char = false.
Proof.
  intros (c & r & -> & Hc). exists c, (r ++ rest). split; [reflexivity|].
  destruct Hc as [Hc| ->]; [|reflexivity].
  apply (digit_classes c Hc).
Qed.

(** The items of a list, dumped and joined, are read back one by one. *)
Lemma parse_items_join (ts : list text) (js : list jsonval) :
  Forall2 item_reads_back ts js ->
  ts <> [] ->
  forall fuel rest,
    (length (join_comma ts) + 1 < fuel)%nat ->
    parse_items fuel (join_comma ts ++ "]"%char :: rest) = Some (js, rest).
Proof.
  induction 1 as [|t j ts js [Hst Ht] Hall IH]; intros Hne fuel rest Hfuel;
    [contradiction|].
  destruct fuel as [|f]; [lia|].
  destruct Hall as [|t2 j2 ts2 js2 H2 Hall2].
  - cbn [join_comma] in *. cbn [parse_items].
    rewrite (Ht f ("]"%char :: rest)) by (lia || (right; reflexivity)).
    reflexivity.
  - assert (Hlen : (length (join_comma (t :: t2 :: ts2))
                    = length t + 2 + length (join_comma (t2 :: ts2)))%nat).
    { cbn [join_comma]. rewrite !length_app. cbn [lit list_ascii_of_string length]. lia. }
    change (join_comma (t :: t2 :: ts2))
      with (t ++ lit ", " ++ join_comma (t2 :: ts2)).
    rewrite <- !app_assoc. cbn [lit list_ascii_of_string app].
    cbn [parse_items].
    rewrite (Ht f) by (lia || (left; reflexivity)).
    change (skip_ws (","%char :: " "%char :: join_comma (t2 :: ts2) ++ "]"%char :: rest))
      with (","%char :: " "%char :: join_comma (t2 :: ts2) ++ "]"%char :: rest).
    change (Ascii.eqb ","%char ","%char) with true. cbv iota.
    change (skip_ws (" "%char :: join_comma (t2 :: ts2) ++ "]"%char :: rest))
      with (skip_ws (join_comma (t2 :: ts2) ++ "]"%char :: rest)).
    assert (Hsv : starts_value (join_comma (t2 :: ts2))).
    { destruct H2 as [(c & r & -> & Hc) _]. destruct ts2; cbn [join_comma app]; eexists _, _; eauto. }
    rewrite skip_ws_starts_value by exact Hsv.
    rewrite IH by (discriminate || lia). reflexivity.
Qed.

(** A list whose items are read back is read back. *)
Lemma parse_value_list (ts : list text) (js : list jsonval) :
  Forall2 item_reads_back ts js ->
  forall fuel rest,
    (length ("["%char :: join_comma ts ++ ["]"%char]) < fuel)%nat ->
    parse_value fuel (("["%char :: join_comma ts ++ ["]"%char]) ++ rest)
    = Some (JList js, rest).
Proof.
  intros Hall fuel rest Hfuel. destruct fuel as [|f]; [lia|].
  cbn [length] in Hfuel. rewrite length_app in Hfuel. cbn [length] in Hfuel.
  cbn [app]. rewrite <- app_assoc. cbn [app parse_value].
  change (Ascii.eqb "["%char "["%char) with true. cbv iota.
  destruct Hall as [|t j ts js Ht Hall].
  - reflexivity.
  - assert (Hsv : starts_value (join_comma (t :: ts))).
    { destruct Ht as [(c & r & -> & Hc) _]. destruct ts; cbn [join_comma app]; eexists _, _; eauto. }
    rewrite skip_ws_starts_value by exact Hsv.
    destruct (starts_value_not_close _ ("]"%char :: rest) Hsv) as (c & r & E & Hc).
    rewrite E, Hc, <- E.
    rewrite (parse_items_join (t :: ts) (j :: js)); [reflexivity | | discriminate | lia].
    constructor; assumption.
Qed.

Lemma str_N_numeral (n : N) : numeral (str_N n).
Proof.
  split; [apply str_N_all_digits|].
  destruct (N.eq_dec n 0%N) as [->|Hne]; [left; reflexivity|].
  destruct (str_N_head n ltac:(lia)) as (c & r & E & Hc & _). right. eauto.
Qed.

Lemma numeral_zeros_after (n : N) (k : nat) :
  (0 < n)%N -> numeral (str_N n ++ replicate k "0"%char).
Proof.
  intros Hpos. split.
  - rewrite forallb_app, str_N_all_digits. cbn [andb].
    induction k as [|k IH]; [reflexivity | exact IH].
  - destruct (str_N_head n Hpos) as (c & r & E & Hc & _). right.
    rewrite E. cbn [app]. eauto.
Qed.

Lemma numeral_starts_value (ds rest : text) : numeral ds -> starts_value (ds ++ rest).
Proof.
  intros [Hd [->|(c & r & -> & _)]].
  - exists "0"%char, rest. split; [reflexivity | left; reflexivity].
  - cbn in Hd. apply andb_prop in Hd as [Hc _].
    exists c, (r ++ rest). split; [reflexivity | left; exact Hc].
Qed.

Lemma numeral_safe (ds : text) :
  forallb is_digit ds = true -> _UNSAFE_CHARS_RE_search ds = false.
Proof.
  unfold _UNSAFE_CHARS_RE_search. induction ds as [|c ds IH]; [reflexivity|].
  cbn. intros H. apply andb_prop in H as [Hc Hds].
  destruct (digit_classes c Hc) as (_ & -> & _). exact (IH Hds).
Qed.

Lemma parse_value_numeral (ds rest : text) (fuel : nat) :
  numeral ds -> (0 < fuel)%nat ->
  parse_value fuel (ds ++ rest) = parse_number (ds ++ rest).
Proof.
  intros Hn Hf. destruct fuel as [|f]; [lia|].
  destruct (numeral_starts_value ds rest Hn) as (c & r & E & Hc).
  destruct Hn as [Hd Hz]. rewrite E. cbn [parse_value].
  assert (Hb : Ascii.eqb c "["%char = false).
  { destruct Hz as [->|(c0 & r0 & -> & _)]; injection E as <- _; [reflexivity|].
    cbn in Hd. apply andb_prop in Hd as [Hc0 _]. apply (digit_classes c0 Hc0). }
  rewrite Hb. reflexivity.
Qed.

(** A non-negative integer is dumped as its numeral and read back as
    itself. *)
Lemma reads_back_int (x : Z) : 0 <= x -> reads_back (PInt x) (JInt x).
Proof.
  intros Hx. exists (str_N (Z.abs_N x)), (JInt x).
  pose proof (str_N_numeral (Z.abs_N x)) as Hn.
  split; [|split; [|split; [split|]]].
  - cbn [dumps]. unfold str_int. destruct (Z.ltb_spec x 0); [lia | reflexivity].
  - apply numeral_safe, Hn.
  - rewrite <- (app_nil_r (str_N _)). apply numeral_starts_value, Hn.
  - intros fuel rest Hf Hrest. rewrite parse_value_numeral by (exact Hn || lia).
    rewrite parse_number_int by assumption.
    rewrite str_N_val, N2Z.inj_abs_N, Z.abs_eq by lia. reflexivity.
  - cbn. apply Z.eqb_refl.
Qed.

(** [repr] of a float with an integral value below 10^16: the digits of
    the integer followed by [.0]. *)
Lemma floatstr_integral (m : N) (e : Z) :
  (0 < m)%N -> 0 <= e -> Z.of_N m * 10 ^ e < 10 ^ 16 ->
  floatstr (FDec false m e)
  = str_N m ++ replicate (Z.to_nat e) "0"%char ++ lit ".0".
Proof.
  intros Hm He Hlt. unfold floatstr.
  destruct (N.eqb_spec m 0) as [->|_]; [lia|]. cbn [app].
  destruct (strip_trailing_zeros_spec (str_N m)) as (k0 & Hk).
  set (ds := strip_trailing_zeros (str_N m)) in *.
  set (L := length (str_N m)).
  assert (HL : L = (length ds + k0)%nat).
  { unfold L. rewrite Hk at 1. rewrite length_app, length_replicate. reflexivity. }
  assert (HL1 : (1 <= L)%nat).
  { unfold L. pose proof (str_N_nonempty m). destruct (str_N m); [contradiction | cbn; lia]. }
  assert (Hbound : Z.of_nat L + e <= 16).
  { pose proof (str_N_lower_bound m Hm) as Hlow. fold L in Hlow.
    apply N2Z.inj_le in Hlow. rewrite N2Z.inj_pow in Hlow.
    change (Z.of_N 10) with 10 in Hlow. rewrite nat_N_Z in Hlow.
    assert (H10 : 10 ^ (Z.of_nat (L - 1) + e) < 10 ^ 16).
    { rewrite Z.pow_add_r by lia.
      assert (0 < 10 ^ e) by (apply Z.pow_pos_nonneg; lia). nia. }
    apply Z.pow_lt_mono_r_iff in H10; lia. }
  unfold repr_digits.
  destruct (Z.leb_spec (Z.of_nat L + e) (-4)) as [|_]; [lia|].
  destruct (Z.ltb_spec 16 (Z.of_nat L + e)) as [|_]; [lia|]. cbn [orb].
  destruct (Z.leb_spec (Z.of_nat L + e) 0) as [|_]; [lia|].
  destruct (Z.ltb_spec (Z.of_nat L + e) (Z.of_nat (length ds))) as [|_]; [lia|].
  replace (Z.to_nat (Z.of_nat L + e - Z.of_nat (length ds)))
    with (k0 + Z.to_nat e)%nat by lia.
  rewrite replicate_add, Hk at 1. rewrite <- !app_assoc. reflexivity.
Qed.

Lemma replicate_snoc (k : nat) (c : ascii) :
  replicate k c ++ [c] = replicate (S k) c.
Proof. induction k as [|k IH]; [reflexivity|]. cbn. f_equal. exact IH. Qed.

(** A float of integral value below 10^16 is dumped in positional
    notation and read back as a float of that value. *)
Lemma reads_back_float (m : N) (e x : Z) :
  0 <= e -> Z.of_N m * 10 ^ e = x -> x < 10 ^ 16 ->
  reads_back (PFloat (FDec false m e)) (JInt x).
Proof.
  intros He Hx Hlt. destruct (N.eq_dec m 0%N) as [->|Hm].
  - (* 0.0 *)
    assert (x = 0) by lia. subst x.
    exists (lit "0.0"), (JFloat 0 (-1)). split; [reflexivity|].
    split; [reflexivity|]. split; [|reflexivity].
    split; [eexists _, _; split; [reflexivity | left; reflexivity]|].
    intros fuel rest Hf Hrest.
    change (lit "0.0" ++ rest) with (["0"%char] ++ "."%char :: "0"%char :: rest).
    rewrite parse_value_numeral by ((split; [reflexivity | left; reflexivity]) || lia).
    rewrite parse_number_float; [reflexivity | split; [reflexivity | left; reflexivity] | exact Hrest].
  - set (k := Z.to_nat e).
    set (D := str_N m ++ replicate k "0"%char).
    assert (HD : numeral D) by (apply numeral_zeros_after; lia).
    assert (Hval : digits_val 0 (D ++ ["0"%char]) = (m * 10 ^ N.of_nat (S k))%N).
    { unfold D. rewrite <- app_assoc, replicate_snoc, digits_val_zeros_after, str_N_val.
      reflexivity. }
    exists (D ++ lit ".0"), (JFloat (digits_val 0 (D ++ ["0"%char])) (-1)).
    split; [|split; [|split; [split|]]].
    + cbn [dumps]. rewrite floatstr_integral by (lia || (rewrite Hx; exact Hlt)).
      unfold D, k. rewrite <- app_assoc. reflexivity.
    + unfold _UNSAFE_CHARS_RE_search. rewrite existsb_app.
      fold (_UNSAFE_CHARS_RE_search D). rewrite numeral_safe by apply HD. reflexivity.
    + apply numeral_starts_value, HD.
    + intros fuel rest Hf Hrest. rewrite <- app_assoc.
      rewrite parse_value_numeral by (exact HD || lia).
      cbn [lit list_ascii_of_string app].
      rewrite parse_number_float by assumption. reflexivity.
    + cbn [py_eqb]. apply ComparisonFacts.dec_eqb_int_r. right. split; [lia|].
      rewrite Hval, N2Z.inj_mul, N2Z.inj_pow, nat_N_Z.
      change (Z.of_N 10) with 10. unfold k. rewrite Nat2Z.inj_succ, Z2Nat.id by lia.
      rewrite Z.pow_succ_r by lia. change (10 ^ (- -1)) with 10. lia.
Qed.

Lemma reads_back_cell (v : pyval) (x : Z) : cell_ok v x -> reads_back v (JInt x).
Proof.
  intros [[H0 H16] [->|(m & e & -> & He & Hx)]].
  - apply reads_back_int, H0.
  - apply (reads_back_float m e x He Hx H16).
Qed.

Lemma join_comma_safe (ts : list text) :
  Forall (fun t => _UNSAFE_CHARS_RE_search t = false) ts ->
  _UNSAFE_CHARS_RE_search (join_comma ts) = false.
Proof.
  unfold _UNSAFE_CHARS_RE_search.
  induction 1 as [|t ts Ht Hts IH]; [reflexivity|].
  destruct ts as [|t2 ts2]; [exact Ht|].
  change (join_comma (t :: t2 :: ts2)) with (t ++ lit ", " ++ join_comma (t2 :: ts2)).
  rewrite !existsb_app, Ht, IH. reflexivity.
Qed.

(** A list of values that are read back is read back as the list. *)
Lemma reads_back_items (vs : list pyval) (ws : list jsonval) :
  Forall2 reads_back vs ws ->
  exists ts js,
    all_some (map dumps vs) = Some ts
    /\ Forall2 item_reads_back ts js
    /\ Forall (fun t => _UNSAFE_CHARS_RE_search t = false) ts
    /\ all_eq js ws = true.
Proof.
  induction 1 as [|v w vs ws (t & j & Hd & Hu & Hp & He) _ (ts & js & Ha & Hf & Hsafe & Heq)].
  - exists [], []. repeat split; constructor.
  - exists (t :: ts), (j :: js). cbn [map all_some]. rewrite Hd, Ha.
    split; [reflexivity|]. split; [constructor; assumption|].
    split; [constructor; assumption|]. cbn. rewrite He, Heq. reflexivity.
Qed.

Lemma reads_back_brackets (ts : list text) (js ws : list jsonval) :
  Forall2 item_reads_back ts js ->
  Forall (fun t => _UNSAFE_CHARS_RE_search t = false) ts ->
  all_eq js ws = true ->
  _UNSAFE_CHARS_RE_search ("["%char :: join_comma ts ++ ["]"%char]) = false
  /\ item_reads_back ("["%char :: join_comma ts ++ ["]"%char]) (JList js)
  /\ py_eqb (JList js) (JList ws) = true.
Proof.
  intros Hf Hsafe Heq. split; [|split; [split|]].
  - pose proof (join_comma_safe ts Hsafe) as Hj.
    unfold _UNSAFE_CHARS_RE_search in *. cbn [existsb].
    rewrite existsb_app, Hj. reflexivity.
  - eexists _, _. split; [reflexivity | right; reflexivity].
  - intros fuel rest Hfuel _. apply parse_value_list; assumption.
  - rewrite py_eqb_list. exact Heq.
Qed.

Lemma reads_back_list (vs : list pyval) (ws : list jsonval) :
  Forall2 reads_back vs ws -> reads_back (PList vs) (JList ws).
Proof.
  intros H. destruct (reads_back_items vs ws H) as (ts & js & Ha & Hf & Hsafe & Heq).
  exists ("["%char :: join_comma ts ++ ["]"%char]), (JList js).
  split; [cbn [dumps]; rewrite Ha; reflexivity|].
  apply reads_back_brackets; assumption.
Qed.

Lemma reads_back_tuple (vs : list pyval) (ws : list jsonval) :
  Forall2 reads_back vs ws -> reads_back (PTuple vs) (JList ws).
Proof.
  intros H. destruct (reads_back_items vs ws H) as (ts & js & Ha & Hf & Hsafe & Heq).
  exists ("["%char :: join_comma ts ++ ["]"%char]), (JList js).
  split; [cbn [dumps]; rewrite Ha; reflexivity|].
  apply reads_back_brackets; assumption.
Qed.

(** A returned value that is the expected grid cell for cell is read
    back as a value equal to the expected grid. *)
Lemma reads_back_grid (result : pyval) (want : Grid) :
  grid_ok result want -> reads_back result (grid_value want).
Proof.
  intros (rows & -> & H). unfold grid_value. apply reads_back_list.
  induction H as [|row wrow rows want Hrow _ IH]; cbn [map]; constructor; [|exact IH].
  apply reads_back_list.
  induction Hrow as [|v x row wrow Hv _ IHr]; cbn [map]; constructor; [|exact IHr].
  apply reads_back_cell, Hv.
Qed.

(** Replacing a word whose first letter does not occur changes
    nothing. *)
Lemma replace_absent (c0 : ascii) (old new s : text) :
  (forall c, In c s -> c <> c0) -> replace (c0 :: old) new s = s.
Proof.
  unfold replace. induction s as [|c s IH]; intros H; [reflexivity|].
  cbn [replace_from starts_with].
  destruct (Ascii.eqb_spec c0 c) as [->|_].
  - exfalso. apply (H c); [left|]; reflexivity.
  - f_equal. apply IH. intros c' Hc'. apply H. right. exact Hc'.
Qed.

Lemma safe_text_chars (s : text) :
  _UNSAFE_CHARS_RE_search s = false -> forall c, In c s -> unsafe_char c = false.
Proof.
  unfold _UNSAFE_CHARS_RE_search. intros H c Hc.
  destruct (unsafe_char c) eqn:E; [|reflexivity].
  assert (existsb unsafe_char s = true) by (apply existsb_exists; eauto).
  congruence.
Qed.

(** A text free of unsafe characters has no boolean literal to
    replace. *)
Lemma normalize_bools_safe (s : text) :
  _UNSAFE_CHARS_RE_search s = false -> normalize_bools s = s.
Proof.
  intros H. unfold normalize_bools.
  change (lit "true") with ("t"%char :: lit "rue").
  change (lit "false") with ("f"%char :: lit "alse").
  rewrite (replace_absent "t"%char).
  - apply replace_absent. intros c Hc ->.
    pose proof (safe_text_chars s H _ Hc). discriminate.
  - intros c Hc ->. pose proof (safe_text_chars s H _ Hc). discriminate.
Qed.

(** The whole of lines 47-51 on a value that is read back. *)
Lemma sanitize_reads_back (v : pyval) (w : jsonval) :
  reads_back v w ->
  exists j, sanitize v = inr (array j) /\ py_eqb j w = true.
Proof.
  intros (t & j & Hd & Hu & [Hs Hp] & He). exists j. split; [|exact He].
  unfold sanitize. rewrite Hd. cbv zeta. rewrite (normalize_bools_safe t Hu), Hu.
  unfold loads.
  rewrite <- (app_nil_r t) at 2. rewrite skip_ws_starts_value by exact Hs.
  rewrite Hp by (lia || exact I). reflexivity.
Qed.

(** An iteration in which the solver returns the expected grid cell for
    cell is counted Correct. *)
Lemma loop_body_grid_ok (program : solver) (st : split_state) (ex : pair)
    (h h1 h2 : heap) (g : loc) (result : pyval) :
  deepcopy h (input ex) = (h1, g) ->
  program h1 g = (Returned result, h2) ->
  grid_ok result (read_grid h2 (output ex)) ->
  loop_body program st ex h
  = (inr (mk_state (S (right st)) (wrong st) (first_wrong_detail st) (err_tb st)), h2).
Proof.
  intros Ed Ep Hok.
  destruct (sanitize_reads_back _ _ (reads_back_grid _ _ Hok)) as (j & Hs & He).
  unfold loop_body, _run_and_sanitize. rewrite Ed, Ep, Hs.
  rewrite arrays_match_py_eqb, He. reflexivity.
Qed.




End RoundtripFacts.

(** ** The store: copies are fresh *)

Module StoreFacts.
Import Store.

Lemma alloc_spec (h h' : heap) (o : obj) (l : loc) :
  alloc h o = (h', l) -> h !! l = None /\ h' = <[l := o]> h.
Proof.
  unfold alloc. intros [= <- <-]. split; [|reflexivity].
  apply not_elem_of_dom, is_fresh.
Qed.

Lemma alloc_subseteq (h h' : heap) (o : obj) (l : loc) :
  alloc h o = (h', l) -> h ⊆ h'.
Proof. intros E. apply alloc_spec in E as [Hl ->]. apply insert_subseteq, Hl. Qed.

Lemma fresh_weaken (h0 h : heap) (l : loc) : h0 ⊆ h -> h !! l = None -> h0 !! l = None.
Proof. intros Hsub Hl. eapply lookup_weaken_None; eassumption. Qed.

(** Copying rows only adds objects, and every copy is at a location
    that was free before. *)
Lemma copy_rows_fresh (h0 : heap) (rows : list loc) :
  forall (h : heap) (memo : gmap loc loc) (h' : heap) (out : list loc),
  h0 ⊆ h ->
  (forall r r', memo !! r = Some r' -> h0 !! r' = None) ->
  copy_rows h memo rows = (h', out) ->
  h ⊆ h' /\ Forall (fun o => h0 !! o = None) out.
Proof.
  induction rows as [|r rows IH]; intros h memo h' out Hsub Hmemo E;
    cbn [copy_rows] in E.
  - injection E as <- <-. split; [reflexivity | constructor].
  - destruct (memo !! r) as [r'|] eqn:Em.
    + destruct (copy_rows h memo rows) as [h1 out1] eqn:Ec. injection E as <- <-.
      destruct (IH _ _ _ _ Hsub Hmemo Ec) as [H1 H2].
      split; [exact H1 | constructor; [eapply Hmemo, Em | exact H2]].
    + destruct (alloc h (ORow (read_row h r))) as [h1 r'] eqn:Ea.
      destruct (copy_rows h1 (<[r := r']> memo) rows) as [h2 out2] eqn:Ec.
      injection E as <- <-.
      pose proof (alloc_subseteq _ _ _ _ Ea) as Hs1.
      apply alloc_spec in Ea as [Hfresh _].
      destruct (IH h1 (<[r := r']> memo) h2 out2) as [H1 H2].
      * etransitivity; eassumption.
      * intros q q' Hq. apply lookup_insert_Some in Hq as [[_ <-]|[_ Hq]].
        -- eapply fresh_weaken; eassumption.
        -- eapply Hmemo, Hq.
      * exact Ec.
      * split; [etransitivity; eassumption|].
        constructor; [eapply fresh_weaken; eassumption | exact H2].
Qed.

(** A deep copy only adds objects. *)
Lemma deepcopy_subseteq (h h' : heap) (a g : loc) :
  deepcopy h a = (h', g) -> h ⊆ h'.
Proof.
  unfold deepcopy. destruct (h !! a) as [[cells|rows]|] eqn:Ea.
  - apply alloc_subseteq.
  - destruct (copy_rows h ∅ rows) as [h1 rows'] eqn:Ec. intros E.
    destruct (copy_rows_fresh h rows h ∅ h1 rows') as [H1 _];
      [reflexivity | intros r r' Hr; rewrite lookup_empty in Hr; discriminate | exact Ec |].
    etransitivity; [exact H1 | eapply alloc_subseteq, E].
  - intros [= <- <-]. reflexivity.
Qed.

(** Everything the copy reaches was free before the copy. *)
Lemma deepcopy_fresh (h h' : heap) (a g : loc) :
  deepcopy h a = (h', g) -> forall l, l ∈ reach h' g -> h !! l = None.
Proof.
  unfold deepcopy. destruct (h !! a) as [[cells|rows]|] eqn:Ea.
  - intros E l Hl. apply alloc_spec in E as [Hfresh ->].
    unfold reach in Hl. rewrite lookup_insert_eq in Hl.
    apply list_elem_of_singleton in Hl as ->. exact Hfresh.
  - destruct (copy_rows h ∅ rows) as [h1 rows'] eqn:Ec. intros E l Hl.
    destruct (copy_rows_fresh h rows h ∅ h1 rows') as [H1 H2];
      [reflexivity | intros r r' Hr; rewrite lookup_empty in Hr; discriminate | exact Ec |].
    apply alloc_spec in E as [Hfresh ->].
    unfold reach in Hl. rewrite lookup_insert_eq in Hl.
    apply elem_of_cons in Hl as [->|Hl].
    + eapply fresh_weaken; eassumption.
    + rewrite Forall_forall in H2. apply H2, Hl.
  - intros [= <- <-] l Hl. unfold reach in Hl. rewrite Ea in Hl.
    apply list_elem_of_singleton in Hl as ->. exact Ea.
Qed.

Lemma read_row_stored (h : heap) (r : loc) (cells : list Z) :
  h !! r = Some (ORow cells) -> read_row h r = cells.
Proof. unfold read_row. intros ->. reflexivity. Qed.

Lemma read_row_weaken (h h' : heap) (r : loc) :
  h ⊆ h' -> is_Some (h !! r) -> read_row h' r = read_row h r.
Proof.
  intros Hsub [o Ho]. unfold read_row.
  rewrite (lookup_weaken _ _ _ _ Ho Hsub), Ho. reflexivity.
Qed.

(** A valid grid reads the same in a larger store, where it is still
    valid. *)
Lemma valid_grid_weaken (h h' : heap) (a : loc) :
  h ⊆ h' -> valid_grid h a -> valid_grid h' a /\ read_grid h' a = read_grid h a.
Proof.
  intros Hsub (rows & Ha & Hrows). split.
  - exists rows. split; [eapply lookup_weaken; eassumption|].
    eapply Forall_impl; [exact Hrows|]. intros r (cells & Hr).
    exists cells. eapply lookup_weaken; eassumption.
  - unfold read_grid. rewrite (lookup_weaken _ _ _ _ Ha Hsub), Ha.
    apply map_ext_in. intros r Hr. apply read_row_weaken; [exact Hsub|].
    rewrite Forall_forall in Hrows. apply list_elem_of_In in Hr.
    destruct (Hrows r Hr) as (cells & Hc). eauto.
Qed.

(** The copies of the rows hold the cells of the rows. *)
Lemma copy_rows_values (h0 : heap) (rows : list loc) :
  forall (h : heap) (memo : gmap loc loc) (h' : heap) (out : list loc),
  h0 ⊆ h ->
  (forall r r', memo !! r = Some r' -> h !! r' = Some (ORow (read_row h0 r))) ->
  Forall (fun r => exists cells, h0 !! r = Some (ORow cells)) rows ->
  copy_rows h memo rows = (h', out) ->
  h ⊆ h' /\ Forall2 (fun r o => h' !! o = Some (ORow (read_row h0 r))) rows out.
Proof.
  induction rows as [|r rows IH]; intros h memo h' out Hsub Hmemo Hvalid E;
    cbn [copy_rows] in E.
  - injection E as <- <-. split; [reflexivity | constructor].
  - inversion Hvalid as [|? ? (cells & Hr) Hvalid']; subst.
    destruct (memo !! r) as [r'|] eqn:Em.
    + destruct (copy_rows h memo rows) as [h1 out1] eqn:Ec. injection E as <- <-.
      destruct (IH _ _ _ _ Hsub Hmemo Hvalid' Ec) as [H1 H2].
      split; [exact H1|]. constructor; [|exact H2].
      eapply lookup_weaken; [eapply Hmemo, Em | exact H1].
    + destruct (alloc h (ORow (read_row h r))) as [h1 r'] eqn:Ea.
      destruct (copy_rows h1 (<[r := r']> memo) rows) as [h2 out2] eqn:Ec.
      injection E as <- <-.
      pose proof (alloc_subseteq _ _ _ _ Ea) as Hs1.
      apply alloc_spec in Ea as [Hfresh ->].
      assert (Hrow : read_row h r = read_row h0 r).
      { apply read_row_weaken; [exact Hsub | eauto]. }
      assert (Hnew : <[r' := ORow (read_row h r)]> h !! r' = Some (ORow (read_row h0 r))).
      { rewrite lookup_insert_eq, Hrow. reflexivity. }
      destruct (IH (<[r' := ORow (read_row h r)]> h) (<[r := r']> memo) h2 out2)
        as [H1 H2].
      * etransitivity; eassumption.
      * intros q q' Hq. apply lookup_insert_Some in Hq as [[<- <-]|[_ Hq]].
        -- exact Hnew.
        -- eapply lookup_weaken; [eapply Hmemo, Hq | exact Hs1].
      * exact Hvalid'.
      * exact Ec.
      * split; [etransitivity; eassumption|]. constructor; [|exact H2].
        eapply lookup_weaken; eassumption.
Qed.

(** The deep copy of a valid grid is a valid grid of the same value. *)
Lemma deepcopy_read (h h' : heap) (a g : loc) :
  valid_grid h a -> deepcopy h a = (h', g) ->
  valid_grid h' g /\ read_grid h' g = read_grid h a.
Proof.
  intros (rows & Ha & Hrows). unfold deepcopy. rewrite Ha.
  destruct (copy_rows h ∅ rows) as [h1 rows'] eqn:Ec. intros E.
  destruct (copy_rows_values h rows h ∅ h1 rows') as [H1 H2];
    [reflexivity | intros r r' Hr; rewrite lookup_empty in Hr; discriminate
     | exact Hrows | exact Ec |].
  pose proof (alloc_subseteq _ _ _ _ E) as Hs. apply alloc_spec in E as [Hfresh ->].
  assert (H3 : Forall2 (fun r o => <[g := OGrid rows']> h1 !! o = Some (ORow (read_row h r)))
                       rows rows').
  { eapply Forall2_impl; [exact H2|]. intros r o Ho. cbv beta in Ho.
    eapply lookup_weaken; eassumption. }
  split.
  - exists rows'. split; [apply lookup_insert_eq|].
    generalize dependent (<[g := OGrid rows']> h1). intros hh _ H3. clear -H3.
    induction H3 as [|r o rs os Ho _ IH]; constructor;
      [eexists; exact Ho | exact IH].
  - unfold read_grid. rewrite lookup_insert_eq, Ha.
    generalize dependent (<[g := OGrid rows']> h1). intros hh _ H3. clear -H3.
    induction H3 as [|r o rs os Ho _ IH]; [reflexivity|].
    cbn [map]. rewrite IH, (read_row_stored _ _ _ Ho). reflexivity.
Qed.

End StoreFacts.

(** ** The repository is not touched *)

Module FrameFacts.
Import Text Json Numpy Store Evaluator StoreFacts.

(** The store an iteration leaves is the one the solver left. *)
Lemma loop_body_store (program : solver) (st : split_state) (ex : pair)
    (h h1 : heap) (g : loc) :
  deepcopy h (input ex) = (h1, g) ->
  (loop_body program st ex h).2 = (program h1 g).2.
Proof.
  intros Ed. unfold loop_body, _run_and_sanitize. rewrite Ed.
  destruct (program h1 g) as [[result|e] h2]; cbn [snd].
  - destruct (sanitize result) as [e|arr].
    + destruct (is_Exception e); reflexivity.
    + destruct (arrays_match _ _); reflexivity.
  - destruct (is_Exception e); reflexivity.
Qed.

Section Confined.

Variable P : loc -> Prop.
Variable program : solver.
Hypothesis Hconf : confined P program.

(** One iteration leaves the protected locations as they were. *)
Lemma loop_body_frame (st : split_state) (ex : pair) (h : heap) :
  (forall l, P l -> is_Some (h !! l)) ->
  forall l, P l -> (loop_body program st ex h).2 !! l = h !! l.
Proof.
  intros Halloc l Hl.
  destruct (deepcopy h (input ex)) as [h1 g] eqn:Ed.
  rewrite (loop_body_store program st ex h h1 g Ed).
  destruct (program h1 g) as [o h2] eqn:Ep. cbn [snd].
  destruct (Halloc l Hl) as [x Hx].
  transitivity (h1 !! l).
  - eapply Hconf; [exact Ep | exact Hl |].
    intros Hin. apply (deepcopy_fresh _ _ _ _ Ed) in Hin. congruence.
  - rewrite Hx. eapply lookup_weaken; [exact Hx | eapply deepcopy_subseteq, Ed].
Qed.

(** So does the whole loop. *)
Lemma verify_loop_frame (pairs : list pair) :
  forall (st : split_state) (h : heap),
  (forall l, P l -> is_Some (h !! l)) ->
  forall l, P l -> (verify_loop program st pairs h).2 !! l = h !! l.
Proof.
  induction pairs as [|ex pairs IH]; intros st h Halloc l Hl;
    cbn [verify_loop]; [reflexivity|].
  pose proof (loop_body_frame st ex h Halloc) as Hstep.
  destruct (loop_body program st ex h) as [[e|st1] h1]; cbn [snd] in *.
  - apply Hstep, Hl.
  - rewrite IH; [apply Hstep, Hl | | exact Hl].
    intros l' Hl'. rewrite (Hstep l' Hl'). apply Halloc, Hl'.
Qed.

End Confined.

Lemma verify_split_store (program : solver) (pairs : list pair) (h : heap) :
  (_verify_split program pairs h).2
  = (verify_loop program (mk_state 0 0 None []) pairs h).2.
Proof.
  unfold _verify_split.
  destruct (verify_loop _ _ _ _) as [[e|st] h']; reflexivity.
Qed.

(** The value of a grid depends on the objects it reaches only. *)
Lemma read_grid_ext (h h' : heap) (a : loc) :
  (forall l, l ∈ reach h a -> h' !! l = h !! l) ->
  read_grid h' a = read_grid h a /\ (valid_grid h a -> valid_grid h' a).
Proof.
  intros Heq. unfold read_grid, valid_grid, reach in *.
  assert (Ha : h' !! a = h !! a).
  { apply Heq. destruct (h !! a) as [[|]|]; left. }
  rewrite Ha. destruct (h !! a) as [[cells|rows]|] eqn:E.
  - split; [reflexivity|]. intros (rs & [=] & _).
  - split.
    + apply map_ext_in. intros r Hr. unfold read_row.
      rewrite Heq; [reflexivity|]. right. apply list_elem_of_In, Hr.
    + intros (rs & [= <-] & Hrows). exists rows. split; [reflexivity|].
      rewrite Forall_forall in Hrows |- *. intros r Hr.
      destruct (Hrows r Hr) as (cells & Hc). exists cells.
      rewrite Heq; [exact Hc | right; exact Hr].
  - split; [reflexivity|]. intros (rs & [=] & _).
Qed.

Lemma valid_grid_reach (h : heap) (a l : loc) :
  valid_grid h a -> l ∈ reach h a -> is_Some (h !! l).
Proof.
  intros (rows & Ha & Hrows) Hl. unfold reach in Hl. rewrite Ha in Hl.
  apply elem_of_cons in Hl as [->|Hl]; [eauto|].
  rewrite Forall_forall in Hrows. destruct (Hrows l Hl) as (cells & Hc). eauto.
Qed.

(** C6.  For every solver that can reach the grids of the pairs through
    its argument only, and every sequence of pairs whose grids are in the
    store: after the verification, however it ends, every object of every
    input and output grid is what it was, so every grid has the value it
    had; and at every call the solver is handed a copy made of new
    objects, none of them an object of the repository, whose value is the
    original value of the input, whatever the solver did to the copies
    it was handed before. *)
Theorem repository_unchanged (program : solver) (pairs : list pair) (h : heap) :
  confined (pair_locs h pairs) program ->
  (forall ex, ex ∈ pairs -> valid_grid h (input ex) /\ valid_grid h (output ex)) ->
  (forall l, pair_locs h pairs l ->
     (_verify_split program pairs h).2 !! l = h !! l)
  /\ (forall ex, ex ∈ pairs ->
       read_grid (_verify_split program pairs h).2 (input ex) = read_grid h (input ex)
       /\ read_grid (_verify_split program pairs h).2 (output ex)
          = read_grid h (output ex))
  /\ (forall ps ex qs st1 h1 h2 g,
       pairs = ps ++ ex :: qs ->
       verify_loop program (mk_state 0 0 None []) ps h = (inr st1, h1) ->
       deepcopy h1 (input ex) = (h2, g) ->
       read_grid h2 g = read_grid h (input ex)
       /\ forall l, l ∈ reach h2 g -> ~ pair_locs h pairs l).
Proof.
  intros Hconf Hvalid.
  assert (Halloc : forall l, pair_locs h pairs l -> is_Some (h !! l)).
  { intros l (ex & Hex & [Hl|Hl]); destruct (Hvalid ex Hex) as [Hi Ho].
    - exact (valid_grid_reach _ _ _ Hi Hl).
    - exact (valid_grid_reach _ _ _ Ho Hl). }
  assert (Hframe : forall l, pair_locs h pairs l ->
                     (_verify_split program pairs h).2 !! l = h !! l).
  { intros l Hl. rewrite verify_split_store.
    apply (verify_loop_frame _ program Hconf pairs _ h Halloc l Hl). }
  split; [exact Hframe|]. split.
  - intros ex Hex. split; apply read_grid_ext; intros l Hl; apply Hframe;
      exists ex; (split; [exact Hex|]); [left | right]; exact Hl.
  - intros ps ex qs st1 h1 h2 g -> Hps Hd.
    assert (Hex : ex ∈ ps ++ ex :: qs) by (apply elem_of_app; right; left).
    assert (Hh1 : forall l, pair_locs h (ps ++ ex :: qs) l -> h1 !! l = h !! l).
    { intros l Hl.
      pose proof (verify_loop_frame _ program Hconf ps (mk_state 0 0 None []) h Halloc l Hl)
        as Hf.
      rewrite Hps in Hf. exact Hf. }
    destruct (read_grid_ext h h1 (input ex)) as [Hread Hv].
    { intros l Hl. apply Hh1. exists ex. split; [exact Hex | left; exact Hl]. }
    destruct (deepcopy_read h1 h2 (input ex) g) as [_ Hcopy];
      [apply Hv, (Hvalid ex Hex) | exact Hd |].
    split; [congruence|].
    intros l Hl Hp. pose proof (deepcopy_fresh _ _ _ _ Hd l Hl) as Hnone.
    rewrite (Hh1 l Hp) in Hnone. destruct (Halloc l Hp) as [x Hx]. congruence.
Qed.

Lemma paint_rows_other (h : heap) (rows : list loc) (l : loc) :
  l ∉ rows -> Examples.paint_rows h rows !! l = h !! l.
Proof.
  unfold Examples.paint_rows. induction rows as [|r rows IH]; intros Hl; [reflexivity|].
  apply not_elem_of_cons in Hl as [Hne Hl]. cbn [foldr].
  rewrite lookup_insert_ne by congruence. apply IH, Hl.
Qed.

(** The painting solver writes to the rows of its argument only. *)
Lemma painting_solver_confined (P : loc -> Prop) : confined P Examples.painting_solver.
Proof.
  intros h a o h' E l _ Hl. unfold Examples.painting_solver, reach in *.
  destruct (h !! a) as [[cells|rows]|]; injection E as _ <-; try reflexivity.
  apply paint_rows_other. apply not_elem_of_cons in Hl as [_ Hl]. exact Hl.
Qed.

(** It does overwrite what it is given: called on the input grid of the
    repository itself, with no copy made, it would destroy it. *)
Lemma painting_solver_mutates_argument :
  read_grid (Examples.painting_solver Examples.square_heap
               (input Examples.square_pair)).2 (input Examples.square_pair)
  = [[9; 9]; [9; 9]].
Proof. vm_compute. reflexivity. Qed.

Lemma square_store_valid (ex : pair) :
  ex ∈ Examples.square_store.2 ->
  valid_grid Examples.square_heap (input ex) /\ valid_grid Examples.square_heap (output ex).
Proof.
  intros Hex. change Examples.square_store.2 with [mk_pair 3 6] in Hex.
  apply list_elem_of_singleton in Hex as ->. cbn [input output]. split.
  - exists [1%positive; 2%positive]. split; [reflexivity|].
    repeat constructor; eexists; reflexivity.
  - exists [4%positive; 5%positive]. split; [reflexivity|].
    repeat constructor; eexists; reflexivity.
Qed.

(** C6, witness: the painting solver on the pair whose grids are
    [[1, 2], [3, 4]]. *)
Lemma repository_unchanged_witness :
  read_grid (_verify_split Examples.painting_solver Examples.square_store.2
               Examples.square_heap).2 (input Examples.square_pair)
  = [[1; 2]; [3; 4]]
  /\ read_grid (_verify_split Examples.painting_solver Examples.square_store.2
                  Examples.square_heap).2 (output Examples.square_pair)
     = [[1; 2]; [3; 4]].
Proof.
  destruct (repository_unchanged Examples.painting_solver Examples.square_store.2
              Examples.square_heap (painting_solver_confined _) square_store_valid)
    as (_ & Hread & _).
  destruct (Hread Examples.square_pair) as [Hi Ho]; [left|].
  rewrite Hi, Ho. split; reflexivity.
Defined.

End FrameFacts.

(** ** A solver that returns its input passes where input and output
       agree *)

Module CopyFacts.
Import Text Json Numpy Store Evaluator StoreFacts RoundtripFacts.

(** A grid of small non-negative integers, returned as it is, is the
    expected grid cell for cell. *)
Lemma grid_ok_same (G : Grid) :
  Forall (Forall (fun x => 0 <= x < 10 ^ 16)) G ->
  grid_ok (PList (map (fun row => PList (map PInt row)) G)) G.
Proof.
  intros HG. exists (map (map PInt) G). split.
  - rewrite map_map. reflexivity.
  - induction HG as [|row G Hrow _ IH]; cbn [map]; constructor; [|exact IH].
    induction Hrow as [|x row Hx _ IHr]; cbn [map]; constructor; [|exact IHr].
    split; [exact Hx | left; reflexivity].
Qed.

Lemma verify_loop_copy (program : solver) (h0 : heap) (pairs : list pair) :
  returns_copy program ->
  (forall ex, ex ∈ pairs ->
     valid_grid h0 (input ex) /\ valid_grid h0 (output ex)
     /\ read_grid h0 (input ex) = read_grid h0 (output ex)
     /\ Forall (Forall (fun x => 0 <= x < 10 ^ 16)) (read_grid h0 (input ex))) ->
  forall (st : split_state) (h : heap),
  h0 ⊆ h ->
  exists h',
    verify_loop program st pairs h
    = (inr (mk_state (right st + length pairs) (wrong st)
                     (first_wrong_detail st) (err_tb st)), h')
    /\ h0 ⊆ h'.
Proof.
  intros Hcopy. induction pairs as [|ex pairs IH]; intros Hpairs st h Hsub.
  - exists h. cbn [verify_loop length]. rewrite Nat.add_0_r.
    destruct st; split; [reflexivity | exact Hsub].
  - destruct (Hpairs ex ltac:(left)) as (Hvi & Hvo & Hio & Hsmall).
    destruct (deepcopy h (input ex)) as [h1 g] eqn:Ed.
    destruct (valid_grid_weaken h0 h (input ex) Hsub Hvi) as [Hvi' Hri].
    destruct (deepcopy_read h h1 (input ex) g Hvi' Ed) as [_ Hrg].
    destruct (Hcopy h1 g) as (h2 & Ep & Hsub2).
    assert (Hsub02 : h0 ⊆ h2).
    { etransitivity; [exact Hsub|]. etransitivity; [|exact Hsub2].
      eapply deepcopy_subseteq, Ed. }
    destruct (valid_grid_weaken h0 h2 (output ex) Hsub02 Hvo) as [_ Hro].
    assert (Hok : grid_ok (PList (map (fun row => PList (map PInt row)) (read_grid h1 g)))
                          (read_grid h2 (output ex))).
    { rewrite Hrg, Hri, Hro, <- Hio. apply grid_ok_same, Hsmall. }
    pose proof (loop_body_grid_ok program st ex h h1 h2 g _ Ed Ep Hok) as Hb.
    destruct (IH (fun ex' Hex' => Hpairs ex' ltac:(right; exact Hex'))
                 (mk_state (S (right st)) (wrong st) (first_wrong_detail st) (err_tb st))
                 h2 Hsub02) as (h' & Hl & Hsub').
    exists h'. cbn [verify_loop]. rewrite Hb, Hl. cbn [right wrong first_wrong_detail err_tb length].
    rewrite Nat.add_succ_r. split; [reflexivity | exact Hsub'].
Qed.

(** C5.  For every sequence of pairs whose grids are in the store, made
    of small non-negative integers, the expected output of every pair
    being equal to its input, a solver that returns a copy of its input
    passes every pair: the dump of the copy has safe characters only,
    is read back as an equal value, and is found equal to the expected
    grid. *)
Theorem copy_passes_every_pair (program : solver) (pairs : list pair) (h : heap) :
  returns_copy program ->
  (forall ex, ex ∈ pairs ->
     valid_grid h (input ex) /\ valid_grid h (output ex)
     /\ read_grid h (input ex) = read_grid h (output ex)
     /\ Forall (Forall (fun x => 0 <= x < 10 ^ 16)) (read_grid h (input ex))) ->
  exists h', _verify_split program pairs h = (inr (length pairs, 0%nat, None, []), h').
Proof.
  intros Hcopy Hpairs.
  destruct (verify_loop_copy program h pairs Hcopy Hpairs (mk_state 0 0 None []) h)
    as (h' & Hl & _); [reflexivity|].
  exists h'. unfold _verify_split. rewrite Hl. reflexivity.
Qed.

Lemma copy_solver_returns_copy : returns_copy Examples.copy_solver.
Proof. intros h a. exists h. split; reflexivity. Qed.

Lemma square_store_same (ex : pair) :
  ex ∈ Examples.square_store.2 ->
  valid_grid Examples.square_heap (input ex) /\ valid_grid Examples.square_heap (output ex)
  /\ read_grid Examples.square_heap (input ex) = read_grid Examples.square_heap (output ex)
  /\ Forall (Forall (fun x => 0 <= x < 10 ^ 16)) (read_grid Examples.square_heap (input ex)).
Proof.
  intros Hex. destruct (FrameFacts.square_store_valid ex Hex) as [Hi Ho].
  split; [exact Hi|]. split; [exact Ho|].
  change Examples.square_store.2 with [mk_pair 3 6] in Hex.
  apply list_elem_of_singleton in Hex as ->. split; [reflexivity|].
  change (read_grid Examples.square_heap (input (mk_pair 3 6))) with [[1; 2]; [3; 4]].
  repeat constructor; (lia || reflexivity).
Qed.

(** C5, witness: the copying solver on the pair whose two grids are
    [[1, 2], [3, 4]]. *)
Lemma copy_passes_every_pair_witness :
  exists h',
    _verify_split Examples.copy_solver Examples.square_store.2 Examples.square_heap
    = (inr (length Examples.square_store.2, 0%nat, None, []), h').
Proof.
  apply (copy_passes_every_pair Examples.copy_solver Examples.square_store.2
           Examples.square_heap copy_solver_returns_copy square_store_same).
Defined.

End CopyFacts.

(** ** The grid helpers of evaluator.py *)

Module GridFacts.
Import Text Json Numpy Store Evaluator Grids NumpyFacts StoreFacts.

Lemma cells_differ_false (ra rb : list Z) :
  length ra = length rb ->
  existsb (fun '(xa, xb) => negb (xa =? xb)) (zip ra rb) = false <-> ra = rb.
Proof.
  revert rb. induction ra as [|x ra IH]; intros [|y rb] Hlen; cbn in Hlen |- *;
    try discriminate.
  - split; reflexivity.
  - injection Hlen as Hlen. rewrite orb_false_iff, negb_false_iff, Z.eqb_eq, (IH rb Hlen).
    split; [intros [-> ->]; reflexivity | intros [= -> ->]; split; reflexivity].
Qed.

Lemma rows_equal_spec (a b : Grid) :
  length a = length b -> rows_equal (zip a b) = true <-> a = b.
Proof.
  revert b. induction a as [|ra a IH]; intros [|rb b] Hlen; cbn in Hlen |- *;
    try discriminate.
  - split; reflexivity.
  - injection Hlen as Hlen.
    destruct (Nat.eqb_spec (length ra) (length rb)) as [El|Nl]; cbn [negb].
    + destruct (existsb _ (zip ra rb)) eqn:Ex.
      * split; [discriminate|]. intros [= -> ->].
        assert (existsb (fun '(xa, xb) => negb (xa =? xb)) (zip rb rb) = false)
          by (apply cells_differ_false; reflexivity).
        congruence.
      * apply cells_differ_false in Ex as ->; [|exact El].
        rewrite (IH b Hlen). split; [intros ->; reflexivity | intros [= ->]; reflexivity].
    + split; [discriminate|]. intros [= -> ->]. contradiction.
Qed.

Lemma grids_equal_spec (a b : Grid) : _grids_equal a b = true <-> a = b.
Proof.
  unfold _grids_equal.
  destruct (Nat.eqb_spec (length a) (length b)) as [El|Nl]; cbn [negb].
  - apply rows_equal_spec, El.
  - split; [discriminate|]. intros ->. contradiction.
Qed.

(** X1.  [_grids_equal(a, b)] is true exactly when the two grids are the
    same list of rows: the same number of rows, every row as long as the
    row at the same position, and equal cells everywhere; ragged and empty
    grids included. *)
Theorem grids_equal_iff (a b : Grid) : _grids_equal a b = true <-> a = b.
Proof. exact (grids_equal_spec a b). Qed.

Lemma py_eqb_int_row (ra rb : list Z) :
  py_eqb (JList (map JInt ra)) (JList (map JInt rb)) = true <-> ra = rb.
Proof.
  rewrite py_eqb_list. revert rb.
  induction ra as [|x ra IH]; intros [|y rb]; cbn; try (split; (reflexivity || discriminate)).
  rewrite andb_true_iff, Z.eqb_eq, IH.
  split; [intros [-> ->]; reflexivity | intros [= -> ->]; split; reflexivity].
Qed.

Lemma py_eqb_grid_value (a b : Grid) :
  py_eqb (grid_value a) (grid_value b) = true <-> a = b.
Proof.
  unfold grid_value. rewrite py_eqb_list. revert b.
  induction a as [|ra a IH]; intros [|rb b]; cbn [map all_eq];
    try (split; (reflexivity || discriminate)).
  rewrite andb_true_iff, py_eqb_int_row, IH.
  split; [intros [-> ->]; reflexivity | intros [= -> ->]; split; reflexivity].
Qed.

(** X2.  On grids of integers the helper [_grids_equal], which the
    verifier does not call, gives the verdict of the comparison the
    verifier makes: equal shapes and equal elements of the two arrays
    [np.array(a, dtype=object)] and [np.array(b, dtype=object)]. *)
Theorem grids_equal_is_array_comparison (a b : Grid) :
  _grids_equal a b = arrays_match (array (grid_value a)) (array (grid_value b)).
Proof.
  rewrite arrays_match_py_eqb.
  destruct (_grids_equal a b) eqn:E1, (py_eqb (grid_value a) (grid_value b)) eqn:E2;
    try reflexivity.
  - apply grids_equal_spec in E1. apply py_eqb_grid_value in E1. congruence.
  - apply py_eqb_grid_value in E2. apply grids_equal_spec in E2. congruence.
Qed.

(** Slicing the rows of a grid: every new row is at a location that was
    free, no two of them are the same object, and each holds the cells of
    the row it was made from. *)
Lemma clone_rows_spec (h0 : heap) (rows : list loc) :
  forall h : heap,
  h0 ⊆ h ->
  Forall (fun r => exists cells, h0 !! r = Some (ORow cells)) rows ->
  exists h' out,
    clone_rows h rows = Some (h', out)
    /\ h ⊆ h'
    /\ Forall (fun o => h !! o = None) out
    /\ NoDup out
    /\ Forall2 (fun r o => h' !! o = Some (ORow (read_row h0 r))) rows out.
Proof.
  induction rows as [|r rows IH]; intros h Hsub Hvalid; cbn [clone_rows].
  - exists h, []. split; [reflexivity|]. split; [reflexivity|].
    split; [constructor|]. split; constructor.
  - inversion Hvalid as [|? ? (cells & Hr) Hvalid']; subst.
    rewrite (lookup_weaken _ _ _ _ Hr Hsub).
    destruct (alloc h (ORow cells)) as [h1 r'] eqn:Ea.
    pose proof (alloc_subseteq _ _ _ _ Ea) as Hs1.
    apply alloc_spec in Ea as [Hfresh ->].
    destruct (IH (<[r' := ORow cells]> h)) as (h2 & out & Ec & Hs2 & Hf & Hnd & Hv);
      [etransitivity; eassumption | exact Hvalid' |].
    rewrite Ec. cbn. exists h2, (r' :: out). split; [reflexivity|].
    split; [etransitivity; eassumption|]. split; [|split].
    + constructor; [exact Hfresh|].
      eapply Forall_impl; [exact Hf|]. intros o Ho. cbv beta in Ho.
      eapply fresh_weaken; eassumption.
    + constructor; [|exact Hnd]. intros Hin.
      rewrite Forall_forall in Hf. specialize (Hf r' Hin).
      rewrite lookup_insert_eq in Hf. discriminate.
    + constructor; [|exact Hv].
      eapply lookup_weaken; [|exact Hs2].
      rewrite lookup_insert_eq, (read_row_stored _ _ _ Hr). reflexivity.
Qed.

(** X3.  [_clone_grid] on a grid of the store succeeds and returns a grid
    of the same value made of new objects only: the store it leaves
    extends the old one, the outer list and the rows of the result were
    free locations, and no two of them are the same object, also where the
    original uses one row object twice. *)
Theorem clone_grid_fresh_copy (h : heap) (g : loc) :
  valid_grid h g ->
  exists h' g',
    _clone_grid h g = Some (h', g')
    /\ h ⊆ h'
    /\ read_grid h' g' = read_grid h g
    /\ NoDup (reach h' g')
    /\ forall l, l ∈ reach h' g' -> h !! l = None.
Proof.
  intros (rows & Hg & Hrows). unfold _clone_grid. rewrite Hg.
  destruct (clone_rows_spec h rows h) as (h1 & out & Ec & Hs1 & Hf & Hnd & Hv);
    [reflexivity | exact Hrows |].
  rewrite Ec. cbn [fmap option_fmap option_map].
  destruct (alloc h1 (OGrid out)) as [h2 g'] eqn:Ea.
  pose proof (alloc_subseteq _ _ _ _ Ea) as Hs2.
  apply alloc_spec in Ea as [Hfresh ->].
  exists (<[g' := OGrid out]> h1), g'. split; [reflexivity|].
  split; [etransitivity; eassumption|].
  assert (Hreach : reach (<[g' := OGrid out]> h1) g' = g' :: out).
  { unfold reach. rewrite lookup_insert_eq. reflexivity. }
  rewrite Hreach. split; [|split].
  - unfold read_grid. rewrite lookup_insert_eq, Hg.
    assert (H3 : Forall2 (fun r o => <[g' := OGrid out]> h1 !! o
                                     = Some (ORow (read_row h r))) rows out).
    { eapply Forall2_impl; [exact Hv|]. intros r o Ho. cbv beta in Ho.
      eapply lookup_weaken; eassumption. }
    generalize dependent (<[g' := OGrid out]> h1). intros hh _ _ H3. clear -H3.
    induction H3 as [|r o rs os Ho _ IH]; [reflexivity|].
    cbn [map]. rewrite IH, (read_row_stored _ _ _ Ho). reflexivity.
  - constructor; [|exact Hnd]. intros Hin.
    rewrite Forall2_lookup in Hv. apply list_elem_of_lookup in Hin as [i Hi].
    specialize (Hv i). rewrite Hi in Hv. inversion Hv as [r o Ho|]; subst.
    rewrite Hfresh in Ho. discriminate.
  - intros l Hl. apply elem_of_cons in Hl as [->|Hl].
    + eapply fresh_weaken; eassumption.
    + rewrite Forall_forall in Hf. apply Hf, Hl.
Qed.

Lemma shared_row_heap_valid : valid_grid Samples.shared_row_heap 2%positive.
Proof.
  exists [1%positive; 1%positive]. split; [reflexivity|].
  repeat constructor; eexists; reflexivity.
Qed.

(** X3, witness: the grid [[[1, 2]] * 2], whose two rows are one
    object. *)
Lemma clone_grid_fresh_copy_witness :
  exists h' g',
    _clone_grid Samples.shared_row_heap 2%positive = Some (h', g')
    /\ Samples.shared_row_heap ⊆ h'
    /\ read_grid h' g' = read_grid Samples.shared_row_heap 2%positive
    /\ NoDup (reach h' g')
    /\ forall l, l ∈ reach h' g' -> Samples.shared_row_heap !! l = None.
Proof. apply (clone_grid_fresh_copy Samples.shared_row_heap 2%positive shared_row_heap_valid). Defined.

End GridFacts.

(** ** What the sanitising step accepts *)

Module SanitizeFacts.
Import Text Json Numpy Store Evaluator Grids RoundtripFacts.

Lemma all_some_map_ext {A B : Type} (f g : A -> option B) (l : list A) :
  Forall (fun x => f x = g x) l -> all_some (map f l) = all_some (map g l).
Proof.
  induction 1 as [|x l Hx _ IH]; [reflexivity|].
  cbn [map all_some]. rewrite Hx, IH. reflexivity.
Qed.

Lemma dumps_tuples_as_lists (v : pyval) : dumps (tuples_as_lists v) = dumps v.
Proof.
  induction v as [| | | | |items IH|items IH|items IH|] using pyval_nested_ind;
    try reflexivity.
  - cbn [tuples_as_lists dumps]. rewrite map_map. f_equal.
    apply all_some_map_ext, IH.
  - cbn [tuples_as_lists dumps]. rewrite map_map. f_equal.
    apply all_some_map_ext, IH.
  - cbn [tuples_as_lists dumps]. rewrite map_map. f_equal.
    apply all_some_map_ext.
    eapply Forall_impl; [exact IH|]. intros [k x] Hx. cbn in Hx |- *.
    rewrite Hx. reflexivity.
Qed.

(** X4.  Tuples are as good as lists: whatever value the solver returns,
    lines 47-51 of [_run_and_sanitize] end the same way, with the same
    array or the same exception, on the value in which every tuple, at any
    depth, is replaced by the list of its items. *)
Theorem tuples_count_as_lists (v : pyval) :
  sanitize (tuples_as_lists v) = sanitize v.
Proof. unfold sanitize. rewrite dumps_tuples_as_lists. reflexivity. Qed.

(** *** Replacement, piece by piece *)

Lemma replace_app_absent (c0 : ascii) (old new a b : text) :
  (forall c, In c a -> c <> c0) ->
  replace (c0 :: old) new (a ++ b) = a ++ replace (c0 :: old) new b.
Proof.
  unfold replace. induction a as [|c a IH]; intros H; [reflexivity|].
  cbn [app replace_from starts_with].
  destruct (Ascii.eqb_spec c0 c) as [->|_].
  - exfalso. apply (H c); [left|]; reflexivity.
  - f_equal. apply IH. intros c' Hc'. apply H. right. exact Hc'.
Qed.

Lemma replace_from_skip (old new x b : text) :
  replace_from old new (length x) (x ++ b) = replace_from old new 0 b.
Proof. induction x as [|c x IH]; [reflexivity | exact IH]. Qed.

Lemma starts_with_app (old b : text) : starts_with old (old ++ b) = true.
Proof.
  induction old as [|c old IH]; [reflexivity|].
  cbn [app starts_with]. rewrite Ascii.eqb_refl. exact IH.
Qed.

Lemma replace_app_match (c0 : ascii) (old new b : text) :
  replace (c0 :: old) new ((c0 :: old) ++ b) = new ++ replace (c0 :: old) new b.
Proof.
  unfold replace. change ((c0 :: old) ++ b) with (c0 :: old ++ b).
  cbn [replace_from]. change (c0 :: old ++ b) with ((c0 :: old) ++ b).
  rewrite starts_with_app. cbn [length]. rewrite Nat.sub_1_r. cbn [Nat.pred].
  rewrite replace_from_skip. reflexivity.
Qed.

(** A replacement that passes over brackets, commas and spaces, and
    rewrites a cell written by [tx] as [tx'] writes it, rewrites a whole
    grid cell by cell. *)
Section Cellwise.
Context {A : Type} (R : text -> text) (tx tx' : A -> text).
Hypothesis R_nil : R [] = [].
Hypothesis R_open : forall k, R ("["%char :: k) = "["%char :: R k.
Hypothesis R_close : forall k, R ("]"%char :: k) = "]"%char :: R k.
Hypothesis R_sep : forall k, R (lit ", " ++ k) = lit ", " ++ R k.
Hypothesis R_cell : forall c k, R (tx c ++ k) = tx' c ++ R k.

Lemma cellwise_join {B : Type} (f f' : B -> text) (l : list B) (k : text) :
  (forall x k', R (f x ++ k') = f' x ++ R k') ->
  R (join_comma (map f l) ++ k) = join_comma (map f' l) ++ R k.
Proof.
  intros Hf. induction l as [|x l IH]; [reflexivity|].
  destruct l as [|y l].
  - cbn [map join_comma]. apply Hf.
  - change (join_comma (map f (x :: y :: l)))
      with (f x ++ lit ", " ++ join_comma (map f (y :: l))).
    change (join_comma (map f' (x :: y :: l)))
      with (f' x ++ lit ", " ++ join_comma (map f' (y :: l))).
    rewrite <- !app_assoc, Hf, R_sep, IH. reflexivity.
Qed.

Lemma cellwise_grid (g : list (list A)) : R (grid_text tx g) = grid_text tx' g.
Proof.
  unfold grid_text. rewrite R_open. f_equal.
  rewrite (cellwise_join _ (fun row => "["%char :: join_comma (map tx' row) ++ ["]"%char])).
  - rewrite R_close, R_nil. reflexivity.
  - intros row k'. cbn [app]. rewrite R_open. f_equal.
    rewrite <- !app_assoc. rewrite (cellwise_join tx tx') by exact R_cell.
    cbn [app]. rewrite R_close. reflexivity.
Qed.
End Cellwise.

(** *** Cells that are booleans *)

Lemma str_int_chars (n : Z) (c : ascii) :
  In c (str_int n) -> c = "-"%char \/ is_digit c = true.
Proof.
  pose proof (TextFacts.str_N_all_digits (Z.abs_N n)) as Hd.
  rewrite forallb_forall in Hd. unfold str_int.
  destruct (n <? 0); [intros [<-|Hc]|intros Hc]; auto.
Qed.

Lemma str_int_no_letter (n : Z) (c0 : ascii) :
  c0 <> "-"%char -> is_digit c0 = false ->
  forall c, In c (str_int n) -> c <> c0.
Proof.
  intros H1 H2 c Hc ->. apply str_int_chars in Hc as [->|Hc]; congruence.
Qed.

Lemma all_some_total {A B : Type} (f : A -> B) (l : list A) :
  all_some (map (fun x => Some (f x)) l) = Some (map f l).
Proof.
  induction l as [|x l IH]; [reflexivity|]. cbn [map all_some]. rewrite IH. reflexivity.
Qed.

Lemma dumps_int_grid (g : Grid) :
  dumps (Examples.grid_pyval g) = Some (grid_text str_int g).
Proof.
  unfold Examples.grid_pyval, grid_text. cbn [dumps]. rewrite map_map.
  rewrite (all_some_map_ext _
             (fun row => Some ("["%char :: join_comma (map str_int row) ++ ["]"%char]))).
  - rewrite all_some_total. reflexivity.
  - apply Forall_forall. intros row _. cbn [dumps]. rewrite map_map.
    change (fun x : Z => dumps (PInt x)) with (fun x : Z => Some (str_int x)).
    rewrite all_some_total. reflexivity.
Qed.

Lemma dumps_cells (g : list (list cell)) :
  dumps (cells_pyval g) = Some (grid_text cell_text g).
Proof.
  unfold cells_pyval, grid_text. cbn [dumps]. rewrite map_map.
  rewrite (all_some_map_ext _
             (fun row => Some ("["%char :: join_comma (map cell_text row) ++ ["]"%char]))).
  - rewrite all_some_total. reflexivity.
  - apply Forall_forall. intros row _. cbn [dumps]. rewrite map_map.
    rewrite (all_some_map_ext _ (fun c => Some (cell_text c))).
    + rewrite all_some_total. reflexivity.
    + apply Forall_forall. intros [[|]|n] _; reflexivity.
Qed.

Ltac absent_char :=
  let c := fresh "c" in let Hc := fresh "Hc" in
  intros c Hc; cbn in Hc;
  repeat (destruct Hc as [<-|Hc]; [discriminate|]); contradiction.

Lemma replace_true_cells (g : list (list cell)) :
  replace (lit "true") (lit "1") (grid_text cell_text g) = grid_text cell_text_1 g.
Proof.
  change (lit "true") with ("t"%char :: lit "rue").
  apply cellwise_grid.
  - reflexivity.
  - intros k. apply (replace_app_absent _ _ _ ["["%char]). absent_char.
  - intros k. apply (replace_app_absent _ _ _ ["]"%char]). absent_char.
  - intros k. apply (replace_app_absent _ _ _ (lit ", ")). absent_char.
  - intros [[|]|n] k.
    + apply replace_app_match.
    + apply replace_app_absent. absent_char.
    + apply replace_app_absent, str_int_no_letter; [discriminate | reflexivity].
Qed.

Lemma replace_false_cells (g : list (list cell)) :
  replace (lit "false") (lit "0") (grid_text cell_text_1 g)
  = grid_text (fun c => str_int (cell_int c)) g.
Proof.
  change (lit "false") with ("f"%char :: lit "alse").
  apply cellwise_grid.
  - reflexivity.
  - intros k. apply (replace_app_absent _ _ _ ["["%char]). absent_char.
  - intros k. apply (replace_app_absent _ _ _ ["]"%char]). absent_char.
  - intros k. apply (replace_app_absent _ _ _ (lit ", ")). absent_char.
  - intros [[|]|n] k.
    + apply (replace_app_absent _ _ _ (lit "1")). absent_char.
    + apply replace_app_match.
    + apply replace_app_absent, str_int_no_letter; [discriminate | reflexivity].
Qed.

Lemma normalize_bools_int_grid (g : Grid) :
  normalize_bools (grid_text str_int g) = grid_text str_int g.
Proof.
  unfold normalize_bools.
  change (lit "true") with ("t"%char :: lit "rue").
  change (lit "false") with ("f"%char :: lit "alse").
  assert (H : forall c0 new, c0 <> "-"%char -> is_digit c0 = false ->
              c0 <> "["%char -> c0 <> "]"%char -> c0 <> ","%char -> c0 <> " "%char ->
              forall old, replace (c0 :: old) new (grid_text str_int g) = grid_text str_int g).
  { intros c0 new H1 H2 H3 H4 H5 H6 old. apply cellwise_grid.
    - reflexivity.
    - intros k. apply (replace_app_absent _ _ _ ["["%char]).
      intros c [<-|[]]. congruence.
    - intros k. apply (replace_app_absent _ _ _ ["]"%char]).
      intros c [<-|[]]. congruence.
    - intros k. apply (replace_app_absent _ _ _ (lit ", ")).
      intros c [<-|[<-|[]]]; congruence.
    - intros n k. apply replace_app_absent, str_int_no_letter; assumption. }
  rewrite !H by (discriminate || reflexivity). reflexivity.
Qed.

(** X5.  Booleans count as the integers 1 and 0: whatever grid of
    booleans and integers the solver returns, lines 47-51 of
    [_run_and_sanitize] end as they do on the grid of integers in which
    [True] is written 1 and [False] is written 0. *)
Theorem booleans_count_as_integers (g : list (list cell)) :
  sanitize (cells_pyval g) = sanitize (Examples.grid_pyval (map (map cell_int) g)).
Proof.
  unfold sanitize. rewrite dumps_cells, dumps_int_grid.
  assert (E : normalize_bools (grid_text cell_text g)
              = normalize_bools (grid_text str_int (map (map cell_int) g))).
  { rewrite normalize_bools_int_grid. unfold normalize_bools.
    rewrite replace_true_cells, replace_false_cells.
    unfold grid_text. rewrite map_map. do 3 f_equal.
    apply map_ext. intros row. rewrite map_map. reflexivity. }
  rewrite E. reflexivity.
Qed.

(** *** Grids of integers *)












End SanitizeFacts.

(** ** The table helpers of compare_solutions.py *)

Module TableFacts.
Import Text Tables.

(** X7.  For a width [w] that is not negative, [_pad(s, w)] has exactly
    [w] characters: the first [min(len(s), w)] characters of [s], followed
    by spaces only. *)
Theorem pad_width (s : text) (w : Z) :
  0 <= w ->
  length (_pad s w) = Z.to_nat w
  /\ take (length s) (_pad s w) = take (Z.to_nat w) s
  /\ drop (length s) (_pad s w) = replicate (Z.to_nat w - length s) " "%char.
Proof.
  intros Hw. unfold _pad, slice_to.
  destruct (Z.ltb_spec w (Z.of_nat (length s))) as [Hlt|Hge].
  - destruct (Z.ltb_spec w 0) as [?|_]; [lia|].
    assert (Hn : (Z.to_nat w <= length s)%nat) by lia.
    split; [|split].
    + rewrite length_take. lia.
    + apply take_ge. rewrite length_take. lia.
    + rewrite drop_ge by (rewrite length_take; lia).
      replace (Z.to_nat w - length s)%nat with 0%nat by lia. reflexivity.
  - assert (Hn : (length s <= Z.to_nat w)%nat) by lia.
    split; [|split].
    + rewrite length_app, length_replicate. lia.
    + rewrite take_app_length, take_ge by lia. reflexivity.
    + rewrite drop_app_length. f_equal. lia.
Qed.

(** X7, witness: a name of five characters in a column of eight. *)
Lemma pad_width_witness :
  length (_pad (lit "Pass%") 8) = Z.to_nat 8
  /\ take (length (lit "Pass%")) (_pad (lit "Pass%") 8) = take (Z.to_nat 8) (lit "Pass%")
  /\ drop (length (lit "Pass%")) (_pad (lit "Pass%") 8)
     = replicate (Z.to_nat 8 - length (lit "Pass%")) " "%char.
Proof. apply (pad_width (lit "Pass%") 8). lia. Defined.

End TableFacts.

(** ** One task: [evaluate_task] *)

Module SingleFacts.
Import Text Loader Store Evaluator Import_ Report Tasks Single Score ScoreFacts.

(** A conversion that succeeds on a positive integer gives at least
    one. *)
Lemma float_of_nonneg_pos (n v : Z) :
  1 <= n -> float_of_nonneg n = Some v -> 1 <= v.
Proof.
  intros H1. unfold float_of_nonneg.
  destruct (Z.eqb_spec n 0) as [->|_]; [lia|].
  destruct (Z.leb_spec (Z.log2 n + 1) 53) as [|Hbits]; [intros [= <-]; lia|].
  set (l := Z.log2 n) in *.
  assert (Hspec : 2 ^ l <= n < 2 ^ Z.succ l) by (apply Z.log2_spec; lia).
  replace (l + 1 - 53) with (l - 52) by lia.
  set (sh := l - 52).
  assert (Hd : 0 < 2 ^ sh) by (apply Z.pow_pos_nonneg; unfold sh; lia).
  assert (Hl : 2 ^ l = 2 ^ 52 * 2 ^ sh).
  { rewrite <- Z.pow_add_r by (unfold sh; lia). f_equal. unfold sh. lia. }
  pose proof (round_half_even_bounds n (2 ^ sh) ltac:(lia) Hd) as [Hlo _].
  assert (Hq1 : 2 ^ 52 <= n / 2 ^ sh) by (apply Z.div_le_lower_bound; lia).
  destruct (2 ^ 1024 <=? _); [discriminate|]. intros [= <-]. nia.
Qed.

Lemma float_of_int_pos (n : Z) (s : float) :
  1 <= n -> float_of_int n = Some s -> (1 <= s)%Q.
Proof.
  intros H1. unfold float_of_int. destruct (Z.ltb_spec n 0) as [|_]; [lia|].
  destruct (float_of_nonneg n) as [v|] eqn:E; [|discriminate].
  intros [= <-]. apply float_of_nonneg_pos in E; [|exact H1].
  unfold Qle. simpl. lia.
Qed.

(** A score that was computed tells the verdict. *)
Lemma score_tells_verdict (n : Z) (ok : bool) (sc : float) :
  score_for_length n ok = Some sc ->
  (ok = true <-> (1 <= sc)%Q) /\ (ok = false <-> sc = lit_0_001).
Proof.
  unfold score_for_length. destruct ok; cbn [negb].
  - intros E.
    assert (H1 : 1 <= (if 1 <? 2500 - n then 2500 - n else 1))
      by (destruct (Z.ltb_spec 1 (2500 - n)); lia).
    pose proof (float_of_int_pos _ _ H1 E) as Hs.
    split; [split; auto|]. split; [discriminate|]. intros ->.
    exfalso. apply (Qlt_not_le _ _ lit_0_001_below_one), Hs.
  - intros [= <-]. split; [|split; reflexivity]. split; [discriminate|].
    intros H. exfalso. apply (Qlt_not_le _ _ lit_0_001_below_one), H.
Qed.

Lemma evaluate_with_result (program : solver) (file_path : text)
    (agi gen : list pair) (fs : filesystem) (h h' : heap)
    (n : Z) (sc : float) (ok : bool) (a g : nat * nat) (tb : text) :
  evaluate_with program file_path agi gen fs h = (inr (n, sc, ok, a, g, tb), h') ->
  get_file_bytes fs file_path = inr n
  /\ score_for_length n ok = Some sc
  /\ ok = (Nat.eqb (snd a) 0 && Nat.eqb (snd g) 0).
Proof.
  unfold evaluate_with.
  destruct (_verify_split program agi h) as [[e|[[[ar aw] ad] atb]] h1]; [discriminate|].
  destruct (_verify_split program gen h1) as [[e|[[[gr gw] gd] gtb]] h2]; [discriminate|].
  destruct (get_file_bytes fs file_path) as [e|n0]; [discriminate|].
  destruct (score_for_length n0 _) as [s0|] eqn:Es; [|discriminate].
  intros [= <- <- <- <- <- _ _]. auto.
Qed.

(** X13.  When [evaluate_task] returns [(passed_all, task_score,
    file_len)]: the solver file exists at
    [submission/task{tid:03d}.py] and [file_len] is its size;
    the score is [score_for_length(file_len, passed_all)]; and the score
    alone tells the verdict: it is at least 1 exactly when every pair
    passed, and it is the float 0.001 exactly when some pair failed. *)
Theorem evaluate_task_result (w : world) (task_id : Z) (mods mods' : registry)
    (h h' : heap) (passed_all : bool) (task_score : float) (file_len : Z) :
  evaluate_task w task_id mods h = (inr (passed_all, task_score, file_len), mods', h') ->
  (exists art,
     solver_files w (path_join (SUBMISSION_DIR w) (solver_file_name task_id)) = Some art
     /\ file_len = nbytes art)
  /\ score_for_length file_len passed_all = Some task_score
  /\ (passed_all = true <-> (1 <= task_score)%Q)
  /\ (passed_all = false <-> task_score = lit_0_001).
Proof.
  unfold evaluate_task.
  destruct (load_task _ _ _ task_id h) as [[e|tjson] h1]; [discriminate|].
  destruct (_import_solver _ _ _ _) as [[e|[program file_path]] mods1] eqn:Ei;
    [discriminate|].
  destruct (evaluate_with _ _ _ _ _ _) as [[e|[[[[[n sc] ok] a] g] tb]] h2] eqn:Ew;
    [discriminate|].
  intros [= <- <- <- _ _].
  apply evaluate_with_result in Ew as (Hb & Hs & _).
  unfold _import_solver, import_at in Ei.
  destruct (solver_files w _) as [art|] eqn:Ef; [|discriminate].
  assert (Hp : file_path = path_join (SUBMISSION_DIR w) (solver_file_name task_id)).
  { destruct (exec_module art) as [e|[[p|]|]]; try discriminate.
    injection Ei as _ <- _. reflexivity. }
  subst file_path. unfold get_file_bytes in Hb. rewrite Ef in Hb. injection Hb as <-.
  split; [eauto|]. split; [exact Hs|]. exact (score_tells_verdict _ _ _ Hs).
Qed.

(** On task 1 of the sample repository [evaluate_task] returns. *)
Lemma sample_task_returns :
  exists mods' h',
    evaluate_task Samples.sample_world 1 ∅ Samples.sample_heap
    = (inr (true, inject_Z 2400, 100), mods', h').
Proof.
  assert (H : (evaluate_task Samples.sample_world 1 ∅ Samples.sample_heap).1.1
              = inr (true, inject_Z 2400, 100)) by (vm_compute; reflexivity).
  destruct (evaluate_task _ _ _ _) as [[res mods'] h']. cbn in H. subst res. eauto.
Qed.

(** X13, witness: task 1 of the sample repository, solved in 100
    bytes. *)
Lemma evaluate_task_result_witness :
  (exists art,
     solver_files Samples.sample_world
       (path_join (SUBMISSION_DIR Samples.sample_world) (solver_file_name 1)) = Some art
     /\ 100 = nbytes art)
  /\ score_for_length 100 true = Some (inject_Z 2400)
  /\ (true = true <-> (1 <= inject_Z 2400)%Q)
  /\ (true = false <-> inject_Z 2400 = lit_0_001).
Proof.
  destruct sample_task_returns as (mods' & h' & E).
  exact (evaluate_task_result _ _ _ _ _ _ _ _ _ E).
Defined.

(** X14.  The record [eval_all._eval_one] makes of a task whose solver
    file is listed agrees with [evaluate_task]: when [evaluate_task]
    returns [(passed_all, task_score, file_len)] from some state,
    [_eval_one(task_id, True)] from the same state returns a record with
    these three values under ["passed"], ["score"] and ["bytes"], and
    leaves the same registry of modules and the same store. *)
Theorem eval_one_agrees_with_evaluate_task (w : world) (task_id : Z)
    (mods mods' : registry) (h h' : heap)
    (passed_all : bool) (task_score : float) (file_len : Z) :
  evaluate_task w task_id mods h = (inr (passed_all, task_score, file_len), mods', h') ->
  exists m,
    Batch._eval_one w task_id true mods h = (inr m, mods', h')
    /\ exists_ m = true /\ passed m = passed_all
    /\ score m = task_score /\ bytes m = file_len.
Proof.
  unfold evaluate_task, Batch._eval_one, EvalAll._eval_one. cbn [negb].
  destruct (load_task _ _ _ task_id h) as [[e|tjson] h1]; [discriminate|].
  destruct (_import_solver _ _ _ _) as [[e|[program file_path]] mods1]; [discriminate|].
  destruct (evaluate_with _ _ _ _ _ _) as [[e|[[[[[n sc] ok] a] g] tb]] h2];
    [discriminate|].
  intros [= <- <- <- <- <-]. eexists. split; [reflexivity|]. auto.
Qed.

(** X14, witness: task 1 of the sample repository. *)
Lemma eval_one_agrees_with_evaluate_task_witness :
  exists mods' h' m,
    Batch._eval_one Samples.sample_world 1 true ∅ Samples.sample_heap = (inr m, mods', h')
    /\ exists_ m = true /\ passed m = true
    /\ score m = inject_Z 2400 /\ bytes m = 100.
Proof.
  destruct sample_task_returns as (mods' & h' & E). exists mods', h'.
  exact (eval_one_agrees_with_evaluate_task _ _ _ _ _ _ _ _ _ E).
Defined.

(** X15.  Where [evaluate_task] raises an exception after the task was
    loaded (no solver file, a module that fails to load or defines no
    callable [p], a score that overflows), and the exception is an
    instance of [Exception], [eval_all._eval_one] with [file_exists]
    true returns a record instead: not passed, 0 bytes, the score 0.001,
    every pair of the task counted as failed, and the exception under
    ["error"]. *)
Theorem eval_one_records_what_evaluate_task_raises (w : world) (task_id : Z)
    (mods mods' : registry) (h h1 h' : heap) (tjson : task pair) (e : exn) :
  load_task (repo_root w) (task_store w) (task_zero w) task_id h = (inr tjson, h1) ->
  evaluate_task w task_id mods h = (inl (Uncaught e), mods', h') ->
  is_Exception e = true ->
  Batch._eval_one w task_id true mods h
  = (inr (mk_meta true 0 lit_0_001 false
            (0%nat, length (t_train tjson ++ t_test tjson))
            (0%nat, length (t_arc_gen tjson))
            (exn_message e)),
     mods', h').
Proof.
  unfold evaluate_task, Batch._eval_one, EvalAll._eval_one. cbn [negb].
  intros ->.
  destruct (_import_solver _ _ _ _) as [[e1|[program file_path]] mods1].
  - intros [= <- <- <-] ->. reflexivity.
  - destruct (evaluate_with _ _ _ _ _ _) as [[e1|[[[[[n sc] ok] a] g] tb]] h2];
      [|discriminate].
    intros [= <- <- <-] ->. reflexivity.
Qed.

(** X15, witness: task 0 of the sample repository, which has no
    solver. *)
Lemma eval_one_records_what_evaluate_task_raises_witness :
  Batch._eval_one Samples.sample_world 0 true ∅ Samples.sample_heap
  = (inr (mk_meta true 0 lit_0_001 false (0%nat, 1%nat) (0%nat, 0%nat)
            (exn_message (FileNotFound (lit "/repo/submission/task000.py")))),
     ∅, Samples.sample_heap).
Proof.
  apply (eval_one_records_what_evaluate_task_raises Samples.sample_world 0 ∅ ∅
           Samples.sample_heap Samples.sample_heap Samples.sample_heap
           (task_zero Samples.sample_world)
           (FileNotFound (lit "/repo/submission/task000.py")));
    reflexivity.
Defined.

Lemma import_at_any_name (name name' file_path : text) (fs : filesystem)
    (mods mods' : registry) :
  (import_at name file_path fs mods).1 = (import_at name' file_path fs mods').1.
Proof.
  unfold import_at. destruct (fs file_path) as [art|]; [|reflexivity].
  destruct (exec_module art) as [e|[[p|]|]]; reflexivity.
Qed.

(** X24.  The comparison tool agrees with the single-task evaluation on
    the submission folder: when [evaluate_task] returns [(passed_all,
    task_score, file_len)], [compare_solutions._eval_one] on the folder
    [submission] returns, from the same state, a record with exists true
    and these three values under ["passed"], ["score"] and ["bytes"], and
    leaves the same store (the module is registered under another
    name). *)
Theorem compare_agrees_with_evaluate_task (w : world) (task_id : Z)
    (mods mods' : registry) (h h' : heap)
    (passed_all : bool) (task_score : float) (file_len : Z) :
  evaluate_task w task_id mods h = (inr (passed_all, task_score, file_len), mods', h') ->
  exists m mods'',
    Compare._eval_one w (SUBMISSION_DIR w) task_id mods h = (inr m, mods'', h')
    /\ exists_ m = true /\ passed m = passed_all
    /\ score m = task_score /\ bytes m = file_len.
Proof.
  unfold evaluate_task, Compare._eval_one, CompareSolutions._eval_one.
  destruct (load_task _ _ _ task_id h) as [[e|tjson] h1]; [discriminate|].
  unfold _import_solver, _import_solver_from.
  pose proof (import_at_any_name (mod_name task_id)
                (mod_name_from (SUBMISSION_DIR w) task_id)
                (path_join (SUBMISSION_DIR w) (solver_file_name task_id))
                (solver_files w) mods mods) as Hi.
  destruct (import_at (mod_name task_id) _ _ _) as [[e|[program file_path]] mods1] eqn:E1;
    [discriminate|].
  destruct (import_at (mod_name_from _ _) _ _ _) as [res2 mods2] eqn:E2.
  cbn [fst] in Hi. subst res2.
  assert (Hf : is_Some (solver_files w (path_join (SUBMISSION_DIR w)
                                                  (solver_file_name task_id)))).
  { unfold import_at in E1. destruct (solver_files w _); [eauto | discriminate]. }
  destruct Hf as [art ->].
  destruct (evaluate_with _ _ _ _ _ _) as [[e|[[[[[n sc] ok] a] g] tb]] h2];
    [discriminate|].
  intros [= <- <- <- <- <-]. eexists _, _. split; [reflexivity|]. auto.
Qed.

(** X24, witness: task 1 of the sample repository. *)
Lemma compare_agrees_with_evaluate_task_witness :
  exists h' m mods'',
    Compare._eval_one Samples.sample_world (SUBMISSION_DIR Samples.sample_world) 1 ∅
                      Samples.sample_heap = (inr m, mods'', h')
    /\ exists_ m = true /\ passed m = true
    /\ score m = inject_Z 2400 /\ bytes m = 100.
Proof.
  destruct sample_task_returns as (mods' & h' & E). exists h'.
  exact (compare_agrees_with_evaluate_task _ _ _ _ _ _ _ _ _ E).
Defined.

(** X25.  A shorter solver never scores less: for two byte counts
    [0 <= n <= m] of passing solvers both scores exist and the score of
    [n] is at least that of [m]; below 2500 bytes every byte saved is
    worth exactly one point. *)
Theorem shorter_is_never_worse (n m : Z) :
  0 <= n <= m ->
  exists s t,
    score_for_length n true = Some s
    /\ score_for_length m true = Some t
    /\ (t <= s)%Q
    /\ (m <= 2499 -> s = inject_Z (2500 - n) /\ t = inject_Z (2500 - m)
                     /\ (s - t == inject_Z (m - n))%Q).
Proof.
  intros Hnm.
  assert (Hs : forall k, 0 <= k ->
             score_for_length k true = Some (inject_Z (Z.max 1 (2500 - k)))).
  { intros k Hk. unfold score_for_length. cbn [negb].
    replace (if 1 <? 2500 - k then 2500 - k else 1) with (Z.max 1 (2500 - k))
      by (destruct (Z.ltb_spec 1 (2500 - k)); lia).
    unfold float_of_int. destruct (Z.ltb_spec (Z.max 1 (2500 - k)) 0) as [|_]; [lia|].
    rewrite float_of_nonneg_exact; [reflexivity|].
    assert (2500 <= 2 ^ 53) by (vm_compute; discriminate). lia. }
  exists (inject_Z (Z.max 1 (2500 - n))), (inject_Z (Z.max 1 (2500 - m))).
  split; [apply Hs; lia|]. split; [apply Hs; lia|]. split.
  - rewrite <- Zle_Qle. lia.
  - intros Hm. rewrite !Z.max_r by lia. split; [reflexivity|]. split; [reflexivity|].
    unfold Qminus. rewrite <- inject_Z_opp, <- inject_Z_plus.
    apply inject_Z_injective. lia.
Qed.

(** X25, witness: 100 bytes against 150 bytes. *)
Lemma shorter_is_never_worse_witness :
  exists s t,
    score_for_length 100 true = Some s
    /\ score_for_length 150 true = Some t
    /\ (t <= s)%Q
    /\ (150 <= 2499 -> s = inject_Z (2500 - 100) /\ t = inject_Z (2500 - 150)
                       /\ (s - t == inject_Z (150 - 100))%Q).
Proof. apply (shorter_is_never_worse 100 150). lia. Defined.

End SingleFacts.

(** ** eval_all.py over a range of tasks *)

Module BatchFacts.
Import Text Loader Store Evaluator Import_ Report Float64 Tasks Batch.

(** What [eval_all._eval_one] records about the file: the flag it was
    given; and a task passes only where the file exists. *)
Lemma eval_one_flags (sd : text) (tid : Z) (fe : bool) (tjson : task pair)
    (fs : filesystem) (mods mods' : registry) (h h' : heap) (m : meta) :
  EvalAll._eval_one sd tid fe tjson fs mods h = (inr m, mods', h') ->
  exists_ m = fe /\ (passed m = true -> fe = true).
Proof.
  unfold EvalAll._eval_one. destruct fe; cbn [negb].
  - destruct (_import_solver sd tid fs mods) as [[e|[program file_path]] mods1].
    + destruct (is_Exception e); [|discriminate]. intros [= <- _ _]. auto.
    + destruct (evaluate_with _ _ _ _ _ _) as [[e|[[[[[n sc] ok] agi] gen] tb]] h1].
      * destruct (is_Exception e); [|discriminate]. intros [= <- _ _]. auto.
      * intros [= <- _ _]. auto.
  - intros [= <- _ _]. split; [reflexivity | discriminate].
Qed.

Lemma batch_eval_one_flags (w : world) (tid : Z) (fe : bool)
    (mods mods' : registry) (h h' : heap) (m : meta) :
  _eval_one w tid fe mods h = (inr m, mods', h') ->
  exists_ m = fe /\ (passed m = true -> fe = true).
Proof.
  unfold _eval_one.
  destruct (load_task _ _ _ tid h) as [[e|tjson] h1]; [discriminate|].
  destruct (EvalAll._eval_one _ _ _ _ _ _ _) as [[[e|m1] mods1] h2] eqn:E; [discriminate|].
  intros [= <- _ _]. eapply eval_one_flags, E.
Qed.

Lemma counted_start (present : gmap Z text) :
  counted present (mk_totals [] (Finite 0%Q) 0 0 0 0 0).
Proof. split; cbn; (constructor || reflexivity). Qed.

Lemma filter_snoc_length {A : Type} (P : A -> bool) (l : list A) (x : A) :
  length (filter (fun r => P r) (l ++ [x]))
  = (length (filter (fun r => P r) l) + if P x then 1 else 0)%nat.
Proof.
  rewrite filter_app, length_app. f_equal.
  destruct (P x) eqn:E.
  - rewrite filter_cons_True by (rewrite E; exact I). reflexivity.
  - rewrite filter_cons_False by (rewrite E; exact id). reflexivity.
Qed.

Lemma counted_tally (present : gmap Z text) (t : totals) (tid : Z) (m : meta) :
  counted present t ->
  exists_ m = bool_decide (is_Some (present !! tid)) ->
  (passed m = true -> exists_ m = true) ->
  counted present (tally t tid (bool_decide (is_Some (present !! tid))) m).
Proof.
  intros [Hf Hp Hs Hfl Hm] He Hpass. rewrite <- He.
  split; cbn [tally results n_present n_solved n_failed n_missing].
  - apply Forall_app. split; [exact Hf|]. constructor; [|constructor].
    cbn [fst snd]. split; assumption.
  - rewrite (filter_snoc_length (fun r => exists_ (snd r))). cbn [snd].
    destruct (exists_ m); lia.
  - rewrite (filter_snoc_length (fun r => passed (snd r))). cbn [snd].
    destruct (passed m); lia.
  - rewrite (filter_snoc_length (fun r => exists_ (snd r) && negb (passed (snd r)))).
    cbn [snd]. destruct (passed m), (exists_ m); cbn; lia.
  - rewrite (filter_snoc_length (fun r => negb (exists_ (snd r)))). cbn [snd].
    destruct (passed m) eqn:E1, (exists_ m) eqn:E2; cbn; try lia.
    all: specialize (Hpass eq_refl); discriminate.
Qed.

(** The first loop, when it ends: one result per task id, in order, and
    the invariant. *)
Lemma eval_loop_counted (w : world) (present : gmap Z text) (tids : list Z) :
  forall (t t' : totals) (mods mods' : registry) (h h' : heap),
  eval_loop w present tids t mods h = (inr t', mods', h') ->
  counted present t ->
  counted present t' /\ map fst (results t') = map fst (results t) ++ tids.
Proof.
  induction tids as [|tid tids IH]; intros t t' mods mods' h h' E Hc; cbn [eval_loop] in E.
  - injection E as <- _ _. rewrite app_nil_r. auto.
  - destruct (_eval_one w tid _ mods h) as [[[e|m] mods1] h1] eqn:E1; [discriminate|].
    destruct (batch_eval_one_flags _ _ _ _ _ _ _ _ E1) as [He Hp].
    apply IH in E as [Hc' Hr].
    + split; [exact Hc'|]. rewrite Hr. cbn [tally results].
      rewrite map_app, <- app_assoc. reflexivity.
    + apply counted_tally; [exact Hc | exact He | rewrite He; exact Hp].
Qed.

Lemma filter_cons_length {A : Type} (P : A -> bool) (x : A) (l : list A) :
  length (filter (fun r => P r) (x :: l))
  = ((if P x then 1 else 0) + length (filter (fun r => P r) l))%nat.
Proof.
  destruct (P x) eqn:E.
  - rewrite filter_cons_True by (rewrite E; exact I). reflexivity.
  - rewrite filter_cons_False by (rewrite E; exact id). reflexivity.
Qed.

(** Every record is of a present or of a missing task, and every
    present one is solved or failed. *)
Lemma results_partition (rs : list (Z * meta)) :
  Forall (fun r => passed (snd r) = true -> exists_ (snd r) = true) rs ->
  (length (filter (fun r => exists_ (snd r)) rs)
   + length (filter (fun r => negb (exists_ (snd r))) rs) = length rs)%nat
  /\ (length (filter (fun r => passed (snd r)) rs)
      + length (filter (fun r => exists_ (snd r) && negb (passed (snd r))) rs)
      = length (filter (fun r => exists_ (snd r)) rs))%nat.
Proof.
  induction 1 as [|r rs Hr _ [IH1 IH2]]; [split; reflexivity|].
  rewrite (filter_cons_length (fun r => exists_ (snd r))),
          (filter_cons_length (fun r => negb (exists_ (snd r)))),
          (filter_cons_length (fun r => passed (snd r))),
          (filter_cons_length (fun r => exists_ (snd r) && negb (passed (snd r)))).
  cbn [length].
  destruct (passed (snd r)) eqn:E1, (exists_ (snd r)) eqn:E2; cbn [negb andb];
    try (split; lia).
  all: specialize (Hr eq_refl); discriminate.
Qed.

Lemma range_length (start stop : Z) : length (range start stop) = Z.to_nat (stop - start).
Proof. unfold range. rewrite length_map, length_seq. reflexivity. Qed.

Lemma elem_of_range (start stop tid : Z) : tid ∈ range start stop <-> start <= tid < stop.
Proof.
  unfold range. rewrite list_elem_of_fmap. split.
  - intros (i & -> & Hi). apply elem_of_seq in Hi. lia.
  - intros Ht. exists (Z.to_nat (tid - start)). split; [lia|].
    apply elem_of_seq. lia.
Qed.

(** What a run of [evaluate_all] that returns went through. *)
Lemma evaluate_all_returns (w : world) (start end_ : Z) (mods mods' : registry)
    (h h' : heap) (r : report) :
  evaluate_all w start end_ mods h = (inr r, mods', h') ->
  exists t avg avg_bytes,
    eval_loop w (_task_paths_present w) (range start (end_ + 1))
              (mk_totals [] (Finite 0%Q) 0 0 0 0 0) mods h = (inr t, mods', h')
    /\ fdiv_int (total_score t) (end_ - start + 1) = inr avg
    /\ r = mk_report
             (mk_summary (end_ - start + 1) (n_present t) (n_solved t) (n_failed t)
                         (n_missing t) (total_score t) avg (total_bytes t) avg_bytes)
             (collect_failed (results t)) (collect_missing (results t)) (results t).
Proof.
  unfold evaluate_all. cbv zeta.
  destruct (eval_loop _ _ _ _ _ _) as [[[e|t] mods1] h1] eqn:El; [discriminate|].
  destruct (fdiv_int _ _) as [e|avg] eqn:Ed; [discriminate|].
  destruct (if (n_present t =? 0)%nat then _ else _) as [e|avg_bytes]; [discriminate|].
  intros [= <- <- <-]. exists t, avg, avg_bytes.
  split; [reflexivity|]. split; [exact Ed | reflexivity].
Qed.

(** X8.  When [evaluate_all(start, end)] returns, its report has one
    record per task id of the range, in increasing order, and its
    counters add up: every task is present or missing, every present task
    is solved or failed, the lists of missing and of failed tasks have as
    many entries as the counters say; for a range that is not empty the
    three counters of solved, failed and missing tasks sum to
    ["total_tasks"]. *)
Theorem evaluate_all_counts (w : world) (start end_ : Z) (mods mods' : registry)
    (h h' : heap) (r : report) :
  evaluate_all w start end_ mods h = (inr r, mods', h') ->
  let s := r_summary r in
  map fst (tasks r) = range start (end_ + 1)
  /\ (present s + missing s = length (tasks r))%nat
  /\ (solved s + failed s = present s)%nat
  /\ length (missing_tasks r) = missing s
  /\ length (failed_tasks r) = failed s
  /\ total_tasks s = end_ - start + 1
  /\ (start <= end_ -> Z.of_nat (solved s + failed s + missing s) = total_tasks s).
Proof.
  intros E. apply evaluate_all_returns in E as (t & avg & avg_bytes & El & _ & ->).
  apply eval_loop_counted in El as [[Hf Hp Hs Hfl Hm] Hr]; [|apply counted_start].
  cbn [results map app] in Hr.
  cbn [r_summary tasks missing_tasks failed_tasks present missing solved failed total_tasks].
  destruct (results_partition (results t)) as [P1 P2].
  { eapply Forall_impl; [exact Hf|]. intros x [_ Hx]. exact Hx. }
  assert (Hlen : length (results t) = Z.to_nat (end_ + 1 - start)).
  { rewrite <- (length_map fst), Hr. apply range_length. }
  split; [exact Hr|]. split; [lia|]. split; [lia|].
  split; [unfold collect_missing; rewrite length_map; lia|].
  split; [unfold collect_failed; rewrite length_map; lia|].
  split; [reflexivity | lia].
Qed.

(** On tasks 0 and 1 of the sample repository the run returns. *)
Lemma sample_run_returns :
  exists r mods' h',
    evaluate_all Samples.sample_world 0 1 ∅ Samples.sample_heap = (inr r, mods', h').
Proof.
  assert (H : match (evaluate_all Samples.sample_world 0 1 ∅ Samples.sample_heap).1.1 with
              | inr _ => True
              | inl _ => False
              end) by (vm_compute; exact I).
  destruct (evaluate_all _ _ _ _ _) as [[[e|r] mods'] h']; [contradiction|].
  eauto.
Qed.

(** X8, witness: tasks 0 and 1 of the sample repository; the run
    returns, task 0 is missing and task 1 is solved. *)
Lemma evaluate_all_counts_witness :
  exists r mods' h',
    evaluate_all Samples.sample_world 0 1 ∅ Samples.sample_heap = (inr r, mods', h')
    /\ map fst (tasks r) = range 0 (1 + 1)
    /\ (present (r_summary r) + missing (r_summary r) = length (tasks r))%nat
    /\ (solved (r_summary r) + failed (r_summary r) = present (r_summary r))%nat
    /\ length (missing_tasks r) = missing (r_summary r)
    /\ length (failed_tasks r) = failed (r_summary r)
    /\ total_tasks (r_summary r) = 1 - 0 + 1
    /\ (0 <= 1 ->
        Z.of_nat (solved (r_summary r) + failed (r_summary r) + missing (r_summary r))
        = total_tasks (r_summary r)).
Proof.
  destruct sample_run_returns as (r & mods' & h' & E).
  exists r, mods', h'. split; [exact E|].
  exact (evaluate_all_counts _ _ _ _ _ _ _ _ E).
Defined.

Lemma collect_missing_spec (present : gmap Z text) (rs : list (Z * meta)) :
  Forall (fun r => exists_ (snd r) = bool_decide (is_Some (present !! fst r))) rs ->
  collect_missing rs = filter (fun tid => present !! tid = None) (map fst rs).
Proof.
  unfold collect_missing. induction 1 as [|r rs Hr _ IH]; [reflexivity|].
  cbn [map]. rewrite !filter_cons, <- IH.
  destruct (present !! fst r) as [p|] eqn:E.
  - rewrite bool_decide_eq_true_2 in Hr by eauto.
    rewrite !decide_False; [reflexivity | discriminate | rewrite Hr; exact id].
  - rewrite bool_decide_eq_false_2 in Hr by (intros [? ?]; discriminate).
    rewrite !decide_True; [reflexivity | reflexivity | rewrite Hr; exact I].
Qed.

(** X9.  When [evaluate_all] returns, ["missing_tasks"] is the list of
    the task ids of the range that are not keys of
    [_task_paths_present()], in increasing order; every entry of
    ["failed_tasks"] is of a task id that is such a key and of the range,
    and its error text has at most 400 characters. *)
Theorem missing_and_failed_lists (w : world) (start end_ : Z) (mods mods' : registry)
    (h h' : heap) (r : report) :
  evaluate_all w start end_ mods h = (inr r, mods', h') ->
  missing_tasks r
  = filter (fun tid => _task_paths_present w !! tid = None) (range start (end_ + 1))
  /\ Forall (fun f => is_Some (_task_paths_present w !! f_task_id f)
                      /\ start <= f_task_id f <= end_
                      /\ (length (f_error f) <= 400)%nat)
            (failed_tasks r).
Proof.
  intros E. apply evaluate_all_returns in E as (t & avg & avg_bytes & El & _ & ->).
  apply eval_loop_counted in El as [[Hf _ _ _ _] Hr]; [|apply counted_start].
  cbn [results map app] in Hr. cbn [missing_tasks failed_tasks]. split.
  - rewrite <- Hr. apply collect_missing_spec.
    eapply Forall_impl; [exact Hf|]. intros x [Hx _]. exact Hx.
  - unfold collect_failed. apply Forall_fmap, Forall_forall.
    intros x Hx. apply list_elem_of_filter in Hx as [Hx Hin].
    unfold compose. cbv beta. cbn [f_task_id f_error].
    rewrite Forall_forall in Hf. destruct (Hf x Hin) as [He _].
    apply andb_prop_elim in Hx as [Hx _]. rewrite He in Hx.
    apply bool_decide_unpack in Hx. split; [exact Hx|]. split.
    + assert (Hr' : fst x ∈ range start (end_ + 1)).
      { rewrite <- Hr. apply list_elem_of_fmap. eauto. }
      apply elem_of_range in Hr'. lia.
    + rewrite length_take. lia.
Qed.

(** X9, witness: tasks 0 and 1 of the sample repository. *)
Lemma missing_and_failed_lists_witness :
  exists r mods' h',
    evaluate_all Samples.sample_world 0 1 ∅ Samples.sample_heap = (inr r, mods', h')
    /\ missing_tasks r
       = filter (fun tid => _task_paths_present Samples.sample_world !! tid = None)
                (range 0 (1 + 1))
    /\ Forall (fun f => is_Some (_task_paths_present Samples.sample_world !! f_task_id f)
                        /\ 0 <= f_task_id f <= 1
                        /\ (length (f_error f) <= 400)%nat)
              (failed_tasks r).
Proof.
  destruct sample_run_returns as (r & mods' & h' & E).
  exists r, mods', h'. split; [exact E|].
  exact (missing_and_failed_lists _ _ _ _ _ _ _ _ E).
Defined.

(** X10.  On the empty range that ends just before it starts,
    [evaluate_all(start, start - 1)] raises [ZeroDivisionError] when it
    computes the average score, whatever the repository holds; no task
    is loaded and no solver is imported. *)
Theorem empty_range_divides_by_zero (w : world) (start : Z) (mods : registry) (h : heap) :
  evaluate_all w start (start - 1) mods h = (inl (Arithmetic ZeroDivision), mods, h).
Proof.
  unfold evaluate_all, range.
  replace (start - 1 + 1 - start) with 0 by lia.
  replace (start - 1 - start + 1) with 0 by lia.
  reflexivity.
Qed.

(** *** Which files count as present *)


Lemma starts_with_app_l (p s : text) : starts_with p (p ++ s) = true.
Proof.
  induction p as [|a p IH]; [reflexivity|].
  cbn [app starts_with]. rewrite Ascii.eqb_refl. exact IH.
Qed.










Lemma eval_loop_loaded (w : world) (present : gmap Z text) (tids : list Z) :
  forall (t t' : totals) (mods mods' : registry) (h h' : heap),
  eval_loop w present tids t mods h = (inr t', mods', h') ->
  forall tid, tid ∈ tids ->
  exists h0 tjson h1,
    load_task (repo_root w) (task_store w) (task_zero w) tid h0 = (inr tjson, h1).
Proof.
  induction tids as [|x tids IH]; intros t t' mods mods' h h' E tid Hin.
  - apply elem_of_nil in Hin. contradiction.
  - cbn [eval_loop] in E.
    destruct (_eval_one w x _ mods h) as [[[e|m] mods1] h1] eqn:E1; [discriminate|].
    apply elem_of_cons in Hin as [->|Hin]; [|eapply IH; eassumption].
    unfold _eval_one in E1.
    destruct (load_task _ _ _ x h) as [[e|tjson] h2] eqn:El; [discriminate|].
    eauto.
Qed.

(** X12.  [evaluate_all] returns a report only if every task of the
    range other than task 0 has a task file, at the local or at the Kaggle
    path, that could be read: where one is missing the run ends with the
    exception of [load_task], also when the solver of that task is missing
    too. *)
Theorem report_needs_every_task_file (w : world) (start end_ : Z)
    (mods mods' : registry) (h h' : heap) (r : report) :
  evaluate_all w start end_ mods h = (inr r, mods', h') ->
  forall tid, start <= tid <= end_ -> tid <> 0 ->
  exists t,
    first_existing (task_store w) (_candidate_paths (repo_root w) tid) = Some (inr t).
Proof.
  intros E tid Hr Hz.
  apply evaluate_all_returns in E as (t & avg & avg_bytes & El & _ & _).
  destruct (eval_loop_loaded _ _ _ _ _ _ _ _ _ El tid) as (h0 & tjson & h1 & Hl).
  { apply elem_of_range. lia. }
  unfold load_task in Hl. destruct (Z.eqb_spec tid 0) as [|_]; [contradiction|].
  destruct (first_existing _ _) as [[e|tf]|]; [discriminate| |discriminate].
  eauto.
Qed.

(** X12, witness: task 1 of the sample repository. *)
Lemma report_needs_every_task_file_witness :
  exists t,
    first_existing (task_store Samples.sample_world)
                   (_candidate_paths (repo_root Samples.sample_world) 1) = Some (inr t).
Proof.
  destruct sample_run_returns as (r & mods' & h' & E).
  apply (report_needs_every_task_file _ _ _ _ _ _ _ _ E 1); [lia | discriminate].
Defined.

End BatchFacts.

(** ** compare_solutions.py over several folders *)

Module CompareFacts.
Import Text Loader Store Evaluator Import_ Report Float64 Tasks Compare.

(** *** Dicts *)

Lemma dict_get_set {V : Type} (k k' : text) (v : V) (d : dict V) :
  dict_get k' (dict_set k v d) = if bool_decide (k = k') then Some v else dict_get k' d.
Proof.
  induction d as [|[k0 v0] d IH]; cbn [dict_set dict_get].
  - reflexivity.
  - destruct (decide (k0 = k)) as [->|Hne].
    + rewrite bool_decide_eq_true_2 by reflexivity. cbn [dict_get].
      destruct (bool_decide (k = k')); reflexivity.
    + rewrite (bool_decide_eq_false_2 (k0 = k)) by exact Hne. cbn [dict_get].
      destruct (decide (k0 = k')) as [->|Hne'].
      * rewrite bool_decide_eq_true_2 by reflexivity.
        rewrite bool_decide_eq_false_2 by congruence. reflexivity.
      * rewrite (bool_decide_eq_false_2 (k0 = k')) by exact Hne'. exact IH.
Qed.

Lemma dict_set_keys_new {V : Type} (k : text) (v : V) (d : dict V) :
  k ∉ map fst d -> dict_set k v d = d ++ [(k, v)].
Proof.
  induction d as [|[k0 v0] d IH]; intros Hk; cbn [dict_set]; [reflexivity|].
  cbn [map fst] in Hk. apply not_elem_of_cons in Hk as [Hne Hk].
  rewrite bool_decide_eq_false_2 by congruence. cbn [app]. f_equal. apply IH, Hk.
Qed.

Lemma dict_set_keys {V : Type} (k : text) (v : V) (d : dict V) :
  map fst (dict_set k v d) = if bool_decide (k ∈ map fst d) then map fst d
                             else map fst d ++ [k].
Proof.
  induction d as [|[k0 v0] d IH]; cbn [dict_set map fst].
  - rewrite bool_decide_eq_false_2 by apply not_elem_of_nil. reflexivity.
  - destruct (decide (k0 = k)) as [->|Hne].
    + rewrite !bool_decide_eq_true_2 by (reflexivity || left). reflexivity.
    + rewrite (bool_decide_eq_false_2 (k0 = k)) by exact Hne. cbn [map fst]. rewrite IH.
      destruct (decide (k ∈ map fst d)) as [Hin|Hnin].
      * rewrite !bool_decide_eq_true_2 by (assumption || right; assumption). reflexivity.
      * rewrite !bool_decide_eq_false_2; [reflexivity | | exact Hnin].
        intros Hc. apply elem_of_cons in Hc as [->|Hc]; contradiction.
Qed.

Lemma dict_adjust_keys {V : Type} (k : text) (f : V -> V) (d : dict V) :
  map fst (dict_adjust k f d) = map fst d.
Proof.
  induction d as [|[k0 v0] d IH]; cbn [dict_adjust map fst]; [reflexivity|].
  destruct (bool_decide (k0 = k)); cbn [map fst]; [reflexivity|]. rewrite IH. reflexivity.
Qed.

Lemma dict_get_adjust {V : Type} (k k' : text) (f : V -> V) (d : dict V) :
  dict_get k' (dict_adjust k f d)
  = if bool_decide (k = k') then f <$> dict_get k' d else dict_get k' d.
Proof.
  induction d as [|[k0 v0] d IH]; cbn [dict_adjust dict_get].
  - destruct (bool_decide (k = k')); reflexivity.
  - destruct (decide (k0 = k)) as [->|Hne].
    + rewrite bool_decide_eq_true_2 by reflexivity. cbn [dict_get].
      destruct (bool_decide (k = k')); reflexivity.
    + rewrite (bool_decide_eq_false_2 (k0 = k)) by exact Hne. cbn [dict_get].
      destruct (decide (k0 = k')) as [->|Hne'].
      * rewrite bool_decide_eq_true_2 by reflexivity.
        rewrite bool_decide_eq_false_2 by congruence. reflexivity.
      * rewrite (bool_decide_eq_false_2 (k0 = k')) by exact Hne'. exact IH.
Qed.

Lemma dict_get_Some_elem {V : Type} (k : text) (v : V) (d : dict V) :
  dict_get k d = Some v -> (k, v) ∈ d.
Proof.
  induction d as [|[k0 v0] d IH]; cbn [dict_get]; [discriminate|].
  destruct (decide (k0 = k)) as [->|Hne].
  - rewrite bool_decide_eq_true_2 by reflexivity. intros [= ->]. left.
  - rewrite bool_decide_eq_false_2 by exact Hne. intros H. right. apply IH, H.
Qed.

Lemma dict_elem_get {V : Type} (k : text) (v : V) (d : dict V) :
  NoDup (map fst d) -> (k, v) ∈ d -> dict_get k d = Some v.
Proof.
  induction d as [|[k0 v0] d IH]; intros Hnd Hin; cbn [dict_get].
  - apply elem_of_nil in Hin. contradiction.
  - cbn [map fst] in Hnd. apply NoDup_cons in Hnd as [Hk Hnd].
    apply elem_of_cons in Hin as [[= -> ->]|Hin].
    + rewrite bool_decide_eq_true_2 by reflexivity. reflexivity.
    + rewrite bool_decide_eq_false_2; [apply IH; assumption|].
      intros ->. apply Hk. apply list_elem_of_fmap. exists (k, v). auto.
Qed.

Lemma dict_get_is_Some {V : Type} (k : text) (d : dict V) :
  is_Some (dict_get k d) <-> k ∈ map fst d.
Proof.
  induction d as [|[k0 v0] d IH]; cbn [dict_get map fst].
  - split; [intros [? [=]] | intros H; apply elem_of_nil in H; contradiction].
  - destruct (decide (k0 = k)) as [->|Hne].
    + rewrite bool_decide_eq_true_2 by reflexivity. split; [left | eauto].
    + rewrite bool_decide_eq_false_2 by exact Hne. rewrite IH. split.
      * right. assumption.
      * intros H. apply elem_of_cons in H as [->|H]; [contradiction|exact H].
Qed.

Lemma dict_set_NoDup {V : Type} (k : text) (v : V) (d : dict V) :
  NoDup (map fst d) -> NoDup (map fst (dict_set k v d)).
Proof.
  intros Hnd. rewrite dict_set_keys.
  destruct (decide (k ∈ map fst d)) as [Hin|Hnin].
  - rewrite bool_decide_eq_true_2 by exact Hin. exact Hnd.
  - rewrite bool_decide_eq_false_2 by exact Hnin.
    apply NoDup_app. split; [exact Hnd|]. split; [|apply NoDup_singleton].
    intros x Hx Hx'. apply list_elem_of_singleton in Hx' as ->. contradiction.
Qed.

Lemma dict_from_keys_spec {V : Type} (keys : list text) (v : V) :
  NoDup (map fst (dict_from_keys keys v))
  /\ (forall k, k ∈ map fst (dict_from_keys keys v) <-> k ∈ keys)
  /\ Forall (fun kv => snd kv = v) (dict_from_keys keys v).
Proof.
  unfold dict_from_keys.
  assert (H : forall (acc : dict V),
             NoDup (map fst acc) -> Forall (fun kv => snd kv = v) acc ->
             NoDup (map fst (foldl (fun d f => dict_set f v d) acc keys))
             /\ (forall k, k ∈ map fst (foldl (fun d f => dict_set f v d) acc keys)
                           <-> k ∈ map fst acc \/ k ∈ keys)
             /\ Forall (fun kv => snd kv = v) (foldl (fun d f => dict_set f v d) acc keys)).
  { induction keys as [|f keys IH]; intros acc Hnd Hv; cbn [foldl].
    - split; [exact Hnd|]. split; [|exact Hv].
      intros k. split; [auto|]. intros [H|H]; [exact H|].
      apply elem_of_nil in H. contradiction.
    - destruct (IH (dict_set f v acc)) as (H1 & H2 & H3).
      + apply dict_set_NoDup, Hnd.
      + apply Forall_forall. intros [k0 v0] Hin. cbn [snd].
        assert (Hg : dict_get k0 (dict_set f v acc) = Some v0).
        { apply dict_elem_get; [apply dict_set_NoDup, Hnd | exact Hin]. }
        rewrite dict_get_set in Hg. destruct (bool_decide (f = k0)).
        * congruence.
        * apply dict_get_Some_elem in Hg. rewrite Forall_forall in Hv.
          exact (Hv _ Hg).
      + split; [exact H1|]. split; [|exact H3].
        intros k. rewrite H2, <- !dict_get_is_Some, dict_get_set, elem_of_cons.
        destruct (decide (f = k)) as [->|Hne].
        * rewrite bool_decide_eq_true_2 by reflexivity. split; [auto|]. eauto.
        * rewrite bool_decide_eq_false_2 by exact Hne. split.
          -- intros [H|H]; auto.
          -- intros [H|[H|H]]; auto. congruence. }
  destruct (H [] (NoDup_nil_2) (Forall_nil_2 _)) as (H1 & H2 & H3).
  split; [exact H1|]. split; [|exact H3].
  intros k. rewrite H2. split; [intros [Hk|Hk]; [|exact Hk] | auto].
  apply elem_of_nil in Hk. contradiction.
Qed.

(** *** The comparison of the scores of one task *)

Lemma max_of_spec (l : list Score.float) :
  forall x : Score.float,
  (x <= max_of x l)%Q
  /\ Forall (fun y => (y <= max_of x l)%Q) l
  /\ (max_of x l = x \/ In (max_of x l) l).
Proof.
  unfold max_of. induction l as [|y l IH]; intros x; cbn [foldl].
  - split; [apply Qle_refl|]. split; [constructor | left; reflexivity].
  - destruct (IH (if Qle_bool y x then x else y)) as (H1 & H2 & H3).
    destruct (Qle_bool y x) eqn:E.
    + apply Qle_bool_iff in E. split; [exact H1|]. split.
      * constructor; [eapply Qle_trans; eassumption | exact H2].
      * destruct H3 as [H3|H3]; [left; exact H3 | right; right; exact H3].
    + assert (Hlt : (x < y)%Q).
      { apply Qnot_le_lt. intros Hc. apply Qle_bool_iff in Hc. congruence. }
      split; [eapply Qle_trans; [apply Qlt_le_weak, Hlt | exact H1]|]. split.
      * constructor; [exact H1 | exact H2].
      * destruct H3 as [H3|H3]; [right; left; symmetry; exact H3 | right; right; exact H3].
Qed.

Lemma round64_nonneg (q : Q) : (0 <= q)%Q -> nonneg (round64 q).
Proof.
  intros Hq. assert (Hn : 0 <= Qnum q).
  { unfold Qle in Hq. cbn in Hq. lia. }
  unfold round64. destruct (Z.eqb_spec (Qnum q) 0) as [_|Hne]; [cbn; apply Qle_refl|].
  cbv zeta. destruct (Z.ltb_spec (Qnum q) 0) as [|_]; [lia|].
  set (u := Z.max _ (-1074)).
  set (m := Score.round_half_even _ _).
  assert (Hm : 0 <= m).
  { unfold m.
    assert (Hd : 0 < Z.pos (Qden q) * 2 ^ Z.max 0 u).
    { apply Z.mul_pos_pos; [lia|]. apply Z.pow_pos_nonneg; lia. }
    assert (Ha : 0 <= Z.abs (Qnum q) * 2 ^ Z.max 0 (- u)).
    { apply Z.mul_nonneg_nonneg; [lia|]. apply Z.pow_nonneg. lia. }
    pose proof (ScoreFacts.round_half_even_bounds _ _ Ha Hd) as [Hlo _].
    pose proof (Z.div_pos _ _ Ha Hd). lia. }
  destruct (Z.leb_spec 0 u) as [Hu|Hu].
  - destruct (2 ^ 1024 <=? m * 2 ^ u); [reflexivity|].
    cbn [nonneg]. unfold Qle. cbn.
    assert (0 <= 2 ^ u) by (apply Z.pow_nonneg; lia). nia.
  - cbn [nonneg]. rewrite Qred_correct. unfold Qle. cbn. lia.
Qed.

Lemma fsub_nonneg (best sc : Score.float) : (sc <= best)%Q -> nonneg (fsub best sc).
Proof.
  intros H. apply round64_nonneg. unfold Qminus. apply -> Qle_minus_iff. exact H.
Qed.

Lemma fsub_equal (best sc : Score.float) : (sc == best)%Q -> fsub best sc = Finite 0%Q.
Proof.
  intros H. unfold fsub, round64.
  assert (E : Qnum (best - sc) = 0).
  { unfold Qeq in H. unfold Qminus, Qplus, Qopp. cbn. lia. }
  rewrite E. reflexivity.
Qed.

Lemma comparison_debts (scores : dict Score.float) :
  map fst (score_debt_by_folder (compare_scores scores)) = map fst scores
  /\ Forall (fun kv => nonneg (snd kv)) (score_debt_by_folder (compare_scores scores)).
Proof.
  unfold compare_scores. cbn [score_debt_by_folder].
  set (best := match map snd scores with [] => 0%Q | x :: l => max_of x l end).
  assert (Hle : Forall (fun kv => (snd kv <= best)%Q) scores).
  { unfold best. destruct scores as [|[k x] rest]; [constructor|].
    cbn [map snd]. destruct (max_of_spec (map snd rest) x) as (H1 & H2 & _).
    constructor; [exact H1|]. rewrite Forall_forall in H2. apply Forall_forall.
    intros kv Hkv. apply H2, list_elem_of_fmap. eauto. }
  clearbody best. split.
  - rewrite map_map. reflexivity.
  - apply Forall_fmap. eapply Forall_impl; [exact Hle|].
    intros kv Hkv. cbn. apply fsub_nonneg, Hkv.
Qed.

(** X16.  The comparison [evaluate_folders] makes of the scores of one
    task: ["best_score"] is at least the score of every folder and is the
    score of one of them; ["best_folders"] lists exactly the folders
    whose score equals it, so at least one folder when there are any;
    every folder has an entry under ["score_debt_by_folder"], which is
    never negative, and is zero for the best folders. *)
Theorem comparison_of_scores (scores : dict Score.float) :
  let c := compare_scores scores in
  Forall (fun kv => (snd kv <= best_score c)%Q) scores
  /\ (forall f, f ∈ best_folders c
                <-> exists sc, (f, sc) ∈ scores /\ (sc == best_score c)%Q)
  /\ (scores <> [] -> best_folders c <> [])
  /\ Forall2 (fun kv debt =>
                fst debt = fst kv /\ nonneg (snd debt)
                /\ ((snd kv == best_score c)%Q -> snd debt = Finite 0%Q))
             scores (score_debt_by_folder c).
Proof.
  cbv zeta. unfold compare_scores. cbn [best_score best_folders score_debt_by_folder].
  set (best := match map snd scores with [] => 0%Q | x :: l => max_of x l end).
  assert (Hmax : Forall (fun kv => (snd kv <= best)%Q) scores
                 /\ (scores <> [] -> exists kv, kv ∈ scores /\ snd kv = best)).
  { unfold best. destruct scores as [|[k x] rest]; [split; [constructor|congruence]|].
    cbn [map snd]. destruct (max_of_spec (map snd rest) x) as (H1 & H2 & H3). split.
    - constructor; [exact H1|]. rewrite Forall_forall in H2. apply Forall_forall.
      intros kv Hkv. apply H2, list_elem_of_fmap. eauto.
    - intros _. destruct H3 as [H3|H3].
      + exists (k, x). split; [left | symmetry; exact H3].
      + apply in_map_iff in H3 as (kv & Hkv & Hin). exists kv.
        split; [right; apply list_elem_of_In, Hin | exact Hkv]. }
  destruct Hmax as [Hle Hex].
  assert (Hbf : forall f, f ∈ map fst (filter (fun kv => Qeq_bool (snd kv) best) scores)
                          <-> exists sc, (f, sc) ∈ scores /\ (sc == best)%Q).
  { intros f. rewrite list_elem_of_fmap. split.
    - intros ([k sc] & -> & Hin). apply list_elem_of_filter in Hin as [Hq Hin].
      exists sc. split; [exact Hin|]. apply Qeq_bool_iff, Is_true_true, Hq.
    - intros (sc & Hin & Hq). exists (f, sc). split; [reflexivity|].
      apply list_elem_of_filter. split; [|exact Hin].
      apply Is_true_true, Qeq_bool_iff, Hq. }
  split; [exact Hle|]. split; [exact Hbf|]. split.
  - intros Hne Hnil. destruct (Hex Hne) as ([k sc] & Hin & Hsc). cbn [snd] in Hsc.
    assert (Hk : k ∈ map fst (filter (fun kv => Qeq_bool (snd kv) best) scores)).
    { apply Hbf. exists sc. split; [exact Hin|]. rewrite Hsc. reflexivity. }
    rewrite Hnil in Hk. apply elem_of_nil in Hk. exact Hk.
  - clear Hex Hbf. clearbody best.
    induction Hle as [|kv rest Hkv _ IH]; cbn [map]; constructor.
    + cbn [fst snd]. split; [reflexivity|]. split; [apply fsub_nonneg, Hkv|].
      apply fsub_equal.
    + exact IH.
Qed.

(** *** The rows of the report *)

Lemma tkey_inj (a b : Z) : tkey a = tkey b -> a = b.
Proof.
  unfold tkey, solver_file_name. intros H.
  apply app_inv_head in H. apply app_inv_tail in H.
  apply ImportFacts._task_id_str_inj, H.
Qed.

Lemma range_NoDup (start stop : Z) : NoDup (Batch.range start stop).
Proof.
  unfold Batch.range. apply NoDup_fmap_2; [|apply NoDup_seq].
  intros i j H. lia.
Qed.

Lemma task_loop_keys (w : world) (folders : list text) (tids : list Z) :
  forall (tasks tasks' : dict (dict rowval)) (summ summ' : dict running)
         (mods mods' : registry) (h h' : heap),
  task_loop w folders tids tasks summ mods h = (inr (tasks', summ'), mods', h') ->
  NoDup (map tkey tids) ->
  (forall tid, tid ∈ tids -> tkey tid ∉ map fst tasks) ->
  map fst tasks' = map fst tasks ++ map tkey tids.
Proof.
  induction tids as [|tid tids IH]; intros tasks tasks' summ summ' mods mods' h h' E Hnd Hnew;
    cbn [task_loop] in E.
  - injection E as <- _ _ _. rewrite app_nil_r. reflexivity.
  - destruct (folder_loop _ _ _ _ _ _ _) as [[[e|[row summ1]] mods1] h1]; [discriminate|].
    destruct (scores_of row folders []) as [e|scores]; [discriminate|].
    cbn [map] in Hnd. apply NoDup_cons in Hnd as [Hk Hnd].
    apply IH in E; [|exact Hnd|].
    + rewrite E, dict_set_keys_new by (apply Hnew; left).
      rewrite map_app, <- app_assoc. reflexivity.
    + intros t Ht. rewrite dict_set_keys_new by (apply Hnew; left).
      rewrite map_app. cbn [map fst]. intros Hc. apply elem_of_app in Hc as [Hc|Hc].
      * apply (Hnew t); [right; exact Ht | exact Hc].
      * apply list_elem_of_singleton in Hc. apply Hk. rewrite <- Hc.
        apply list_elem_of_fmap. eauto.
Qed.

Lemma total_wins_adjust (f : text) (wins : dict nat) :
  is_Some (dict_get f wins) -> total_wins (dict_adjust f S wins) = S (total_wins wins).
Proof.
  induction wins as [|[k n] wins IH]; cbn [dict_get dict_adjust].
  - intros [? [=]].
  - destruct (bool_decide (k = f)); [reflexivity|].
    intros H. cbn [total_wins foldr snd]. unfold total_wins in IH. rewrite IH by exact H.
    lia.
Qed.

Lemma total_wins_zero (wins : dict nat) :
  Forall (fun kv => snd kv = 0%nat) wins -> total_wins wins = 0%nat.
Proof.
  induction 1 as [|kv d Hkv _ IH]; [reflexivity|].
  cbn [total_wins foldr]. unfold total_wins in IH. rewrite IH, Hkv. reflexivity.
Qed.

Lemma tally_wins_total (rows : list (text * dict rowval)) :
  forall (wins wins' : dict nat) (ties ties' : nat),
  tally_wins rows wins ties = inr (wins', ties') ->
  (total_wins wins' + ties' = total_wins wins + ties + length rows)%nat
  /\ map fst wins' = map fst wins.
Proof.
  induction rows as [|[k row] rows IH]; intros wins wins' ties ties' E; cbn [tally_wins] in E.
  - injection E as <- <-. cbn [length]. split; [lia | reflexivity].
  - destruct (row_comparison row) as [e|c]; [discriminate|].
    cbn [length]. destruct (best_folders c) as [|f [|g bests]].
    + apply IH in E as [E1 E2]. split; [lia | exact E2].
    + destruct (dict_get f wins) as [n|] eqn:Eg; [|discriminate].
      apply IH in E as [E1 E2].
      rewrite total_wins_adjust in E1 by (rewrite Eg; eauto).
      rewrite dict_adjust_keys in E2. split; [lia | exact E2].
    + apply IH in E as [E1 E2]. split; [lia | exact E2].
Qed.

(** What a run of [evaluate_folders] that returns went through. *)
Lemma evaluate_folders_returns (w : world) (folders : list text) (start end_ : Z)
    (mods mods' : registry) (h h' : heap) (r : report) :
  evaluate_folders w folders start end_ mods h = (inr r, mods', h') ->
  exists tasks summ summary wins ties debt gaps,
    task_loop w folders (Batch.range start (end_ + 1)) []
              (dict_from_keys folders (mk_running 0 0 0 0 (Finite 0%Q) 0)) mods h
    = (inr (tasks, summ), mods', h')
    /\ finalize (end_ - start + 1) summ = inr summary
    /\ tally_wins tasks (dict_from_keys folders 0%nat) 0 = inr (wins, ties)
    /\ sum_debts tasks (dict_from_keys folders (Finite 0%Q)) = inr debt
    /\ score_gaps folders tasks = inr gaps
    /\ r_tasks r = tasks /\ r_summary r = summary /\ r_folders r = folders
    /\ wins_by_folder (r_insights r) = wins /\ ties_count (r_insights r) = ties
    /\ score_debt (r_insights r) = debt
    /\ largest_score_gaps_top20 (r_insights r) = take 20 (sorted_desc snd gaps).
Proof.
  unfold evaluate_folders. cbv zeta.
  destruct (task_loop _ _ _ _ _ _ _) as [[[e|[tasks summ]] mods1] h1] eqn:El; [discriminate|].
  destruct (finalize _ summ) as [e|summary] eqn:Ef; [discriminate|].
  destruct (tally_wins _ _ _) as [e|[wins ties]] eqn:Et; [discriminate|].
  destruct (sum_debts _ _) as [e|debt] eqn:Ed; [discriminate|].
  destruct (score_gaps _ _) as [e|gaps] eqn:Eg; [discriminate|].
  intros [= <- <- <-]. exists tasks, summ, summary, wins, ties, debt, gaps.
  split; [reflexivity|]. split; [exact Ef|]. split; [exact Et|].
  split; [exact Ed|]. split; [exact Eg|]. cbn. repeat split.
Qed.

(** On tasks 0 and 1 of the sample repository, compared across the
    folders [submission] and [b], the run returns. *)
Lemma sample_compare_returns :
  exists r mods' h',
    evaluate_folders Samples.sample_world [lit "submission"; lit "b"] 0 1 ∅
                     Samples.sample_heap = (inr r, mods', h').
Proof.
  assert (H : match (evaluate_folders Samples.sample_world [lit "submission"; lit "b"]
                       0 1 ∅ Samples.sample_heap).1.1 with
              | inr _ => True
              | inl _ => False
              end) by (vm_compute; exact I).
  destruct (evaluate_folders _ _ _ _ _ _) as [[[e|r] mods'] h']; [contradiction|].
  eauto.
Qed.

(** X17.  When [evaluate_folders] returns, ["tasks"] has one row per
    task id of the range, keyed [task{tid:03d}.py] in increasing order of
    the ids (no two ids share a key); every row counts once, as a win of
    one folder or as a tie: the wins of all folders and ["ties_count"]
    sum to the number of tasks; and ["wins_by_folder"] has exactly the
    given folders as keys. *)
Theorem wins_and_ties_cover_the_range (w : world) (folders : list text) (start end_ : Z)
    (mods mods' : registry) (h h' : heap) (r : report) :
  evaluate_folders w folders start end_ mods h = (inr r, mods', h') ->
  map fst (r_tasks r) = map tkey (Batch.range start (end_ + 1))
  /\ (total_wins (wins_by_folder (r_insights r)) + ties_count (r_insights r)
      = Z.to_nat (end_ - start + 1))%nat
  /\ (forall f, f ∈ map fst (wins_by_folder (r_insights r)) <-> f ∈ folders).
Proof.
  intros E. apply evaluate_folders_returns in E
    as (tasks & summ & summary & wins & ties & debt & gaps
        & El & _ & Et & _ & _ & -> & _ & _ & -> & -> & _).
  apply task_loop_keys in El.
  - cbn [map app] in El. apply tally_wins_total in Et as [Et Ek].
    split; [exact El|]. split.
    + assert (Hz : total_wins (dict_from_keys folders 0%nat) = 0%nat).
      { apply total_wins_zero, dict_from_keys_spec. }
      rewrite Et, Hz, <- (length_map fst), El, length_map, BatchFacts.range_length. lia.
    + intros f. rewrite Ek. apply dict_from_keys_spec.
  - apply NoDup_fmap_2; [exact tkey_inj | apply range_NoDup].
  - intros tid _ Hc. apply elem_of_nil in Hc. exact Hc.
Qed.

(** X17, witness: tasks 0 and 1 of the sample repository in two
    folders. *)
Lemma wins_and_ties_cover_the_range_witness :
  exists r mods' h',
    evaluate_folders Samples.sample_world [lit "submission"; lit "b"] 0 1 ∅
                     Samples.sample_heap = (inr r, mods', h')
    /\ map fst (r_tasks r) = map tkey (Batch.range 0 (1 + 1))
    /\ (total_wins (wins_by_folder (r_insights r)) + ties_count (r_insights r)
        = Z.to_nat (1 - 0 + 1))%nat
    /\ (forall f, f ∈ map fst (wins_by_folder (r_insights r))
                  <-> f ∈ [lit "submission"; lit "b"]).
Proof.
  destruct sample_compare_returns as (r & mods' & h' & E).
  exists r, mods', h'. split; [exact E|].
  exact (wins_and_ties_cover_the_range _ _ _ _ _ _ _ _ _ E).
Defined.

(** *** The counters of a folder *)

Lemma compare_eval_one_flags (w : world) (src_dir : text) (tid : Z)
    (mods mods' : registry) (h h' : heap) (m : meta) :
  _eval_one w src_dir tid mods h = (inr m, mods', h') ->
  passed m = true -> exists_ m = true.
Proof.
  unfold _eval_one.
  destruct (solver_files w _) as [art|] eqn:Ef; [|intros [= <- _ _]; discriminate].
  destruct (load_task _ _ _ tid h) as [[e|tjson] h1]; [discriminate|].
  unfold CompareSolutions._eval_one. rewrite Ef.
  destruct (_import_solver_from _ _ _ _) as [[e|[program file_path]] mods1].
  - destruct (is_Exception e); [|discriminate]. intros [= <- _ _]. discriminate.
  - destruct (evaluate_with _ _ _ _ _ _) as [[e|[[[[[n sc] ok] agi] gen] tb]] h2].
    + destruct (is_Exception e); [|discriminate]. intros [= <- _ _]. discriminate.
    + intros [= <- _ _]. reflexivity.
Qed.

Lemma count_keeps (s : running) (m : meta) :
  (passed m = true -> exists_ m = true) ->
  ((solved s + failed s = present s)%nat ->
   (solved (count s m) + failed (count s m) = present (count s m))%nat)
  /\ (present (count s m) + missing (count s m) = S (present s + missing s))%nat.
Proof.
  intros Hp. unfold count. cbn [present solved failed missing].
  destruct (passed m) eqn:E1, (exists_ m) eqn:E2; try (split; lia).
  all: specialize (Hp eq_refl); discriminate.
Qed.

Lemma folder_loop_counts (w : world) (tid : Z) (fs : list (text * text)) :
  forall (row row' : dict rowval) (summ summ' : dict running)
         (mods mods' : registry) (h h' : heap),
  folder_loop w tid fs row summ mods h = (inr (row', summ'), mods', h') ->
  map fst summ' = map fst summ
  /\ forall f s, dict_get f summ = Some s ->
     exists s', dict_get f summ' = Some s'
       /\ ((solved s + failed s = present s)%nat
           -> (solved s' + failed s' = present s')%nat)
       /\ (present s' + missing s'
           = present s + missing s + length (filter (fun g => g = f) (map fst fs)))%nat.
Proof.
  induction fs as [|[folder absf] fs IH]; intros row row' summ summ' mods mods' h h' E;
    cbn [folder_loop] in E.
  - injection E as _ <- _ _. split; [reflexivity|]. intros f s Hs.
    exists s. split; [exact Hs|]. split; [auto | cbn; lia].
  - destruct (_eval_one w absf tid mods h) as [[[e|m] mods1] h1] eqn:E1; [discriminate|].
    pose proof (compare_eval_one_flags _ _ _ _ _ _ _ _ E1) as Hp.
    apply IH in E as [Ek E]. rewrite dict_adjust_keys in Ek. split; [exact Ek|].
    intros f s Hs. cbn [map fst]. rewrite filter_cons.
    destruct (count_keeps s m Hp) as [Hok Hev].
    destruct (decide (folder = f)) as [->|Hne].
    + destruct (E f (count s m)) as (s' & Hs' & Hok' & Hev').
      { rewrite dict_get_adjust, bool_decide_eq_true_2, Hs by reflexivity. reflexivity. }
      exists s'. split; [exact Hs'|]. split; [auto|]. cbn [length]. lia.
    + destruct (E f s) as (s' & Hs' & Hok' & Hev').
      { rewrite dict_get_adjust, bool_decide_eq_false_2 by exact Hne. exact Hs. }
      exists s'. auto.
Qed.

Lemma task_loop_counts (w : world) (folders : list text) (tids : list Z) :
  forall (tasks tasks' : dict (dict rowval)) (summ summ' : dict running)
         (mods mods' : registry) (h h' : heap),
  task_loop w folders tids tasks summ mods h = (inr (tasks', summ'), mods', h') ->
  map fst summ' = map fst summ
  /\ forall f s, dict_get f summ = Some s ->
     exists s', dict_get f summ' = Some s'
       /\ ((solved s + failed s = present s)%nat
           -> (solved s' + failed s' = present s')%nat)
       /\ (present s' + missing s'
           = present s + missing s
             + length tids * length (filter (fun g => g = f) folders))%nat.
Proof.
  induction tids as [|tid tids IH]; intros tasks tasks' summ summ' mods mods' h h' E;
    cbn [task_loop] in E.
  - injection E as _ <- _ _. split; [reflexivity|]. intros f s Hs.
    exists s. split; [exact Hs|]. split; [auto | cbn; lia].
  - destruct (folder_loop _ _ _ _ _ _ _) as [[[e|[row summ1]] mods1] h1] eqn:Ef;
      [discriminate|].
    destruct (scores_of row folders []) as [e|scores]; [discriminate|].
    apply folder_loop_counts in Ef as [Ek1 E1]. apply IH in E as [Ek2 E2].
    split; [congruence|]. intros f s Hs.
    destruct (E1 f s Hs) as (s1 & Hs1 & Hok1 & Hev1).
    destruct (E2 f s1 Hs1) as (s2 & Hs2 & Hok2 & Hev2).
    exists s2. split; [exact Hs2|]. split; [auto|].
    rewrite map_map in Hev1. cbn [fst] in Hev1. rewrite map_id in Hev1.
    cbn [length]. lia.
Qed.

Lemma finalize_counts (total : Z) (summ : dict running) :
  forall summary, finalize total summ = inr summary ->
  map (fun kv => (fst kv, counts (snd kv))) summary = summ.
Proof.
  induction summ as [|[f s] summ IH]; intros summary E; cbn [finalize] in E.
  - injection E as <-. reflexivity.
  - destruct (finalize_one total s) as [e|fs] eqn:E1; [discriminate|].
    destruct (finalize total summ) as [e|rest]; [discriminate|].
    injection E as <-. cbn [map fst snd]. rewrite (IH rest eq_refl). f_equal. f_equal.
    unfold finalize_one in E1.
    destruct (if total =? 0 then _ else _) as [e|avg]; [discriminate|].
    destruct (if (present s =? 0)%nat then _ else _) as [e|avg_bytes]; [discriminate|].
    destruct (if total =? 0 then _ else _) as [e|rate]; [discriminate|].
    injection E1 as <-. reflexivity.
Qed.

(** X18.  When [evaluate_folders] returns, ["summary"] has one entry per
    folder given; in each, solved + failed = present, and present +
    missing is the number of tasks of the range, multiplied by the number
    of times the folder occurs in the list given (a folder listed twice is
    counted twice for every task). *)
Theorem folder_counters (w : world) (folders : list text) (start end_ : Z)
    (mods mods' : registry) (h h' : heap) (r : report) :
  evaluate_folders w folders start end_ mods h = (inr r, mods', h') ->
  NoDup (map fst (r_summary r))
  /\ (forall f, f ∈ map fst (r_summary r) <-> f ∈ folders)
  /\ Forall (fun kv =>
               let c := counts (snd kv) in
               (solved c + failed c = present c)%nat
               /\ (present c + missing c
                   = Z.to_nat (end_ - start + 1)
                     * length (filter (fun g => g = fst kv) folders))%nat)
            (r_summary r).
Proof.
  intros E. apply evaluate_folders_returns in E
    as (tasks & summ & summary & wins & ties & debt & gaps
        & El & Ef & _ & _ & _ & _ & -> & _).
  apply task_loop_counts in El as [Ek El]. apply finalize_counts in Ef.
  destruct (dict_from_keys_spec folders (mk_running 0 0 0 0 (Finite 0%Q) 0))
    as (Hnd & Hkeys & Hzero).
  assert (Hk : map fst summary = map fst summ).
  { rewrite <- Ef, map_map. reflexivity. }
  rewrite Hk, Ek. split; [exact Hnd|]. split; [exact Hkeys|].
  apply Forall_forall. intros [f fs] Hin. cbn [fst snd]. cbv zeta.
  assert (Hin' : (f, counts fs) ∈ summ).
  { rewrite <- Ef. apply list_elem_of_fmap. exists (f, fs). auto. }
  assert (Hf : f ∈ map fst (dict_from_keys folders (mk_running 0 0 0 0 (Finite 0%Q) 0))).
  { rewrite <- Ek. apply list_elem_of_fmap. exists (f, counts fs). auto. }
  apply dict_get_is_Some in Hf as [s0 Hs0].
  assert (Hz : s0 = mk_running 0 0 0 0 (Finite 0%Q) 0).
  { apply dict_get_Some_elem in Hs0. rewrite Forall_forall in Hzero.
    exact (Hzero _ Hs0). }
  destruct (El f s0 Hs0) as (s' & Hs' & Hok & Hev).
  assert (Hs : dict_get f summ = Some (counts fs)).
  { apply dict_elem_get; [rewrite Ek; exact Hnd | exact Hin']. }
  rewrite Hs in Hs'. injection Hs' as <-. subst s0.
  cbn [present solved failed missing] in Hok, Hev.
  rewrite BatchFacts.range_length in Hev. split; [apply Hok; reflexivity|].
  rewrite Hev. f_equal. lia.
Qed.

(** X18, witness: tasks 0 and 1 of the sample repository in two
    folders. *)
Lemma folder_counters_witness :
  exists r mods' h',
    evaluate_folders Samples.sample_world [lit "submission"; lit "b"] 0 1 ∅
                     Samples.sample_heap = (inr r, mods', h')
    /\ NoDup (map fst (r_summary r))
    /\ (forall f, f ∈ map fst (r_summary r) <-> f ∈ [lit "submission"; lit "b"])
    /\ Forall (fun kv =>
                 let c := counts (snd kv) in
                 (solved c + failed c = present c)%nat
                 /\ (present c + missing c
                     = Z.to_nat (1 - 0 + 1)
                       * length (filter (fun g => g = fst kv)
                                        [lit "submission"; lit "b"]))%nat)
              (r_summary r).
Proof.
  destruct sample_compare_returns as (r & mods' & h' & E).
  exists r, mods', h'. split; [exact E|].
  exact (folder_counters _ _ _ _ _ _ _ _ _ E).
Defined.

(** *** Edge cases *)

Lemma finalize_zero (d : dict running) :
  Forall (fun kv => snd kv = mk_running 0 0 0 0 (Finite 0%Q) 0) d ->
  finalize 0 d
  = inr (map (fun kv => (fst kv,
                         mk_folder_summary (mk_running 0 0 0 0 (Finite 0%Q) 0)
                                           (Finite 0%Q) (Finite 0%Q) (Finite 0%Q))) d).
Proof.
  induction 1 as [|[f s] d Hs _ IH]; [reflexivity|].
  cbn [snd] in Hs. subst s. cbn [finalize]. rewrite IH. reflexivity.
Qed.

(** X19.  On the empty range with [end == start - 1],
    [evaluate_folders] returns (where [eval_all.evaluate_all] divides by
    zero): no task is evaluated, ["tasks"] is empty, and every folder has
    a summary of zero counters, with the three averages set to 0.0 by
    the guards on the divisors. *)
Theorem empty_range_is_compared (w : world) (folders : list text) (start : Z)
    (mods : registry) (h : heap) :
  exists r,
    evaluate_folders w folders start (start - 1) mods h = (inr r, mods, h)
    /\ r_tasks r = []
    /\ ties_count (r_insights r) = 0%nat
    /\ (forall f, f ∈ map fst (r_summary r) <-> f ∈ folders)
    /\ Forall (fun kv =>
                 snd kv = mk_folder_summary (mk_running 0 0 0 0 (Finite 0%Q) 0)
                                            (Finite 0%Q) (Finite 0%Q) (Finite 0%Q))
              (r_summary r).
Proof.
  destruct (dict_from_keys_spec folders (mk_running 0 0 0 0 (Finite 0%Q) 0))
    as (Hnd & Hkeys & Hzero).
  unfold evaluate_folders, Batch.range.
  replace (start - 1 + 1 - start) with 0 by lia.
  replace (start - 1 - start + 1) with 0 by lia.
  change (Z.to_nat 0) with 0%nat. cbn [seq map task_loop]. cbv zeta.
  rewrite (finalize_zero _ Hzero).
  cbn [tally_wins sum_debts score_gaps]. eexists. split; [reflexivity|].
  cbn [r_tasks r_insights r_summary ties_count].
  split; [reflexivity|]. split; [reflexivity|]. split.
  - intros f. rewrite map_map. cbn [fst]. apply Hkeys.
  - apply Forall_fmap, Forall_forall. intros kv _. reflexivity.
Qed.

Lemma dict_set_Forall {V : Type} (P : V -> Prop) (k : text) (v : V) (d : dict V) :
  P v -> Forall (fun kv => P (snd kv)) d -> Forall (fun kv => P (snd kv)) (dict_set k v d).
Proof.
  intros Hv. induction 1 as [|[k0 v0] d Hk Hd IH]; cbn [dict_set].
  - constructor; [exact Hv | constructor].
  - destruct (bool_decide (k0 = k)); constructor; assumption.
Qed.

Lemma task_loop_rows (w : world) (folders : list text) (tids : list Z) :
  forall (tasks tasks' : dict (dict rowval)) (summ summ' : dict running)
         (mods mods' : registry) (h h' : heap),
  task_loop w folders tids tasks summ mods h = (inr (tasks', summ'), mods', h') ->
  Forall (fun kv => exists c, dict_get (lit "_comparison") (snd kv) = Some (RComparison c))
         tasks ->
  Forall (fun kv => exists c, dict_get (lit "_comparison") (snd kv) = Some (RComparison c))
         tasks'.
Proof.
  induction tids as [|tid tids IH]; intros tasks tasks' summ summ' mods mods' h h' E Hall;
    cbn [task_loop] in E.
  - injection E as <- _ _ _. exact Hall.
  - destruct (folder_loop _ _ _ _ _ _ _) as [[[e|[row summ1]] mods1] h1]; [discriminate|].
    destruct (scores_of row folders []) as [e|scores]; [discriminate|].
    apply IH in E; [exact E|].
    apply (dict_set_Forall
             (fun row => exists c, dict_get (lit "_comparison") row = Some (RComparison c)));
      [|exact Hall].
    eexists. rewrite dict_get_set, bool_decide_eq_true_2 by reflexivity. reflexivity.
Qed.

Lemma scores_in_reserved (row : dict rowval) (c : comparison) (folders : list text) :
  dict_get (lit "_comparison") row = Some (RComparison c) ->
  lit "_comparison" ∈ folders ->
  forall acc, exists e, scores_in row folders acc = inl e.
Proof.
  intros Hc. induction folders as [|f folders IH]; intros Hin acc.
  - apply elem_of_nil in Hin. contradiction.
  - cbn [scores_in]. destruct (decide (f = lit "_comparison")) as [->|Hne].
    + rewrite Hc. unfold row_score. rewrite Hc. eauto.
    + apply elem_of_cons in Hin as [Hin|Hin]; [congruence|].
      destruct (dict_get f row) as [v|]; [|apply IH, Hin].
      destruct (row_score row f) as [e|sc]; [eauto | apply IH, Hin].
Qed.

(** X20.  The key ["_comparison"] of a row is taken: on a range that is
    not empty, [evaluate_folders] never returns a report when one of the
    folders given is named [_comparison].  The record of that folder is
    overwritten by the comparison of the task, and the gap computation
    then looks up ["score"] in the comparison ([KeyError]), unless the run
    has ended with another exception before. *)
Theorem reserved_folder_name (w : world) (folders : list text) (start end_ : Z)
    (mods : registry) (h : heap) :
  lit "_comparison" ∈ folders -> start <= end_ ->
  exists e mods' h', evaluate_folders w folders start end_ mods h = (inl e, mods', h').
Proof.
  intros Hin Hle.
  destruct (evaluate_folders w folders start end_ mods h) as [[[e|r] mods'] h'] eqn:E;
    [eauto|].
  exfalso. apply evaluate_folders_returns in E
    as (tasks & summ & summary & wins & ties & debt & gaps
        & El & _ & _ & _ & Eg & _).
  pose proof (task_loop_keys _ _ _ _ _ _ _ _ _ _ _ El) as Hk.
  apply task_loop_rows in El; [|constructor].
  destruct tasks as [|[key row] tasks].
  - cbn [map app] in Hk. symmetry in Hk. apply fmap_nil_inv in Hk.
    + apply (f_equal length) in Hk. rewrite BatchFacts.range_length in Hk.
      cbn in Hk. lia.
    + apply NoDup_fmap_2; [exact tkey_inj | apply range_NoDup].
    + intros tid _ Hc. apply elem_of_nil in Hc. exact Hc.
  - apply Forall_cons in El as [[c Hc] _]. cbn [snd] in Hc.
    cbn [score_gaps] in Eg.
    destruct (scores_in_reserved row c folders Hc Hin []) as [e He].
    rewrite He in Eg. discriminate.
Qed.

(** X20, witness: the sample repository with the one folder
    [_comparison]. *)
Lemma reserved_folder_name_witness :
  exists e mods' h',
    evaluate_folders Samples.sample_world [lit "_comparison"] 0 1 ∅ Samples.sample_heap
    = (inl e, mods', h').
Proof.
  apply (reserved_folder_name Samples.sample_world [lit "_comparison"] 0 1 ∅
           Samples.sample_heap); [left | lia].
Defined.

(** *** Score debts *)

Lemma fadd_nonneg (a b : xfloat) : nonneg a -> nonneg b -> nonneg (fadd a b).
Proof.
  destruct a as [x|[|]|], b as [y|[|]|]; cbn [nonneg fadd]; try discriminate;
    try contradiction; try reflexivity.
  intros Hx Hy. apply round64_nonneg.
  rewrite <- (Qplus_0_r 0). apply Qplus_le_compat; assumption.
Qed.

Lemma dict_adjust_Forall {V : Type} (P : V -> Prop) (k : text) (f : V -> V) (d : dict V) :
  (forall v, P v -> P (f v)) ->
  Forall (fun kv => P (snd kv)) d -> Forall (fun kv => P (snd kv)) (dict_adjust k f d).
Proof.
  intros Hf. induction 1 as [|[k0 v0] d Hk Hd IH]; cbn [dict_adjust]; [constructor|].
  destruct (bool_decide (k0 = k)); constructor; cbn in *; auto.
Qed.

Lemma add_debts_nonneg (debts : list (text * xfloat)) :
  forall acc acc' : dict xfloat,
  add_debts debts acc = inr acc' ->
  Forall (fun kv => nonneg (snd kv)) debts ->
  Forall (fun kv => nonneg (snd kv)) acc ->
  Forall (fun kv => nonneg (snd kv)) acc' /\ map fst acc' = map fst acc.
Proof.
  induction debts as [|[f debt] debts IH]; intros acc acc' E Hd Ha; cbn [add_debts] in E.
  - injection E as <-. auto.
  - destruct (dict_get f acc); [|discriminate].
    apply Forall_cons in Hd as [Hdebt Hd]. cbn [snd] in Hdebt.
    apply IH in E as [E1 E2]; [| exact Hd |].
    + rewrite dict_adjust_keys in E2. auto.
    + apply (dict_adjust_Forall nonneg); [|exact Ha].
      intros v Hv. apply fadd_nonneg; assumption.
Qed.

Lemma sum_debts_nonneg (rows : list (text * dict rowval)) :
  forall acc acc' : dict xfloat,
  sum_debts rows acc = inr acc' ->
  Forall (fun kv => exists scores,
            dict_get (lit "_comparison") (snd kv)
            = Some (RComparison (compare_scores scores))) rows ->
  Forall (fun kv => nonneg (snd kv)) acc ->
  Forall (fun kv => nonneg (snd kv)) acc' /\ map fst acc' = map fst acc.
Proof.
  induction rows as [|[key row] rows IH]; intros acc acc' E Hr Ha; cbn [sum_debts] in E.
  - injection E as <-. auto.
  - apply Forall_cons in Hr as [[scores Hc] Hr]. cbn [snd] in Hc.
    unfold row_comparison in E. rewrite Hc in E.
    destruct (add_debts _ acc) as [e|acc1] eqn:Ea; [discriminate|].
    apply add_debts_nonneg in Ea as [Ea1 Ea2]; [| |exact Ha].
    + apply IH in E as [E1 E2]; [|exact Hr|exact Ea1]. split; [exact E1 | congruence].
    + destruct (comparison_debts scores) as [_ Hn]. exact Hn.
Qed.

Lemma task_loop_comparisons (w : world) (folders : list text) (tids : list Z) :
  forall (tasks tasks' : dict (dict rowval)) (summ summ' : dict running)
         (mods mods' : registry) (h h' : heap),
  task_loop w folders tids tasks summ mods h = (inr (tasks', summ'), mods', h') ->
  Forall (fun kv => exists scores,
            dict_get (lit "_comparison") (snd kv)
            = Some (RComparison (compare_scores scores))) tasks ->
  Forall (fun kv => exists scores,
            dict_get (lit "_comparison") (snd kv)
            = Some (RComparison (compare_scores scores))) tasks'.
Proof.
  induction tids as [|tid tids IH]; intros tasks tasks' summ summ' mods mods' h h' E Hall;
    cbn [task_loop] in E.
  - injection E as <- _ _ _. exact Hall.
  - destruct (folder_loop _ _ _ _ _ _ _) as [[[e|[row summ1]] mods1] h1]; [discriminate|].
    destruct (scores_of row folders []) as [e|scores]; [discriminate|].
    apply IH in E; [exact E|].
    apply (dict_set_Forall
             (fun row => exists scores,
                dict_get (lit "_comparison") row
                = Some (RComparison (compare_scores scores))));
      [|exact Hall].
    exists scores. rewrite dict_get_set, bool_decide_eq_true_2 by reflexivity. reflexivity.
Qed.

(** X26.  When [evaluate_folders] returns, ["score_debt_by_folder"] of
    the insights has exactly the folders given as keys, and no debt is
    negative: each is a sum of differences between the best score of a
    task and the score of the folder. *)
Theorem score_debts_are_not_negative (w : world) (folders : list text) (start end_ : Z)
    (mods mods' : registry) (h h' : heap) (r : report) :
  evaluate_folders w folders start end_ mods h = (inr r, mods', h') ->
  (forall f, f ∈ map fst (score_debt (r_insights r)) <-> f ∈ folders)
  /\ Forall (fun kv => nonneg (snd kv)) (score_debt (r_insights r)).
Proof.
  intros E. apply evaluate_folders_returns in E
    as (tasks & summ & summary & wins & ties & debt & gaps
        & El & _ & _ & Ed & _ & _ & _ & _ & _ & _ & -> & _).
  apply task_loop_comparisons in El; [|constructor].
  destruct (dict_from_keys_spec folders (Finite 0%Q)) as (_ & Hkeys & Hzero).
  apply sum_debts_nonneg in Ed as [E1 E2]; [| exact El |].
  - split; [|exact E1]. intros f. rewrite E2. apply Hkeys.
  - eapply Forall_impl; [exact Hzero|]. intros kv ->. cbn. apply Qle_refl.
Qed.

(** X26, witness: tasks 0 and 1 of the sample repository in two
    folders. *)
Lemma score_debts_are_not_negative_witness :
  exists r mods' h',
    evaluate_folders Samples.sample_world [lit "submission"; lit "b"] 0 1 ∅
                     Samples.sample_heap = (inr r, mods', h')
    /\ (forall f, f ∈ map fst (score_debt (r_insights r))
                  <-> f ∈ [lit "submission"; lit "b"])
    /\ Forall (fun kv => nonneg (snd kv)) (score_debt (r_insights r)).
Proof.
  destruct sample_compare_returns as (r & mods' & h' & E).
  exists r, mods', h'. split; [exact E|].
  exact (score_debts_are_not_negative _ _ _ _ _ _ _ _ _ E).
Defined.

End CompareFacts.

(** ** The diagnostics of the verifier *)

Module DetailFacts.
Import Text Json Numpy Loader Store Evaluator Import_ Report Diagnostics VerifierFacts.

Section Diagnostics.

Variable program : solver.

Lemma loop_body_recorded (st st' : split_state) (ex : pair) (h h' : heap) :
  loop_body program st ex h = (inr st', h') -> recorded st -> recorded st'.
Proof.
  unfold recorded.
  loop_body_cases; intros [= <- <-] [Hd Ht]; cbn [first_wrong_detail wrong err_tb];
    try (split; [exact Hd | exact Ht]);
    (split; [|discriminate]);
    unfold note_detail; destruct (first_wrong_detail st); split; discriminate.
Qed.

Lemma verify_loop_recorded (pairs : list pair) :
  forall (st st' : split_state) (h h' : heap),
  verify_loop program st pairs h = (inr st', h') -> recorded st -> recorded st'.
Proof.
  induction pairs as [|ex pairs IH]; intros st st' h h' E Hr; cbn [verify_loop] in E.
  - injection E as <- _. exact Hr.
  - destruct (loop_body program st ex h) as [[e|st1] h1] eqn:Eb; [discriminate|].
    eapply IH; [exact E|]. eapply loop_body_recorded; eassumption.
Qed.





End Diagnostics.



Lemma verify_split_clean (program : solver) (pairs : list pair) (h h' : heap)
    (r w : nat) (d : option detail) (tb : text) :
  _verify_split program pairs h = (inr (r, w, d, tb), h') ->
  (r + w = length pairs)%nat /\ (w = 0%nat -> d = None /\ tb = []).
Proof.
  unfold _verify_split.
  destruct (verify_loop program _ pairs h) as [[e|st'] h1] eqn:E; [discriminate|].
  intros [= <- <- <- <- <-].
  assert (Hstart : recorded (mk_state 0 0 None [])).
  { split; [split; reflexivity | reflexivity]. }
  pose proof (verify_loop_recorded program pairs _ _ _ _ E Hstart) as [Hrec Htb].
  apply verify_loop_counts in E as [E _]. cbn [right wrong] in E.
  split; [lia|]. intros Hw. split; [apply Hrec, Hw | apply Htb, Hw].
Qed.

(** X22.  What a record of [eval_all._eval_one] with ["passed"] true
    means: the solver file exists, every pair of both splits passed (the
    pass counts are the numbers of pairs of the task, the fail counts are
    zero), ["error"] is empty, and the score is at least 1. *)
Theorem passed_record_is_clean (submission_dir : text) (task_id : Z) (file_exists : bool)
    (tjson : task pair) (fs : filesystem) (mods mods' : registry) (h h' : heap)
    (m : meta) :
  EvalAll._eval_one submission_dir task_id file_exists tjson fs mods h
  = (inr m, mods', h') ->
  passed m = true ->
  exists_ m = true
  /\ arc_agi m = (length (t_train tjson ++ t_test tjson), 0%nat)
  /\ arc_gen m = (length (t_arc_gen tjson), 0%nat)
  /\ error m = []
  /\ (1 <= score m)%Q.
Proof.
  unfold EvalAll._eval_one. destruct file_exists; cbn [negb];
    [|intros [= <- _ _]; discriminate].
  destruct (_import_solver _ _ _ _) as [[e|[program file_path]] mods1].
  { destruct (is_Exception e); [|discriminate]. intros [= <- _ _]. discriminate. }
  unfold evaluate_with.
  destruct (_verify_split program _ h) as [[e|[[[ar aw] ad] atb]] h1] eqn:Ea.
  { destruct (is_Exception e); [|discriminate]. intros [= <- _ _]. discriminate. }
  destruct (_verify_split program _ h1) as [[e|[[[gr gw] gd] gtb]] h2] eqn:Eg.
  { destruct (is_Exception e); [|discriminate]. intros [= <- _ _]. discriminate. }
  destruct (get_file_bytes fs file_path) as [e|n].
  { destruct (is_Exception e); [|discriminate]. intros [= <- _ _]. discriminate. }
  destruct (Score.score_for_length n _) as [sc|] eqn:Es.
  2:{ cbn. intros [= <- _ _]. discriminate. }
  intros [= <- _ _]. cbn [passed exists_ arc_agi arc_gen error score]. intros Hp.
  apply andb_prop in Hp as [Hw1 Hw2]. apply Nat.eqb_eq in Hw1, Hw2. subst aw gw.
  apply verify_split_clean in Ea as [Ha1 Ha2], Eg as [Hg1 Hg2].
  destruct (Ha2 eq_refl) as [_ ->]. destruct (Hg2 eq_refl) as [_ ->].
  split; [reflexivity|]. split; [f_equal; lia|]. split; [f_equal; lia|].
  split; [reflexivity|].
  cbn [Nat.eqb andb] in Es. apply SingleFacts.score_tells_verdict in Es.
  apply Es. reflexivity.
Qed.

(** X22, witness: task 1 of the sample repository, whose solver
    passes. *)
Lemma passed_record_is_clean_witness :
  exists m,
    exists_ m = true
    /\ arc_agi m = (length (t_train Samples.sample_pairs ++ t_test Samples.sample_pairs),
                    0%nat)
    /\ arc_gen m = (length (t_arc_gen Samples.sample_pairs), 0%nat)
    /\ error m = []
    /\ (1 <= score m)%Q.
Proof.
  assert (H : match (EvalAll._eval_one (lit "/repo/submission") 1 true
                       Samples.sample_pairs (Tasks.solver_files Samples.sample_world)
                       ∅ Samples.sample_pairs_heap).1.1 with
              | inr m => passed m = true
              | inl _ => False
              end) by (vm_compute; reflexivity).
  destruct (EvalAll._eval_one _ _ _ _ _ _ _) as [[[e|m] mods'] h'] eqn:E;
    [contradiction|].
  exists m. exact (passed_record_is_clean _ _ _ _ _ _ _ _ _ _ E H).
Defined.

End DetailFacts.

(** ** loader.py: where a task is read from *)

Module LoaderFacts.
Import Text Loader Store Evaluator Import_ Tasks.

Lemma _task_id_str_chars (a : Z) (c : ascii) :
  c ∈ _task_id_str a -> c = "-"%char \/ is_digit c = true.
Proof.
  assert (Hbody : forall k n, c ∈ replicate k "0"%char ++ str_N n -> is_digit c = true).
  { intros k n Hin. apply elem_of_app in Hin as [Hin|Hin].
    - apply elem_of_replicate in Hin as [-> _]. reflexivity.
    - pose proof (TextFacts.str_N_all_digits n) as Hd.
      rewrite forallb_forall in Hd. apply Hd, list_elem_of_In, Hin. }
  unfold _task_id_str, format_03d. destruct (a <? 0).
  - intros Hin. apply elem_of_cons in Hin as [->|Hin]; [left; reflexivity|].
    right. exact (Hbody _ _ Hin).
  - intros Hin. right. exact (Hbody _ _ Hin).
Qed.

Lemma task_json_name_no_slash (a : Z) : "/"%char ∉ task_json_name a.
Proof.
  unfold task_json_name. intros Hin.
  apply elem_of_app in Hin as [Hin|Hin].
  { cbn in Hin. repeat (apply elem_of_cons in Hin as [Hin|Hin]; [discriminate|]).
    apply elem_of_nil in Hin. exact Hin. }
  apply elem_of_app in Hin as [Hin|Hin].
  - apply _task_id_str_chars in Hin as [Hin|Hin]; discriminate.
  - cbn in Hin. repeat (apply elem_of_cons in Hin as [Hin|Hin]; [discriminate|]).
    apply elem_of_nil in Hin. exact Hin.
Qed.

Lemma take_while_all (p : ascii -> bool) (s rest : text) :
  forallb p s = true ->
  (match rest with [] => True | c :: _ => p c = false end) ->
  take_while p (s ++ rest) = s.
Proof.
  intros Hs Hr. induction s as [|c s IH]; cbn [app take_while].
  - destruct rest as [|c rest]; [reflexivity|]. cbn [take_while]. rewrite Hr. reflexivity.
  - cbn [forallb] in Hs. apply andb_prop in Hs as [Hc Hs]. rewrite Hc, IH by exact Hs.
    reflexivity.
Qed.

(** The last component of a joined path is the name joined, when the
    name has no slash. *)
Lemma basename_path_join (a b : text) :
  "/"%char ∉ b -> basename (path_join a b) = b.
Proof.
  intros Hb.
  assert (Hall : forallb (fun c => negb (Ascii.eqb c "/"%char)) (rev b) = true).
  { apply forallb_forall. intros c Hc. apply in_rev in Hc.
    destruct (Ascii.eqb_spec c "/"%char) as [->|_]; [|reflexivity].
    exfalso. apply Hb, list_elem_of_In, Hc. }
  unfold basename, path_join. destruct (rev a) as [|c ra] eqn:Ea.
  - rewrite <- (app_nil_r (rev b)), take_while_all by (exact Hall || exact I).
    apply rev_involutive.
  - destruct (Ascii.eqb_spec c "/"%char) as [->|Hne].
    + rewrite rev_app_distr, Ea, take_while_all by (exact Hall || reflexivity).
      apply rev_involutive.
    + change (a ++ "/"%char :: b) with (a ++ ["/"%char] ++ b).
      rewrite !rev_app_distr, <- app_assoc. cbn [rev app].
      rewrite take_while_all by (exact Hall || reflexivity).
      apply rev_involutive.
Qed.

Lemma task_json_name_inj (i j : Z) : task_json_name i = task_json_name j -> i = j.
Proof.
  unfold task_json_name. intros E. apply app_inv_head, app_inv_tail in E.
  apply ImportFacts._task_id_str_inj, E.
Qed.

Lemma candidate_basename (here : text) (t : Z) (path : text) :
  path ∈ _candidate_paths here t -> basename path = task_json_name t.
Proof.
  intros Hp. unfold _candidate_paths in Hp.
  apply elem_of_cons in Hp as [->|Hp];
    [|apply list_elem_of_singleton in Hp as ->];
    apply basename_path_join, task_json_name_no_slash.
Qed.

(** X23.  A path tells the task: the last component of every candidate
    path of a task is [task{tid:03d}.json], so no candidate path of a task
    is a candidate path of another task, whatever the repository root is
    and whichever of the local and Kaggle paths are compared. *)
Theorem candidate_paths_tell_the_task (here : text) (i j : Z) (path : text) :
  i <> j -> path ∈ _candidate_paths here i -> path ∉ _candidate_paths here j.
Proof.
  intros Hne Hi Hj. apply Hne, task_json_name_inj.
  rewrite <- (candidate_basename here i path Hi), <- (candidate_basename here j path Hj).
  reflexivity.
Qed.

(** X23, witness: the local path of task 1 is no candidate for
    task 2. *)
Lemma candidate_paths_tell_the_task_witness :
  lit "/repo/data/tasks/task001.json" ∉ _candidate_paths (lit "/repo") 2.
Proof.
  apply (candidate_paths_tell_the_task (lit "/repo") 1 2); [discriminate | left].
Defined.

End LoaderFacts.

(** ** viz.py: painting stays on the canvas *)

Module VizFacts.
Import Text Json Store Evaluator Viz.

(** An image all of whose rows have the width [w]. *)
Lemma set_pixel_ok (img : image) (w y x : nat) (c : rgb) :
  Forall (fun row => length row = w) img ->
  (y < length img)%nat -> (x < w)%nat ->
  exists img', set_pixel img y x c = inr img'
    /\ length img' = length img /\ Forall (fun row => length row = w) img'.
Proof.
  intros Hw Hy Hx. unfold set_pixel.
  destruct (lookup_lt_is_Some_2 img y Hy) as [row Hrow]. rewrite Hrow.
  assert (Hl : length row = w).
  { rewrite Forall_forall in Hw. apply Hw. eapply list_elem_of_lookup_2, Hrow. }
  destruct (Nat.ltb_spec x (length row)) as [_|]; [|lia].
  eexists. split; [reflexivity|]. split; [apply length_insert|].
  apply Forall_insert; [exact Hw|]. rewrite length_insert. exact Hl.
Qed.

Lemma palette_ok (x : Z) : -10 <= x <= 9 -> exists c, palette (JInt x) = inr c.
Proof.
  intros Hx. unfold palette.
  set (i := if x <? 0 then x + 10 else x).
  assert (Hi : 0 <= i < 10) by (unfold i; destruct (Z.ltb_spec x 0); lia).
  destruct (Z.leb_spec 0 i), (Z.ltb_spec i 10); try lia. cbn [andb].
  destruct (lookup_lt_is_Some_2 PALETTE_RGB (Z.to_nat i)) as [c ->]; [cbn; lia | eauto].
Qed.

Lemma paint_cells_ok (w y offset : nat) (cells : list Z) :
  forall (img : image) (c : nat),
  Forall (fun row => length row = w) img ->
  (y < length img)%nat -> (offset + c + length cells + 1 <= w)%nat ->
  Forall (fun x => -10 <= x <= 9) cells ->
  exists img', paint_cells img y offset (map JInt cells) c = inr img'
    /\ length img' = length img /\ Forall (fun row => length row = w) img'.
Proof.
  induction cells as [|x cells IH]; intros img c Hw Hy Hx Hc; cbn [map paint_cells].
  - eauto.
  - apply Forall_cons in Hc as [Hx0 Hc]. cbn [length] in Hx.
    destruct (palette_ok x Hx0) as [color ->].
    destruct (set_pixel_ok img w y (offset + c + 1) color Hw Hy) as (img1 & -> & Hl1 & Hw1);
      [lia|].
    destruct (IH img1 (S c) Hw1) as (img2 & -> & Hl2 & Hw2); [lia | lia | exact Hc|].
    exists img2. split; [reflexivity|]. split; [congruence | exact Hw2].
Qed.

Lemma paint_rows_ok (w offset gw : nat) (rows : Grid) :
  forall (img : image) (r : nat),
  Forall (fun row => length row = w) img ->
  (r + length rows + 2 <= length img)%nat -> (offset + gw + 1 <= w)%nat ->
  Forall (fun row => length row = gw) rows ->
  Forall (Forall (fun x => -10 <= x <= 9)) rows ->
  exists img', paint_rows img offset (map (fun row => JList (map JInt row)) rows) r = inr img'
    /\ length img' = length img /\ Forall (fun row => length row = w) img'.
Proof.
  induction rows as [|row rows IH]; intros img r Hw Hr Hx Hlen Hc; cbn [map paint_rows].
  - eauto.
  - apply Forall_cons in Hlen as [Hl0 Hlen]. apply Forall_cons in Hc as [Hc0 Hc].
    cbn [length] in Hr.
    destruct (paint_cells_ok w (r + 2) offset row img 0 Hw) as (img1 & -> & Hl1 & Hw1);
      [lia | lia | exact Hc0|].
    destruct (IH img1 (S r) Hw1) as (img2 & -> & Hl2 & Hw2);
      [lia | exact Hx | exact Hlen | exact Hc|].
    exists img2. split; [reflexivity|]. split; [congruence | exact Hw2].
Qed.

Lemma first_len_grid (g : Grid) :
  g <> [] -> first_len (grid_value g) = inr (length (hd [] g)).
Proof.
  destruct g as [|row g]; [congruence|]. intros _.
  unfold first_len, grid_value. cbn. rewrite length_map. reflexivity.
Qed.

Lemma paint_grid_ok (w offset : nat) (g : Grid) (img : image) :
  Forall (fun row => length row = w) img ->
  drawable g ->
  (length g + 2 <= length img)%nat -> (offset + length (hd [] g) + 1 <= w)%nat ->
  exists img', paint_grid img offset (grid_value g) = inr img'
    /\ length img' = length img /\ Forall (fun row => length row = w) img'.
Proof.
  intros Hw (Hne & Hrect & Hcells) Hh Hx. unfold paint_grid, grid_value.
  apply (paint_rows_ok w offset (length (hd [] g))); first [assumption | lia].
Qed.

Lemma paint_examples_ok (w : nat) (examples : list (Grid * Grid)) :
  forall (img : image) (offset : nat),
  Forall (fun row => length row = w) img ->
  Forall (fun ex => drawable (fst ex) /\ drawable (snd ex)) examples ->
  (canvas_height examples <= length img)%nat ->
  (offset + canvas_width examples <= w + 1)%nat ->
  exists img', paint_examples img offset (example_values examples) = inr img'
    /\ length img' = length img /\ Forall (fun row => length row = w) img'.
Proof.
  induction examples as [|[i o] examples IH]; intros img offset Hw Hd Hh Hx;
    cbn [example_values map paint_examples fst snd].
  - eauto.
  - apply Forall_cons in Hd as [[Hi Ho] Hd]. cbn [fst snd] in Hi, Ho.
    cbn [canvas_height canvas_width foldr fst snd] in Hh, Hx.
    fold (canvas_height examples) in Hh. fold (canvas_width examples) in Hx.
    rewrite !first_len_grid by (apply Hi || apply Ho).
    destruct (paint_grid_ok w offset i img Hw Hi) as (img1 & -> & Hl1 & Hw1); [lia | lia|].
    destruct (paint_grid_ok w (offset + (length (hd [] i) + 1))%nat o img1 Hw1 Ho)
      as (img2 & -> & Hl2 & Hw2); [lia | lia|].
    destruct (IH img2 (offset + (length (hd [] i) + 1) + (length (hd [] o) + 4))%nat Hw2 Hd)
      as (img3 & E & Hl3 & Hw3); [lia | lia|].
    fold (example_values examples). rewrite E.
    exists img3. split; [reflexivity|]. split; [congruence | exact Hw3].
Qed.

Lemma canvas_size_ok (examples : list (Grid * Grid)) :
  forall width height : nat,
  Forall (fun ex => drawable (fst ex) /\ drawable (snd ex)) examples ->
  canvas_size (example_values examples) width height
  = inr ((width + canvas_width examples)%nat,
         Nat.max height (canvas_height examples)).
Proof.
  induction examples as [|[i o] examples IH]; intros width height Hd;
    cbn [example_values map canvas_size fst snd].
  - cbn. f_equal. f_equal; lia.
  - apply Forall_cons in Hd as [[Hi Ho] Hd]. cbn [fst snd] in Hi, Ho.
    rewrite !first_len_grid by (apply Hi || apply Ho).
    unfold py_len, grid_value. rewrite !length_map.
    fold (example_values examples). rewrite (IH _ _ Hd).
    cbn [canvas_height canvas_width foldr fst snd].
    fold (canvas_height examples). fold (canvas_width examples).
    f_equal. f_equal; lia.
Qed.

(** X28.  Painting stays on the canvas: for examples whose grids have at
    least one row, rows all as long as the first and cells that are
    palette indices, the canvas [show_examples] computes is large enough
    for every pixel it writes; no [IndexError] is raised, and the image
    handed to [imshow] has the computed height, every row of it the
    computed width. *)
Theorem painting_stays_on_the_canvas (examples : list (Grid * Grid)) (bgcolor : rgb) :
  Forall (fun ex => drawable (fst ex) /\ drawable (snd ex)) examples ->
  exists img,
    show_examples_image (example_values examples) bgcolor = inr img
    /\ length img = canvas_height examples
    /\ Forall (fun row => length row = canvas_width examples) img.
Proof.
  intros Hd. unfold show_examples_image. rewrite (canvas_size_ok _ _ _ Hd).
  cbn [Nat.add Nat.max].
  destruct (paint_examples_ok (canvas_width examples) examples
              (replicate (canvas_height examples)
                         (replicate (canvas_width examples) bgcolor)) 1)
    as (img & E & Hl & Hw).
  - apply Forall_replicate. apply length_replicate.
  - exact Hd.
  - rewrite length_replicate. lia.
  - lia.
  - exists img. split; [exact E|]. split; [|exact Hw].
    rewrite Hl. apply length_replicate.
Qed.

(** *** The right colours at the right places *)

Lemma set_pixel_spec (img img' : image) (y x : nat) (c : rgb) :
  set_pixel img y x c = inr img' ->
  pixel img' y x = Some c
  /\ forall y' x', (y' <> y \/ x' <> x) -> pixel img' y' x' = pixel img y' x'.
Proof.
  unfold set_pixel. destruct (img !! y) as [row|] eqn:Hrow; [|discriminate].
  destruct (Nat.ltb_spec x (length row)) as [Hx|]; [|discriminate].
  intros [= <-]. pose proof (lookup_lt_Some _ _ _ Hrow) as Hy. unfold pixel. split.
  - rewrite list_lookup_insert_eq by exact Hy. apply list_lookup_insert_eq, Hx.
  - intros y' x' Hne. destruct (decide (y' = y)) as [->|Hy'].
    + rewrite list_lookup_insert_eq by exact Hy. rewrite Hrow.
      apply list_lookup_insert_ne. destruct Hne; congruence.
    + rewrite list_lookup_insert_ne by congruence. reflexivity.
Qed.

Lemma paint_cells_spec (y offset : nat) (cells : list Z) :
  forall (img img' : image) (c0 : nat),
  paint_cells img y offset (map JInt cells) c0 = inr img' ->
  (forall j x, cells !! j = Some x ->
     exists col, palette (JInt x) = inr col
                 /\ pixel img' y (offset + c0 + j + 1) = Some col)
  /\ (forall y' x',
        (y' <> y \/ x' < offset + c0 + 1 \/ offset + c0 + length cells + 1 <= x')%nat ->
        pixel img' y' x' = pixel img y' x').
Proof.
  induction cells as [|x cells IH]; intros img img' c0 E; cbn [map paint_cells] in E.
  - injection E as <-. split; [intros j x Hj; discriminate | reflexivity].
  - destruct (palette (JInt x)) as [e|col] eqn:Ep; [discriminate|].
    destruct (set_pixel img y (offset + c0 + 1) col) as [e|img1] eqn:Es; [discriminate|].
    apply set_pixel_spec in Es as [Hset Hframe]. apply IH in E as [Hcells Hrest].
    split.
    + intros [|j] x' Hj; cbn in Hj.
      * injection Hj as <-. exists col. split; [exact Ep|].
        rewrite Hrest by lia. rewrite Nat.add_0_r. exact Hset.
      * destruct (Hcells j x' Hj) as (col' & Hp & Hpix). exists col'. split; [exact Hp|].
        rewrite <- Hpix. f_equal. lia.
    + intros y' x' Hout. cbn [length] in Hout.
      rewrite Hrest by lia. apply Hframe. lia.
Qed.

Lemma paint_rows_spec (offset gw : nat) (rows : Grid) :
  forall (img img' : image) (r0 : nat),
  Forall (fun row => length row = gw) rows ->
  paint_rows img offset (map (fun row => JList (map JInt row)) rows) r0 = inr img' ->
  (forall i j row x, rows !! i = Some row -> row !! j = Some x ->
     exists col, palette (JInt x) = inr col
                 /\ pixel img' (r0 + i + 2) (offset + j + 1) = Some col)
  /\ (forall y' x',
        (y' < r0 + 2 \/ r0 + length rows + 2 <= y'
         \/ x' < offset + 1 \/ offset + gw + 1 <= x')%nat ->
        pixel img' y' x' = pixel img y' x').
Proof.
  induction rows as [|row rows IH]; intros img img' r0 Hlen E; cbn [map paint_rows] in E.
  - injection E as <-. split; [intros i j row x Hi; discriminate | reflexivity].
  - apply Forall_cons in Hlen as [Hl0 Hlen].
    destruct (paint_cells img (r0 + 2) offset (map JInt row) 0) as [e|img1] eqn:Ec;
      [discriminate|].
    apply paint_cells_spec in Ec as [Hcells Hframe].
    apply IH in E as [Hrows Hrest]; [|exact Hlen]. split.
    + intros [|i] j row' x Hi Hj; cbn in Hi.
      * injection Hi as <-. destruct (Hcells j x Hj) as (col & Hp & Hpix).
        exists col. split; [exact Hp|]. rewrite Hrest by lia.
        rewrite <- Hpix. f_equal; lia.
      * destruct (Hrows i j row' x Hi Hj) as (col & Hp & Hpix).
        exists col. split; [exact Hp|]. rewrite <- Hpix. f_equal. lia.
    + intros y' x' Hout. cbn [length] in Hout.
      rewrite Hrest by lia. apply Hframe. lia.
Qed.

Lemma paint_grid_spec (offset : nat) (g : Grid) (img img' : image) :
  Forall (fun row => length row = length (hd [] g)) g ->
  paint_grid img offset (grid_value g) = inr img' ->
  (forall i j row x, g !! i = Some row -> row !! j = Some x ->
     exists col, palette (JInt x) = inr col
                 /\ pixel img' (i + 2) (offset + j + 1) = Some col)
  /\ (forall y' x',
        (x' < offset + 1 \/ offset + length (hd [] g) + 1 <= x')%nat ->
        pixel img' y' x' = pixel img y' x').
Proof.
  intros Hrect E. unfold paint_grid, grid_value in E.
  apply (paint_rows_spec offset (length (hd [] g))) in E as [H1 H2]; [|exact Hrect].
  split; [exact H1|]. intros y' x' Hout. apply H2. lia.
Qed.

Lemma paint_examples_spec (examples : list (Grid * Grid)) :
  forall (img img' : image) (offset : nat),
  Forall (fun ex => drawable (fst ex) /\ drawable (snd ex)) examples ->
  paint_examples img offset (example_values examples) = inr img' ->
  (forall k ex, examples !! k = Some ex ->
     shows img' (offset + canvas_width (take k examples)) (fst ex)
     /\ shows img' (offset + canvas_width (take k examples)
                    + (length (hd [] (fst ex)) + 1)) (snd ex))
  /\ (forall y' x', (x' < offset + 1)%nat -> pixel img' y' x' = pixel img y' x').
Proof.
  induction examples as [|[i o] examples IH]; intros img img' offset Hd E;
    cbn [example_values map paint_examples fst snd] in E.
  - injection E as <-. split; [intros k ex Hk; discriminate | reflexivity].
  - apply Forall_cons in Hd as [[Hi Ho] Hd]. cbn [fst snd] in Hi, Ho.
    rewrite !first_len_grid in E by (apply Hi || apply Ho).
    destruct (paint_grid img offset (grid_value i)) as [e|img1] eqn:E1; [discriminate|].
    destruct (paint_grid img1 (offset + (length (hd [] i) + 1)) (grid_value o))
      as [e|img2] eqn:E2; [discriminate|].
    fold (example_values examples) in E.
    destruct Hi as (_ & Hri & _). destruct Ho as (_ & Hro & _).
    apply paint_grid_spec in E1 as [C1 F1]; [|exact Hri].
    apply paint_grid_spec in E2 as [C2 F2]; [|exact Hro].
    apply IH in E as [C3 F3]; [|exact Hd]. split.
    + intros [|k] ex Hk; cbn in Hk.
      * injection Hk as <-. cbn [take canvas_width foldr fst snd].
        rewrite Nat.add_0_r. split.
        -- intros r c row x Hr Hc. destruct (C1 r c row x Hr Hc) as (col & Hp & Hpix).
           exists col. split; [exact Hp|].
           pose proof (lookup_lt_Some _ _ _ Hc) as Hlt.
           rewrite Forall_forall in Hri.
           rewrite (Hri row) in Hlt by (eapply list_elem_of_lookup_2; exact Hr).
           rewrite F3 by lia. rewrite F2 by lia. exact Hpix.
        -- intros r c row x Hr Hc. destruct (C2 r c row x Hr Hc) as (col & Hp & Hpix).
           exists col. split; [exact Hp|].
           pose proof (lookup_lt_Some _ _ _ Hc) as Hlt.
           rewrite Forall_forall in Hro.
           rewrite (Hro row) in Hlt by (eapply list_elem_of_lookup_2; exact Hr).
           rewrite F3 by lia. exact Hpix.
      * destruct (C3 k ex Hk) as [Ci Co].
        cbn [take canvas_width foldr fst snd]. fold (canvas_width (take k examples)).
        split.
        -- intros r c row x Hr Hc. destruct (Ci r c row x Hr Hc) as (col & Hp & Hpix).
           exists col. split; [exact Hp|]. rewrite <- Hpix. f_equal. lia.
        -- intros r c row x Hr Hc. destruct (Co r c row x Hr Hc) as (col & Hp & Hpix).
           exists col. split; [exact Hp|]. rewrite <- Hpix. f_equal. lia.
    + intros y' x' Hx. rewrite F3 by lia. rewrite F2 by lia. apply F1. lia.
Qed.

Lemma sample_examples_drawable :
  Forall (fun ex => drawable (fst ex) /\ drawable (snd ex)) Samples.sample_examples.
Proof.
  unfold Samples.sample_examples, drawable.
  repeat (apply Forall_cons; split); try apply List.Forall_nil; cbn [fst snd hd length];
    repeat split; try discriminate;
    repeat (apply Forall_cons; split); try apply List.Forall_nil; try reflexivity; lia.
Qed.

Lemma painting_stays_on_the_canvas_witness :
  exists img,
    show_examples_image (example_values Samples.sample_examples) (255, 255, 255) = inr img
    /\ length img = canvas_height Samples.sample_examples
    /\ Forall (fun row => length row = canvas_width Samples.sample_examples) img.
Proof.
  exact (painting_stays_on_the_canvas Samples.sample_examples (255, 255, 255)
           sample_examples_drawable).
Defined.

(** X29.  Every cell is painted where a reader expects it: for examples
    that can be drawn, the image handed to [imshow] shows each input
    grid with its top left cell at row 2 and at the column after the
    offset the loop has reached, and the output grid one column of
    background to the right of the input, every cell in its palette
    colour; painting a later grid never overwrites a cell of an earlier
    one. *)
Theorem every_cell_is_painted (examples : list (Grid * Grid)) (bgcolor : rgb) :
  Forall (fun ex => drawable (fst ex) /\ drawable (snd ex)) examples ->
  exists img,
    show_examples_image (example_values examples) bgcolor = inr img
    /\ forall k ex, examples !! k = Some ex ->
         shows img (offset_of examples k) (fst ex)
         /\ shows img (offset_of examples k + (length (hd [] (fst ex)) + 1)) (snd ex).
Proof.
  intros Hd. unfold show_examples_image. rewrite (canvas_size_ok _ _ _ Hd).
  cbn [Nat.add Nat.max].
  destruct (paint_examples_ok (canvas_width examples) examples
              (replicate (canvas_height examples)
                         (replicate (canvas_width examples) bgcolor)) 1)
    as (img & E & _ & _).
  - apply Forall_replicate. apply length_replicate.
  - exact Hd.
  - rewrite length_replicate. lia.
  - lia.
  - exists img. split; [exact E|].
    apply paint_examples_spec in E as [C _]; [|exact Hd]. exact C.
Qed.

Lemma every_cell_is_painted_witness :
  exists img,
    show_examples_image (example_values Samples.sample_examples) (0, 0, 0) = inr img
    /\ forall k ex, Samples.sample_examples !! k = Some ex ->
         shows img (offset_of Samples.sample_examples k) (fst ex)
         /\ shows img (offset_of Samples.sample_examples k
                       + (length (hd [] (fst ex)) + 1)) (snd ex).
Proof.
  exact (every_cell_is_painted Samples.sample_examples (0, 0, 0)
           sample_examples_drawable).
Defined.

End VizFacts.

(** ** The debug view of a solver that raises *)

Module DebugFacts.
Import Text Json Numpy Loader Store Evaluator Import_ Report Tasks Single Viz Debug
       VerifierFacts.

(** *** What building the image of two grids can raise *)










(** *** The detail kept for a solver that raises on every call *)

Section Crash.

Variable program : solver.
Hypothesis Hexc : raises_only_exceptions program.
Hypothesis Hall : always_raises program.



End Crash.

(** With [visual_debug] left at [False] nothing is drawn:
    [Debug.evaluate_task] is [Single.evaluate_task]. *)
Lemma debug_off (plot : list (jsonval * jsonval) -> image -> option text)
    (w : world) (task_id : Z) (mods : registry) (h : heap) :
  Debug.evaluate_task plot w task_id false mods h
  = match Single.evaluate_task w task_id mods h with
    | (inl e, mods', h') => (inl (Evaluation e), mods', h')
    | (inr res, mods', h') => (inr res, mods', h')
    end.
Proof.
  unfold Debug.evaluate_task, Single.evaluate_task.
  destruct (load_task _ _ _ _ _) as [[e|task_json] h1]; [reflexivity|].
  destruct (_import_solver _ _ _ _) as [[e|[program file_path]] mods']; [reflexivity|].
  cbv zeta. unfold evaluate_with.
  destruct (_verify_split program _ h1) as [[e|[[[agi_r agi_w] agi_d] agi_tb]] h2];
    [reflexivity|].
  destruct (_verify_split program _ h2) as [[e|[[[gen_r gen_w] gen_d] gen_tb]] h3];
    [reflexivity|].
  destruct (get_file_bytes _ _) as [e|n]; [reflexivity|].
  destruct (Score.score_for_length _ _); reflexivity.
Qed.




End DebugFacts.

(** ** When the whole range is evaluated *)

Module TotalFacts.
Import Text Loader Store Evaluator Import_ Report Float64 Tasks Batch.
Import VerifierFacts BatchFacts.

Lemma verify_split_total (program : solver) (pairs : list pair) (h : heap) :
  raises_only_exceptions program ->
  exists res h', _verify_split program pairs h = (inr res, h').
Proof.
  intros Hex. unfold _verify_split.
  destruct (verify_loop_total program Hex pairs (mk_state 0 0 None []) h)
    as (st' & h' & ->). eauto.
Qed.

(** With a solver that raises only instances of [Exception], the body of
    the [try] block returns or raises an instance of [Exception]. *)
Lemma evaluate_with_caught (program : solver) (file_path : text)
    (agi gen : list pair) (fs : filesystem) (h : heap) :
  raises_only_exceptions program ->
  exists res h',
    evaluate_with program file_path agi gen fs h = (res, h')
    /\ match res with
       | inl e => is_Exception e = true
       | inr (n, _, _, _, _, _) => get_file_bytes fs file_path = inr n
       end.
Proof.
  intros Hex. unfold evaluate_with.
  destruct (verify_split_total program agi h Hex) as ([[[ar aw] ad] atb] & h1 & ->).
  destruct (verify_split_total program gen h1 Hex) as ([[[gr gw] gd] gtb] & h2 & ->).
  destruct (get_file_bytes fs file_path) as [e|n] eqn:Eb.
  - eexists _, _. split; [reflexivity|]. unfold get_file_bytes in Eb.
    destruct (fs file_path); [discriminate|]. injection Eb as <-. reflexivity.
  - destruct (Score.score_for_length n _); eexists _, _; (split; [reflexivity|]);
      [reflexivity | reflexivity].
Qed.

(** In a tame repository [eval_all._eval_one] returns a record, whose
    byte count is that of a file or zero. *)
Lemma eval_one_total (w : world) (tid : Z) (fe : bool) (tjson : task pair)
    (mods : registry) (h : heap) :
  tame w ->
  exists m mods' h',
    EvalAll._eval_one (SUBMISSION_DIR w) tid fe tjson (solver_files w) mods h
    = (inr m, mods', h')
    /\ 0 <= bytes m < 2 ^ 62.
Proof.
  intros Ht. assert (H62 : 0 < 2 ^ 62) by reflexivity.
  unfold EvalAll._eval_one. destruct fe; cbn [negb].
  2:{ eexists _, _, _. split; [reflexivity|]. cbn. lia. }
  unfold _import_solver, import_at.
  destruct (solver_files w _) as [art|] eqn:Ef.
  2:{ eexists _, _, _. split; [reflexivity|]. cbn. lia. }
  destruct (Ht _ _ Ef) as (Hb & He & Hp).
  destruct (exec_module art) as [e|[[p|]|]] eqn:Ex.
  - rewrite (He e eq_refl). eexists _, _, _. split; [reflexivity|]. cbn. lia.
  - destruct (evaluate_with_caught p
                (path_join (SUBMISSION_DIR w) (solver_file_name tid))
                (t_train tjson ++ t_test tjson) (t_arc_gen tjson)
                (solver_files w) h (Hp p eq_refl)) as (res & h' & -> & Hres).
    destruct res as [e|[[[[[n sc] ok] agi] gen] tb]].
    + rewrite Hres. eexists _, _, _. split; [reflexivity|]. cbn. lia.
    + eexists _, _, _. split; [reflexivity|]. cbn [bytes].
      unfold get_file_bytes in Hres. rewrite Ef in Hres. injection Hres as <-. exact Hb.
  - eexists _, _, _. split; [reflexivity|]. cbn. lia.
  - eexists _, _, _. split; [reflexivity|]. cbn. lia.
Qed.

Lemma batch_eval_one_total (w : world) (tid : Z) (fe : bool)
    (mods : registry) (h : heap) :
  tame w ->
  (tid <> 0 ->
   exists t, first_existing (task_store w) (_candidate_paths (repo_root w) tid)
             = Some (inr t)) ->
  exists m mods' h',
    _eval_one w tid fe mods h = (inr m, mods', h') /\ 0 <= bytes m < 2 ^ 62.
Proof.
  intros Ht Hfile. unfold _eval_one, load_task.
  destruct (Z.eqb_spec tid 0) as [->|Hne].
  - destruct (eval_one_total w 0 fe (task_zero w) mods h Ht) as (m & mods' & h' & -> & Hb).
    eauto.
  - destruct (Hfile Hne) as [t ->].
    destruct (store_task h t) as [h1 tjson].
    destruct (eval_one_total w tid fe tjson mods h1 Ht) as (m & mods' & h' & -> & Hb).
    eauto.
Qed.

Lemma eval_loop_total (w : world) (present : gmap Z text) (tids : list Z) :
  tame w ->
  (forall tid, tid ∈ tids -> tid <> 0 ->
   exists t, first_existing (task_store w) (_candidate_paths (repo_root w) tid)
             = Some (inr t)) ->
  forall (t : totals) (mods : registry) (h : heap),
  0 <= total_bytes t <= Z.of_nat (n_present t) * 2 ^ 62 ->
  exists t' mods' h',
    eval_loop w present tids t mods h = (inr t', mods', h')
    /\ 0 <= total_bytes t' <= Z.of_nat (n_present t') * 2 ^ 62.
Proof.
  intros Ht. induction tids as [|tid tids IH]; intros Hfiles t mods h Hb; cbn [eval_loop].
  - eauto.
  - destruct (batch_eval_one_total w tid (bool_decide (is_Some (present !! tid))) mods h Ht)
      as (m & mods1 & h1 & -> & Hm).
    { apply Hfiles. left. }
    apply IH.
    + intros x Hx. apply Hfiles. right. exact Hx.
    + unfold tally. cbn [total_bytes n_present].
      destruct (bool_decide _); [|exact Hb]. lia.
Qed.

(** A quotient of ordinary size is rounded to a finite float. *)
Lemma round64_small (q : Q) :
  0 <= Qnum q <= 2 ^ 62 * Z.pos (Qden q) -> exists r, round64 q = Finite r.
Proof.
  intros [H0 Hq]. unfold round64.
  destruct (Z.eqb_spec (Qnum q) 0) as [|Hne]; [eauto|]. cbv zeta.
  set (d := Z.pos (Qden q)) in *. assert (Hd : 0 < d) by (unfold d; lia).
  rewrite (Z.abs_eq (Qnum q)) by exact H0. set (a := Qnum q) in *.
  set (e := Z.log2 a - Z.log2 d).
  assert (He : e <= 62).
  { assert (Hl : Z.log2 a <= Z.log2 (d * 2 ^ 62)) by (apply Z.log2_le_mono; lia).
    rewrite Z.log2_mul_pow2 in Hl by lia. unfold e. lia. }
  set (ge := if 0 <=? e then d * 2 ^ e <=? a else d <=? a * 2 ^ (- e)).
  set (ex := if ge then e else e - 1).
  assert (Hex : ex <= 62) by (unfold ex; destruct ge; lia).
  set (u := Z.max (ex - 52) (-1074)).
  destruct (Z.leb_spec 0 u) as [Hu|Hu]; [|eauto].
  assert (Hu10 : u <= 10) by (unfold u; lia).
  rewrite (Z.max_l 0 (- u)), (Z.max_r 0 u) by lia. rewrite Z.pow_0_r, Z.mul_1_r.
  set (m := Score.round_half_even a (d * 2 ^ u)).
  assert (Hp : 1 <= 2 ^ u) by (apply (Z.pow_le_mono_r 2 0 u); lia).
  assert (Hp10 : 2 ^ u <= 2 ^ 10) by (apply Z.pow_le_mono_r; lia).
  assert (Hdu : 0 < d * 2 ^ u) by nia.
  pose proof (ScoreFacts.round_half_even_bounds a (d * 2 ^ u) H0 Hdu) as [Hlo Hhi].
  assert (Hdiv : a / (d * 2 ^ u) <= 2 ^ 62).
  { etransitivity; [apply (Z.div_le_compat_l a d (d * 2 ^ u)); [exact H0 | nia]|].
    apply Z.div_le_upper_bound; lia. }
  assert (Hm0 : 0 <= m).
  { pose proof (Z.div_pos a (d * 2 ^ u) H0 Hdu). lia. }
  assert (Hbig : (2 ^ 62 + 1) * 2 ^ 10 < 2 ^ 1024) by reflexivity.
  assert (Hmu : m * 2 ^ u <= (2 ^ 62 + 1) * 2 ^ 10).
  { apply Z.mul_le_mono_nonneg; lia. }
  destruct (Z.leb_spec (2 ^ 1024) (m * 2 ^ u)); [lia | eauto].
Qed.

Lemma int_truediv_defined (a : Z) (n : nat) :
  0 <= a <= Z.of_nat n * 2 ^ 62 -> n <> 0%nat ->
  exists q, int_truediv a (Z.of_nat n) = inr (Finite q).
Proof.
  intros Ha Hn. unfold int_truediv.
  destruct (Z.eqb_spec (Z.of_nat n) 0) as [|_]; [lia|].
  destruct (Z.of_nat n) as [|p|p] eqn:En; try lia.
  destruct (round64_small (inject_Z a / inject_Z (Z.pos p))%Q) as [r ->]; [|eauto].
  unfold Qdiv, Qmult, Qinv, inject_Z. cbn [Qnum Qden]. lia.
Qed.

(** X27.  In a tame repository (solver files below 2^62 bytes, modules
    and solvers that raise nothing but instances of [Exception]),
    [evaluate_all(start, end)] returns a report for every range that is
    not empty and in which every task other than task 0 has a readable
    task file: nothing a solver or its file does ends the run. *)
Theorem evaluate_all_returns_a_report (w : world) (start end_ : Z)
    (mods : registry) (h : heap) :
  tame w ->
  start <= end_ < start + 2 ^ 62 ->
  (forall tid, start <= tid <= end_ -> tid <> 0 ->
   exists t, first_existing (task_store w) (_candidate_paths (repo_root w) tid)
             = Some (inr t)) ->
  exists r mods' h', evaluate_all w start end_ mods h = (inr r, mods', h').
Proof.
  intros Ht Hr Hfiles. unfold evaluate_all. cbv zeta.
  destruct (eval_loop_total w (_task_paths_present w) (range start (end_ + 1)) Ht)
    with (t := mk_totals [] (Finite 0%Q) 0 0 0 0 0) (mods := mods) (h := h)
    as (t' & mods' & h' & -> & Hb).
  { intros tid Hin. apply elem_of_range in Hin. apply Hfiles. lia. }
  { cbn. lia. }
  assert (Hdiv : exists avg, fdiv_int (total_score t') (end_ - start + 1) = inr avg).
  { unfold fdiv_int.
    destruct (ScoreFacts.float_of_int_defined (end_ - start + 1)) as (y & -> & _).
    - assert (2 ^ 62 < 2 ^ 1024 - 2 ^ 970) by reflexivity. lia.
    - destruct (Z.eqb_spec (end_ - start + 1) 0) as [|_]; [lia | eauto]. }
  destruct Hdiv as [avg ->].
  destruct (Nat.eqb_spec (n_present t') 0) as [_|Hn]; [eauto|].
  destruct (int_truediv_defined (total_bytes t') (n_present t') Hb Hn) as [q ->]. eauto.
Qed.

Lemma sample_world_tame : tame Samples.sample_world.
Proof.
  intros path art Hart. cbn in Hart.
  destruct (bool_decide _); [|discriminate]. injection Hart as <-.
  split; [cbn; split; [lia | reflexivity]|]. split; [discriminate|].
  intros p [= <-]. exact copy_solver_only_exceptions.
Qed.

(** X27, witness: tasks 0 and 1 of the sample repository. *)
Lemma evaluate_all_returns_a_report_witness :
  exists r mods' h',
    evaluate_all Samples.sample_world 0 1 ∅ Samples.sample_heap = (inr r, mods', h').
Proof.
  apply (evaluate_all_returns_a_report Samples.sample_world 0 1 ∅ Samples.sample_heap
           sample_world_tame).
  - split; [lia | reflexivity].
  - intros tid Hr Hz. assert (tid = 1) as -> by lia. eexists. reflexivity.
Defined.

End TotalFacts.
